(** * TRENTO collider: a shallow embedding of [src/collider.cxx]

    The model covers the whole translation unit: the helper functions of
    the constructor ([create_nucleus], [determine_bmax], [determine_asym]),
    the constructor, [sample_collision] and [run_events].

    Conventions.
    - [double] values are written against the interface [Double]; its
      instance [binary64] is IEEE-754 double precision (Rocq's primitive
      floats), the arithmetic the compiled program executes.  The real
      numbers that such values stand for appear only in the proofs of how
      the operations round.
    - [int] values are integers in [Z]; incrementing [INT_MAX] is undefined
      behaviour in C++ and is reported as the outcome [Undefined].
    - The global [random::engine] and the mutable members of the collider
      are threaded explicitly.
    - The classes [Nucleus], [NucleonCommon], [Event], [Output] and the
      random engine are declared in headers outside this translation unit;
      they are the fields of [Collaborators].  Their constructors may
      throw; their other operations are taken to return.
    - Loops that need not terminate take a bound [fuel] on their passes
      and report [OutOfFuel] when it is used up. *)

From Stdlib Require Import String.
From Stdlib Require Import ZArith List Bool Lia.
From Stdlib Require Import Floats Uint63.
From Stdlib Require Import Reals Lra.
Import ListNotations.

#[local] Set Warnings "-inexact-float".
#[local] Open Scope Z_scope.

(* ================================================================= *)
(** ** Arithmetic of [double] *)

Class Double (T : Type) : Type := {
  dadd : T -> T -> T;
  dsub : T -> T -> T;
  dmul : T -> T -> T;
  ddiv : T -> T -> T;
  dsqrt : T -> T;
  dltb : T -> T -> bool;          (* x < y *)
  dleb : T -> T -> bool;          (* x <= y *)
  d_zero : T;                     (* 0. *)
  d_tenth : T;                    (* 0.1 *)
  d_half : T;                     (* 0.5 *)
  d_one : T                       (* 1. *)
}.

Declare Scope double_scope.
Delimit Scope double_scope with D.
Infix "+" := dadd : double_scope.
Infix "-" := dsub : double_scope.
Infix "*" := dmul : double_scope.
Infix "/" := ddiv : double_scope.
Infix "<?" := dltb : double_scope.
Infix "<=?" := dleb : double_scope.

(** IEEE-754 binary64, round to nearest even: the arithmetic the program
    runs with. *)
#[export] Instance binary64 : Double float := {|
  dadd := PrimFloat.add;
  dsub := PrimFloat.sub;
  dmul := PrimFloat.mul;
  ddiv := PrimFloat.div;
  dsqrt := PrimFloat.sqrt;
  dltb := PrimFloat.ltb;
  dleb := PrimFloat.leb;
  d_zero := 0%float;
  d_tenth := 0.1%float;
  d_half := 0.5%float;
  d_one := 1%float
|}.

(** Not below zero: NaN, a zero, [+infinity] or a positive finite number. *)
Definition SFnot_negative (s : spec_float) : Prop :=
  s = S754_nan \/ (exists z, s = S754_zero z) \/ s = S754_infinity false \/
  exists m e, s = S754_finite false m e.

(** *** The numbers that binary64 values stand for

    Real numbers serve to state how the operations of binary64 round;
    nothing of the program is computed with them. *)

(** [2^e] for an integer exponent. *)
Definition pow2 (e : Z) : R := powerRZ 2 e.

(** The number a finite [spec_float] stands for; 0 for the others. *)
Definition SF2R (x : spec_float) : R :=
  match x with
  | S754_finite s m e =>
      ((if s then Ropp (IZR (Zpos m)) else IZR (Zpos m)) * pow2 e)%R
  | _ => 0%R
  end.

(** The number a double stands for. *)
Definition B2R (x : float) : R := SF2R (Prim2SF x).

(** A zero or a positive finite number. *)
Definition finite_nonneg (x : float) : Prop :=
  (exists s, Prim2SF x = S754_zero s) \/ exists m e, Prim2SF x = S754_finite false m e.

(** The non-negative numbers of binary64: [m * 2^e] with a mantissa of at
    most 53 bits and an exponent from -1074 to 971. *)
Definition representable (v : R) : Prop :=
  exists m e : Z, 0 <= m < 2 ^ 53 /\ -1074 <= e <= 971 /\ v = (IZR m * pow2 e)%R.

(** [v] is a number of binary64 and no other one is nearer to [x]. *)
Definition nearest (x v : R) : Prop :=
  representable v /\
  forall f : R, representable f -> (Rabs (v - x) <= Rabs (f - x))%R.

(** [x] lies in the interval from [m * 2^e] to [(m + 1) * 2^e], at the
    place that [l] says: on its lower end, or inside it and below, at or
    above its middle. *)
Definition inbetween (x : R) (m e : Z) (l : location) : Prop :=
  let y := (x / pow2 e)%R in
  match l with
  | loc_Exact => y = IZR m
  | loc_Inexact c =>
      (IZR m < y < IZR m + 1)%R /\
      match c with
      | Lt => (y < IZR m + / 2)%R
      | Eq => y = (IZR m + / 2)%R
      | Gt => (IZR m + / 2 < y)%R
      end
  end.

(** A bound of the impact parameter whose square neither underflows nor
    overflows in binary64: zero, or a number from [2^(-511)] to [2^511]. *)
Definition square_safe (x : float) : bool :=
  (x =? 0)%float || ((0x1p-511 <=? x)%float && (x <=? 0x1p511)%float).


(* ================================================================= *)
(** ** Outcomes of a call *)

Inductive outcome (A : Type) : Type :=
| Done (a : A)        (* the call returns [a] *)
| Throw               (* a C++ exception leaves the call *)
| Undefined           (* signed overflow of an [int] *)
| OutOfFuel.          (* the loop bound of the model is exhausted *)

Arguments Done {A} a.
Arguments Throw {A}.
Arguments Undefined {A}.
Arguments OutOfFuel {A}.

Definition obind {A B : Type} (m : outcome A) (k : A -> outcome B) : outcome B :=
  match m with
  | Done a => k a
  | Throw => Throw
  | Undefined => Undefined
  | OutOfFuel => OutOfFuel
  end.

(** Whether a call returned. *)
Definition returns {A : Type} (m : outcome A) : bool :=
  match m with
  | Done _ => true
  | _ => false
  end.

(** A collaborator that throws is a partial function. *)
Definition or_throw {A : Type} (o : option A) : outcome A :=
  match o with
  | Some a => Done a
  | None => Throw
  end.

Declare Scope outcome_scope.
Delimit Scope outcome_scope with outcome.
Notation "x <- m ;; k" := (obind m (fun x => k))
  (at level 61, m at next level, right associativity) : outcome_scope.
Notation "' p <- m ;; k" := (obind m (fun x => match x with p => k end))
  (at level 61, p pattern, m at next level, right associativity) : outcome_scope.
#[local] Open Scope outcome_scope.

(** [int]: 32 bits, two's complement. *)
Definition INT_MAX : Z := 2147483647.

(** [++x] on an [int]. *)
Definition int_incr (x : Z) : outcome Z :=
  if x <? INT_MAX then Done (x + 1) else Undefined.

(* ================================================================= *)
(** ** Configuration and collaborators *)

(** The options of [var_map] that this translation unit reads. *)
Record VarMap (T : Type) : Type := {
  projectile : list String.string;
  nucleon_min_dist : T;
  a0 : T;
  y_mean : T;
  y_std : T;
  beta2_mean : T;
  beta2_std : T;
  beta3 : T;
  beta4 : T;
  number_events : Z;
  ncoll : bool;
  toColl : bool;
  b_min : T;
  b_max : T;
  random_seed : Z
}.

Arguments projectile {T} _.
Arguments nucleon_min_dist {T} _.
Arguments a0 {T} _.
Arguments y_mean {T} _.
Arguments y_std {T} _.
Arguments beta2_mean {T} _.
Arguments beta2_std {T} _.
Arguments beta3 {T} _.
Arguments beta4 {T} _.
Arguments number_events {T} _.
Arguments ncoll {T} _.
Arguments toColl {T} _.
Arguments b_min {T} _.
Arguments b_max {T} _.
Arguments random_seed {T} _.

(** The value a call of [NucleonCommon::participate] leaves behind: its
    result, the two nucleons it was handed by reference, and the engine. *)
Record Participation (Nucleon Engine : Type) : Type := {
  new_collision : bool;
  nucleon_a : Nucleon;
  nucleon_b : Nucleon;
  engine_after : Engine
}.

Arguments new_collision {Nucleon Engine} _.
Arguments nucleon_a {Nucleon Engine} _.
Arguments nucleon_b {Nucleon Engine} _.
Arguments engine_after {Nucleon Engine} _.

(** Everything [collider.cxx] uses and does not define. *)
Class Collaborators (T : Type) : Type := {
  Engine : Type;                   (* state of random::engine *)
  Nucleon : Type;
  Nucleus : Type;
  NucleonCommon : Type;
  Event : Type;
  Output : Type;
  (* random.h *)
  canonical : Engine -> T * Engine;
  normal_distribution : T -> T -> Engine -> T * Engine;
  engine_seed : Z -> Engine;
  (* nucleus.h *)
  Nucleus_create : String.string -> T -> T -> T -> T -> T -> T -> option Nucleus;
  radius : Nucleus -> T;
  sample_nucleons : T -> Nucleus -> Engine -> Nucleus * Engine;
  nucleons : Nucleus -> list Nucleon;                 (* begin() .. end() *)
  with_nucleons : list Nucleon -> Nucleus -> Nucleus; (* writes through the iterators *)
  (* nucleon.h *)
  NucleonCommon_new : VarMap T -> option NucleonCommon;
  max_impact : NucleonCommon -> T;
  participate : NucleonCommon -> Nucleon -> Nucleon -> Engine -> Participation Nucleon Engine;
  (* event.h, output.h *)
  Event_new : VarMap T -> option Event;
  Event_compute : Nucleus -> Nucleus -> NucleonCommon -> Event -> Event;
  Output_new : VarMap T -> option Output;
  Output_call : Output -> Z -> T -> Z -> Z -> Event -> Output
}.

(* ================================================================= *)
(** ** The collider *)

Section Collider.

Context {T : Type} {D : Double T} {X : Collaborators T}.

#[local] Open Scope double_scope.

(** The data members of [class Collider]. *)
Record Collider : Type := {
  nucleusA_ : Nucleus;
  nucleusB_ : Nucleus;
  nucleon_common_ : NucleonCommon;
  nevents_ : Z;
  calc_ncoll_ : bool;
  calc_toColl_ : bool;
  bmin_ : T;
  bmax_ : T;
  asymmetry_ : T;
  event_ : Event;
  output_ : Output
}.

(** Create one nucleus from the configuration. *)
Definition create_nucleus (var_map : VarMap T) (index : nat) (e : Engine)
  : outcome (Nucleus * Engine) :=
  species <- or_throw (nth_error (projectile var_map) index) ;;
  let nucleon_dmin := nucleon_min_dist var_map in
  let '(gamma, e1) := normal_distribution (y_mean var_map) (y_std var_map) e in
  let '(beta2, e2) := normal_distribution (beta2_mean var_map) (beta2_std var_map) e1 in
  N <- or_throw (Nucleus_create species nucleon_dmin (a0 var_map) beta2
                   (beta3 var_map) (beta4 var_map) gamma) ;;
  Done (N, e2).

(** Determine the maximum impact parameter. *)
Definition determine_bmax (var_map : VarMap T) (A B : Nucleus) (nc : NucleonCommon) : T :=
  let bmax := b_max var_map in
  if bmax <? d_zero then radius A + radius B + max_impact nc else bmax.

(** Determine the asymmetry parameter. *)
Definition determine_asym (A B : Nucleus) : T :=
  let rA := radius A in
  let rB := radius B in
  let sum := rA + rB in
  if sum <? d_tenth then d_half else rA / sum.

(** Lots of members to initialize: the member initializers run in the
    order written, then the constructor body sets the random seed if
    requested. *)
Definition Collider_new (var_map : VarMap T) (e : Engine) : outcome (Collider * Engine) :=
  '(A, e1) <- create_nucleus var_map 0 e ;;
  '(B, e2) <- create_nucleus var_map 1 e1 ;;
  nc <- or_throw (NucleonCommon_new var_map) ;;
  let bmax := determine_bmax var_map A B nc in
  let asym := determine_asym A B in
  ev <- or_throw (Event_new var_map) ;;
  out <- or_throw (Output_new var_map) ;;
  let seed := random_seed var_map in
  let e3 := if (0 <? seed)%Z then engine_seed seed else e2 in
  Done ({| nucleusA_ := A;
           nucleusB_ := B;
           nucleon_common_ := nc;
           nevents_ := number_events var_map;
           calc_ncoll_ := ncoll var_map;
           calc_toColl_ := toColl var_map;
           bmin_ := b_min var_map;
           bmax_ := bmax;
           asymmetry_ := asym;
           event_ := ev;
           output_ := out |}, e3).

(** *** [sample_collision] *)

(** Sample b from P(b)db = 2*pi*b. *)
Definition impact_parameter (bmin bmax u : T) : T :=
  dsqrt (bmin * bmin + (bmax * bmax - bmin * bmin) * u).


(** The locals the pair loops update, with the record of the checks made
    so far in this trial: for each evaluation of [participate], the
    positions of the two nucleons in their nuclei and the result. *)
Record PairState : Type := {
  ps_ncoll : Z;
  ps_collision : bool;
  ps_engine : Engine;
  ps_checks : list (nat * nat * bool)
}.

(** Body of the inner loop for the pair [(A, B)] at positions [(i, j)]. *)
Definition check_pair (nc : NucleonCommon) (calc_ncoll : bool) (i j : nat)
    (A B : Nucleon) (s : PairState) : outcome (Nucleon * Nucleon * PairState) :=
  let p := participate nc A B (ps_engine s) in
  n <- (if new_collision p && calc_ncoll then int_incr (ps_ncoll s)
        else Done (ps_ncoll s)) ;;
  Done (nucleon_a p, nucleon_b p,
        {| ps_ncoll := n;
           ps_collision := new_collision p || ps_collision s;
           ps_engine := engine_after p;
           ps_checks := ps_checks s ++ [(i, j, new_collision p)] |}).

(** [for (auto&& B : *nucleusB_)], from position [j] on. *)
Fixpoint for_each_B (nc : NucleonCommon) (calc_ncoll : bool) (i j : nat)
    (A : Nucleon) (Bs : list Nucleon) (s : PairState)
  : outcome (Nucleon * list Nucleon * PairState) :=
  match Bs with
  | [] => Done (A, [], s)
  | B :: Bs' =>
      '(A1, B1, s1) <- check_pair nc calc_ncoll i j A B s ;;
      '(A2, Bs2, s2) <- for_each_B nc calc_ncoll i (S j) A1 Bs' s1 ;;
      Done (A2, B1 :: Bs2, s2)
  end.

(** [for (auto&& A : *nucleusA_)], from position [i] on. *)
Fixpoint for_each_A (nc : NucleonCommon) (calc_ncoll : bool) (i : nat)
    (As Bs : list Nucleon) (s : PairState)
  : outcome (list Nucleon * list Nucleon * PairState) :=
  match As with
  | [] => Done ([], Bs, s)
  | A :: As' =>
      '(A1, Bs1, s1) <- for_each_B nc calc_ncoll i 0 A Bs s ;;
      '(As2, Bs2, s2) <- for_each_A nc calc_ncoll (S i) As' Bs1 s1 ;;
      Done (A1 :: As2, Bs2, s2)
  end.

(** What the model records about one pass of the do-while body. *)
Record Trial : Type := {
  trial_b : T;
  trial_sizeA : nat;
  trial_sizeB : nat;
  trial_checks : list (nat * nat * bool);
  trial_collision : bool
}.

(** The locals of [sample_collision] between two passes. *)
Record Locals : Type := {
  l_ncoll : Z;
  l_collision : bool;
  l_nToCollide : Z
}.

(** The first half of the do-while body: sample [b] and both nuclei. *)
Definition place_nuclei (c : Collider) (e : Engine) : T * Nucleus * Nucleus * Engine :=
  let '(u, e1) := canonical e in
  let b := impact_parameter (bmin_ c) (bmax_ c) u in
  let '(A, e2) := sample_nucleons (asymmetry_ c * b) (nucleusA_ c) e1 in
  let '(B, e3) := sample_nucleons ((asymmetry_ c - d_one) * b) (nucleusB_ c) e2 in
  (b, A, B, e3).

Definition set_nuclei (A B : Nucleus) (c : Collider) : Collider :=
  {| nucleusA_ := A;
     nucleusB_ := B;
     nucleon_common_ := nucleon_common_ c;
     nevents_ := nevents_ c;
     calc_ncoll_ := calc_ncoll_ c;
     calc_toColl_ := calc_toColl_ c;
     bmin_ := bmin_ c;
     bmax_ := bmax_ c;
     asymmetry_ := asymmetry_ c;
     event_ := event_ c;
     output_ := output_ c |}.

(** The do-while body. *)
Definition trial (c : Collider) (e : Engine) (l : Locals)
  : outcome (Trial * Locals * Collider * Engine) :=
  let '(b, A, B, e3) := place_nuclei c e in
  '(As, Bs, s) <- for_each_A (nucleon_common_ c) (calc_ncoll_ c) 0
                    (nucleons A) (nucleons B)
                    {| ps_ncoll := l_ncoll l;
                       ps_collision := l_collision l;
                       ps_engine := e3;
                       ps_checks := [] |} ;;
  nToCollide <- (if calc_toColl_ c then int_incr (l_nToCollide l)
                 else Done (l_nToCollide l)) ;;
  Done ({| trial_b := b;
           trial_sizeA := length (nucleons A);
           trial_sizeB := length (nucleons B);
           trial_checks := ps_checks s;
           trial_collision := ps_collision s |},
        {| l_ncoll := ps_ncoll s;
           l_collision := ps_collision s;
           l_nToCollide := nToCollide |},
        set_nuclei (with_nucleons As A) (with_nucleons Bs B) c,
        ps_engine s).

(** [do { ... } while (!collision);] with at most [fuel] passes.  [log]
    collects the record of every pass. *)
Fixpoint do_while (fuel : nat) (c : Collider) (e : Engine) (l : Locals) (log : list Trial)
  : outcome ((T * Z * Z) * list Trial * Collider * Engine) :=
  match fuel with
  | O => OutOfFuel
  | S fuel' =>
      '(t, l1, c1, e1) <- trial c e l ;;
      if negb (l_collision l1)
      then do_while fuel' c1 e1 l1 (log ++ [t])
      else Done ((trial_b t, l_ncoll l1, l_nToCollide l1), log ++ [t], c1, e1)
  end.

(** [sample_collision] together with the record of its passes. *)
Definition sample_collision_log (fuel : nat) (c : Collider) (e : Engine)
  : outcome ((T * Z * Z) * list Trial * Collider * Engine) :=
  do_while fuel c e {| l_ncoll := 0; l_collision := false; l_nToCollide := 0 |} [].

(** [std::tuple<double, int, int> Collider::sample_collision()] *)
Definition sample_collision (fuel : nat) (c : Collider) (e : Engine)
  : outcome ((T * Z * Z) * Collider * Engine) :=
  '(r, _, c1, e1) <- sample_collision_log fuel c e ;;
  Done (r, c1, e1).

(** *** [run_events] *)

(** The main event loop from event [n] on.  [fuel] bounds the number of
    events, [trials] the passes of each [sample_collision].  The list
    collects the tuples that [sample_collision] returned. *)
Fixpoint event_loop (fuel trials : nat) (n : Z) (c : Collider) (e : Engine)
    (sampled : list (T * Z * Z)) : outcome (list (T * Z * Z) * Collider * Engine) :=
  if (n <? nevents_ c)%Z then
    match fuel with
    | O => OutOfFuel
    | S fuel' =>
        '(collision_attr, c1, e1) <- sample_collision trials c e ;;
        let '(b, ncoll, nToCollide) := collision_attr in
        let ev := Event_compute (nucleusA_ c1) (nucleusB_ c1) (nucleon_common_ c1)
                    (event_ c1) in
        let out := Output_call (output_ c1) n b ncoll nToCollide ev in
        let c2 := {| nucleusA_ := nucleusA_ c1;
                     nucleusB_ := nucleusB_ c1;
                     nucleon_common_ := nucleon_common_ c1;
                     nevents_ := nevents_ c1;
                     calc_ncoll_ := calc_ncoll_ c1;
                     calc_toColl_ := calc_toColl_ c1;
                     bmin_ := bmin_ c1;
                     bmax_ := bmax_ c1;
                     asymmetry_ := asymmetry_ c1;
                     event_ := ev;
                     output_ := out |} in
        n1 <- int_incr n ;;
        event_loop fuel' trials n1 c2 e1 (sampled ++ [collision_attr])
    end
  else Done (sampled, c, e).

(** [void Collider::run_events()] *)
Definition run_events (fuel trials : nat) (c : Collider) (e : Engine)
  : outcome (list (T * Z * Z) * Collider * Engine) :=
  event_loop fuel trials 0 c e [].

End Collider.

(* ================================================================= *)
(** ** Reading the record of a run *)

Section Records.

Context {T : Type} {D : Double T} {X : Collaborators T}.

(** Number of checks that reported a participating pair. *)
Definition hits (l : list (nat * nat * bool)) : Z :=
  Z.of_nat (length (filter snd l)).

(** Logical OR of the results of the checks. *)
Definition any_hit (l : list (nat * nat * bool)) : bool :=
  existsb snd l.

(** Participating pairs over all passes. *)
Definition total_hits (log : list (@Trial T)) : Z :=
  fold_right (fun t acc => hits (trial_checks t) + acc) 0 log.

(** The Cartesian product of the positions of two nuclei with [nA] and
    [nB] nucleons, in the order of the nested loops. *)
Definition all_pairs (nA nB : nat) : list (nat * nat) :=
  list_prod (seq 0 nA) (seq 0 nB).

(** A pass that swept the whole product and whose flag is the OR of its
    checks, at an impact parameter computed from a draw of the engine. *)
Definition full_sweep (c : Collider) (t : @Trial T) : Prop :=
  map fst (trial_checks t) = all_pairs (trial_sizeA t) (trial_sizeB t) /\
  trial_collision t = any_hit (trial_checks t) /\
  exists e : Engine,
    trial_b t = impact_parameter (bmin_ c) (bmax_ c) (fst (canonical e)).

(** *** The sweep read pair by pair

    A second description of the rejection loop, written from its
    specification rather than from the loops of the source: a pass draws
    [b], samples both nuclei, and then goes once through the Cartesian
    product of the positions of the two nuclei, evaluating [participate]
    on the nucleons at each pair of positions, with no exit before the
    end.  The theorems compare the source's loops with it. *)

(** Replace the element at position [i]. *)
Fixpoint set_nth {A : Type} (i : nat) (x : A) (l : list A) : list A :=
  match l, i with
  | [], _ => []
  | _ :: l', O => x :: l'
  | y :: l', S i' => y :: set_nth i' x l'
  end.

(** The nucleons of both nuclei, the engine, and the results of the
    evaluations of [participate] so far. *)
Record SweepState : Type := {
  sw_A : list Nucleon;
  sw_B : list Nucleon;
  sw_engine : Engine;
  sw_results : list bool
}.

(** Evaluate [participate] on the nucleons at positions [(i, j)]; the two
    nucleons and the engine are left as the call leaves them. *)
Definition check_by_position (nc : NucleonCommon) (st : SweepState) (ij : nat * nat)
  : SweepState :=
  match nth_error (sw_A st) (fst ij), nth_error (sw_B st) (snd ij) with
  | Some a, Some b =>
      let p := participate nc a b (sw_engine st) in
      {| sw_A := set_nth (fst ij) (nucleon_a p) (sw_A st);
         sw_B := set_nth (snd ij) (nucleon_b p) (sw_B st);
         sw_engine := engine_after p;
         sw_results := sw_results st ++ [new_collision p] |}
  | _, _ => st
  end.

(** One evaluation for every pair of the Cartesian product, in order. *)
Definition sweep_by_pairs (nc : NucleonCommon) (As Bs : list Nucleon) (e : Engine)
  : SweepState :=
  fold_left (check_by_position nc) (all_pairs (length As) (length Bs))
    {| sw_A := As; sw_B := Bs; sw_engine := e; sw_results := [] |}.

(** One pass: its record, and the collider and the engine after it. *)
Definition pass_by_pairs (c : Collider) (e : Engine) : @Trial T * Collider * Engine :=
  let '(u, e1) := canonical e in
  let b := impact_parameter (bmin_ c) (bmax_ c) u in
  let '(A, e2) := sample_nucleons (asymmetry_ c * b)%D (nucleusA_ c) e1 in
  let '(B, e3) := sample_nucleons ((asymmetry_ c - d_one) * b)%D (nucleusB_ c) e2 in
  let st := sweep_by_pairs (nucleon_common_ c) (nucleons A) (nucleons B) e3 in
  ({| trial_b := b;
      trial_sizeA := length (nucleons A);
      trial_sizeB := length (nucleons B);
      trial_checks :=
        combine (all_pairs (length (nucleons A)) (length (nucleons B)))
                (sw_results st);
      trial_collision := existsb (fun r => r) (sw_results st) |},
   set_nuclei (with_nucleons (sw_A st) A) (with_nucleons (sw_B st) B) c,
   sw_engine st).

(** [k] passes in a row, each from the collider and engine the one before
    left. *)
Fixpoint passes_by_pairs (k : nat) (c : Collider) (e : Engine)
  : list (@Trial T) * Collider * Engine :=
  match k with
  | O => ([], c, e)
  | S k' =>
      let '(t, c1, e1) := pass_by_pairs c e in
      let '(ts, c2, e2) := passes_by_pairs k' c1 e1 in
      (t :: ts, c2, e2)
  end.

(** Whether [participate] returns true for the first pair checked on the
    pass that starts from engine state [e]. *)
Definition first_pair_hit (c : Collider) (e : Engine) : bool :=
  let '(_, A, B, e3) := place_nuclei c e in
  match nucleons A, nucleons B with
  | a :: _, b :: _ => new_collision (participate (nucleon_common_ c) a b e3)
  | _, _ => false
  end.

(** Number of pairs swept on the pass that starts from engine state [e]. *)
Definition first_pass_pairs (c : Collider) (e : Engine) : nat :=
  let '(_, A, B, _) := place_nuclei c e in
  (length (nucleons A) * length (nucleons B))%nat.

(** The members that [sample_collision] never writes. *)
Definition same_settings (c c' : Collider) : Prop :=
  nucleon_common_ c' = nucleon_common_ c /\
  nevents_ c' = nevents_ c /\
  calc_ncoll_ c' = calc_ncoll_ c /\
  calc_toColl_ c' = calc_toColl_ c /\
  bmin_ c' = bmin_ c /\
  bmax_ c' = bmax_ c /\
  asymmetry_ c' = asymmetry_ c /\
  event_ c' = event_ c /\
  output_ c' = output_ c.

(** The run parameters, which neither [sample_collision] nor
    [run_events] writes. *)
Definition same_parameters (c c' : Collider) : Prop :=
  nucleon_common_ c' = nucleon_common_ c /\
  nevents_ c' = nevents_ c /\
  calc_ncoll_ c' = calc_ncoll_ c /\
  calc_toColl_ c' = calc_toColl_ c /\
  bmin_ c' = bmin_ c /\
  bmax_ c' = bmax_ c /\
  asymmetry_ c' = asymmetry_ c.

(** The output after it was called for each of the given events in turn,
    each with its number, its sampled tuple and its computed event. *)
Definition emit (out : Output) (events : list (Z * (T * Z * Z) * Event)) : Output :=
  fold_left (fun o x =>
               let '(n, (b, ncoll, nToCollide), ev) := x in
               Output_call o n b ncoll nToCollide ev)
            events out.

(** The collider after one event: the computed event and the output that
    was called with it are stored, the rest is as [sample_collision] left
    it. *)
Definition store_event (ev : Event) (out : Output) (c : Collider) : Collider :=
  {| nucleusA_ := nucleusA_ c;
     nucleusB_ := nucleusB_ c;
     nucleon_common_ := nucleon_common_ c;
     nevents_ := nevents_ c;
     calc_ncoll_ := calc_ncoll_ c;
     calc_toColl_ := calc_toColl_ c;
     bmin_ := bmin_ c;
     bmax_ := bmax_ c;
     asymmetry_ := asymmetry_ c;
     event_ := ev;
     output_ := out |}.

(** [events_from trials n c e records c' e']: starting with event number
    [n] from collider [c] and engine [e], the events of [records] were
    produced one after the other, leaving [c'] and [e'].  Each record holds
    the event's number, the tuple that [sample_collision] returned for it,
    and the event that [Event::compute] made of the nuclei that this
    [sample_collision] left; the next event starts from the collider that
    stores this event and the output called with it. *)
Inductive events_from (trials : nat)
  : Z -> Collider -> Engine -> list (Z * (T * Z * Z) * Event) -> Collider -> Engine
    -> Prop :=
| events_none (n : Z) (c : Collider) (e : Engine) :
    events_from trials n c e [] c e
| events_next (n : Z) (c : Collider) (e : Engine) (b : T) (ncoll nToCollide : Z)
    (c1 : Collider) (e1 : Engine) rest (c' : Collider) (e' : Engine) :
    sample_collision trials c e = Done ((b, ncoll, nToCollide), c1, e1) ->
    events_from trials (n + 1)
      (store_event
         (Event_compute (nucleusA_ c1) (nucleusB_ c1) (nucleon_common_ c1) (event_ c1))
         (Output_call (output_ c1) n b ncoll nToCollide
            (Event_compute (nucleusA_ c1) (nucleusB_ c1) (nucleon_common_ c1)
               (event_ c1)))
         c1)
      e1 rest c' e' ->
    events_from trials n c e
      ((n, (b, ncoll, nToCollide),
        Event_compute (nucleusA_ c1) (nucleusB_ c1) (nucleon_common_ c1) (event_ c1))
       :: rest)
      c' e'.

End Records.

(* ================================================================= *)
(** ** A small set of collaborators to run the model on *)

Module Toy.

(** A linear congruential engine; its state is the last value. *)
Definition lcg (e : Z) : Z := (e * 1103515245 + 12345) mod 2147483648.

Definition float_of_Z (z : Z) : float := PrimFloat.of_uint63 (Uint63.of_Z z).

(** A value [k/1024] with [0 <= k < 1024]. *)
Definition unit_float (e : Z) : float :=
  (float_of_Z ((e / 65536) mod 1024) / 1024)%float.

(** A nucleon: transverse position and participant flag. *)
Definition nucleon : Type := (float * bool)%type.

Record nucleus : Type := {
  nucleus_radius : float;
  nucleus_size : nat;
  nucleus_nucleons : list nucleon
}.

(** [size] nucleons spread over one radius around [offset]. *)
Fixpoint place (size : nat) (offset r : float) (e : Z) : list nucleon * Z :=
  match size with
  | O => ([], e)
  | S k =>
      let e1 := lcg e in
      let x := (offset + r * (unit_float e1 - 0.5))%float in
      let '(rest, e2) := place k offset r e1 in
      ((x, false) :: rest, e2)
  end.

(** Two nucleons meet when they are closer than [d]. *)
Definition meet (d : float) (A B : nucleon) (e : Z) : Participation nucleon Z :=
  let hit := (PrimFloat.abs (fst A - fst B) <? d)%float in
  {| new_collision := hit;
     nucleon_a := (fst A, snd A || hit);
     nucleon_b := (fst B, snd B || hit);
     engine_after := e |}.

#[export] Instance collaborators : Collaborators float := {|
  Engine := Z;
  Nucleon := nucleon;
  Nucleus := nucleus;
  NucleonCommon := float;
  Event := nat;
  Output := list (Z * float * Z * Z);
  canonical := fun e => let e1 := lcg e in (unit_float e1, e1);
  normal_distribution := fun mean std e =>
    let e1 := lcg e in
    ((mean + std * (4 * unit_float e1 - 2))%float, e1);
  engine_seed := fun seed => seed;
  Nucleus_create := fun species dmin a0 beta2 beta3 beta4 gamma =>
    if String.eqb species String.EmptyString then None
    else Some {| nucleus_radius := (a0 + beta2 * beta2 + gamma * gamma)%float;
                 nucleus_size := 2;
                 nucleus_nucleons := [] |};
  radius := nucleus_radius;
  sample_nucleons := fun offset N e =>
    let '(l, e1) := place (nucleus_size N) offset (nucleus_radius N) e in
    ({| nucleus_radius := nucleus_radius N;
        nucleus_size := nucleus_size N;
        nucleus_nucleons := l |}, e1);
  nucleons := nucleus_nucleons;
  with_nucleons := fun l N =>
    {| nucleus_radius := nucleus_radius N;
       nucleus_size := nucleus_size N;
       nucleus_nucleons := l |};
  NucleonCommon_new := fun _ => Some 1%float;
  max_impact := fun d => d;
  participate := meet;
  Event_new := fun _ => Some O;
  Event_compute := fun _ _ _ ev => S ev;
  Output_new := fun _ => Some [];
  Output_call := fun out n b ncoll nToCollide _ => out ++ [(n, b, ncoll, nToCollide)]
|}.

(** A configuration: two equal nuclei of radius [a0], impact parameters in
    [[bmin, bmax]], both counters switched on. *)
Definition config (bmin bmax : float) (nev seed : Z) : VarMap float := {|
  projectile := ["Pb"%string; "Pb"%string];
  nucleon_min_dist := 0%float;
  a0 := 1%float;
  y_mean := 0%float;
  y_std := 0%float;
  beta2_mean := 0%float;
  beta2_std := 0%float;
  beta3 := 0%float;
  beta4 := 0%float;
  number_events := nev;
  ncoll := true;
  toColl := true;
  b_min := bmin;
  b_max := bmax;
  random_seed := seed
|}.

(** A nucleus of radius [r] whose nucleons have not been sampled yet. *)
Definition ball (r : float) : nucleus :=
  {| nucleus_radius := r; nucleus_size := 2; nucleus_nucleons := [] |}.

(** A collider of two unit balls with interaction distance 1. *)
Definition collider (bmin bmax : float) (nev : Z) (calc_ncoll calc_toColl : bool)
  : @Collider float collaborators :=
  {| nucleusA_ := ball 1;
     nucleusB_ := ball 1;
     nucleon_common_ := 1%float;
     nevents_ := nev;
     calc_ncoll_ := calc_ncoll;
     calc_toColl_ := calc_toColl;
     bmin_ := bmin;
     bmax_ := bmax;
     asymmetry_ := 0.5%float;
     event_ := O;
     output_ := [] |}.

(** The configuration [config] with deformation parameters that fluctuate
    around zero. *)
Definition deformed_config (bmin bmax : float) (nev seed : Z) : VarMap float := {|
  projectile := ["Pb"%string; "Pb"%string];
  nucleon_min_dist := 0%float;
  a0 := 1%float;
  y_mean := 0%float;
  y_std := 1%float;
  beta2_mean := 0%float;
  beta2_std := 1%float;
  beta3 := 0%float;
  beta4 := 0%float;
  number_events := nev;
  ncoll := true;
  toColl := true;
  b_min := bmin;
  b_max := bmax;
  random_seed := seed
|}.

(** The configuration [config 0 3 1 42] with the given projectiles. *)
Definition config_of (species : list string) : VarMap float := {|
  projectile := species;
  nucleon_min_dist := 0%float;
  a0 := 1%float;
  y_mean := 0%float;
  y_std := 0%float;
  beta2_mean := 0%float;
  beta2_std := 0%float;
  beta3 := 0%float;
  beta4 := 0%float;
  number_events := 1;
  ncoll := true;
  toColl := true;
  b_min := 0%float;
  b_max := 3%float;
  random_seed := 42
|}.

(** A whole run: construct the collider, run the events, and keep what
    [sample_collision] returned for each event. *)
Definition run (var_map : VarMap float) (e0 : Z) (fuel : nat)
  : outcome (list (float * Z * Z)) :=
  '(c, e) <- Collider_new var_map e0 ;;
  '(sampled, _, _) <- run_events fuel fuel c e ;;
  Done sampled.

(** The tuples of a whole run that returned. *)
Definition events (var_map : VarMap float) (e0 : Z) (fuel : nat)
  : option (list (float * Z * Z)) :=
  match run var_map e0 fuel with
  | Done sampled => Some sampled
  | _ => None
  end.

(** What the constructor stored for [bmin_], [bmax_] and [nevents_]. *)
Definition constructed (var_map : VarMap float) (e0 : Z) : option (float * float * Z) :=
  match Collider_new var_map e0 with
  | Done (c, _) => Some (bmin_ c, bmax_ c, nevents_ c)
  | _ => None
  end.

(** The impact parameter that [sample_collision] returned. *)
Definition sampled_b (fuel : nat) (c : @Collider float collaborators) (e : Z)
  : option float :=
  match sample_collision fuel c e with
  | Done (b, _, _, _, _) => Some b
  | _ => None
  end.

End Toy.

(** Collaborators whose nucleons never interact: every nucleus is sampled
    with three nucleons and [participate] is always false. *)
Module Silent.

#[export] Instance collaborators : Collaborators float := {|
  Engine := nat;
  Nucleon := unit;
  Nucleus := nat;
  NucleonCommon := unit;
  Event := unit;
  Output := unit;
  canonical := fun e => (0.5%float, S e);
  normal_distribution := fun mean std e => (mean, S e);
  engine_seed := fun _ => O;
  Nucleus_create := fun _ _ _ _ _ _ _ => Some O;
  radius := fun _ => 1%float;
  sample_nucleons := fun _ _ e => (3%nat, e);
  nucleons := fun N => repeat tt N;
  with_nucleons := fun _ N => N;
  NucleonCommon_new := fun _ => Some tt;
  max_impact := fun _ => 1%float;
  participate := fun _ A B e =>
    {| new_collision := false; nucleon_a := A; nucleon_b := B; engine_after := e |};
  Event_new := fun _ => Some tt;
  Event_compute := fun _ _ _ ev => ev;
  Output_new := fun _ => Some tt;
  Output_call := fun out _ _ _ _ _ => out
|}.

Definition collider : @Collider float collaborators :=
  {| nucleusA_ := O;
     nucleusB_ := O;
     nucleon_common_ := tt;
     nevents_ := 1;
     calc_ncoll_ := true;
     calc_toColl_ := true;
     bmin_ := 0%float;
     bmax_ := 3%float;
     asymmetry_ := 0.5%float;
     event_ := tt;
     output_ := tt |}.

End Silent.

(* ================================================================= *)
(** ** Order of binary64 values *)

Lemma SFcompare_swap (x y : spec_float) :
  SFcompare y x = option_map CompOpp (SFcompare x y).
Proof.
  destruct x as [sx|sx| |sx mx ex], y as [sy|sy| |sy my ey]; simpl;
    try reflexivity;
    try (destruct sx; reflexivity);
    try (destruct sy; reflexivity);
    try (destruct sx, sy; reflexivity).
  destruct sx, sy; simpl; try reflexivity;
    rewrite (Z.compare_antisym ex ey);
    destruct (ex ?= ey)%Z; simpl; try reflexivity;
    pose proof (Pos.compare_cont_antisym mx my Eq) as Hm; simpl in Hm;
    rewrite <- Hm; reflexivity.
Qed.

(** [x <= y] excludes [y < x], NaN included. *)
Lemma leb_not_ltb (x y : float) :
  (x <=? y)%float = true -> (y <? x)%float = false.
Proof.
  rewrite FloatAxioms.leb_spec, FloatAxioms.ltb_spec. unfold SFleb, SFltb.
  rewrite (SFcompare_swap (Prim2SF x) (Prim2SF y)).
  destruct (SFcompare (Prim2SF x) (Prim2SF y)) as [[ | | ]|]; simpl; congruence.
Qed.

(* ================================================================= *)
(** ** Run parameters derived by the constructor *)

Section RunParameters.

Context {X : Collaborators float}.

(** C3. [determine_bmax] returns the configured [b-max] unchanged when it
    is non-negative, and [radius(A) + radius(B) + max_impact] when it is
    negative; with radii 1.2 and 1.2 and a maximum interaction distance of
    0.6 the derived value is exactly 3.0. *)
Theorem determine_bmax_spec (var_map : VarMap float) (A B : Nucleus) (nc : NucleonCommon) :
  ((0 <=? b_max var_map)%float = true ->
     determine_bmax var_map A B nc = b_max var_map) /\
  ((b_max var_map <? 0)%float = true ->
     determine_bmax var_map A B nc = (radius A + radius B + max_impact nc)%float) /\
  ((b_max var_map <? 0)%float = true ->
     radius A = 1.2%float -> radius B = 1.2%float -> max_impact nc = 0.6%float ->
     determine_bmax var_map A B nc = 3.0%float).
Proof.
  unfold determine_bmax; simpl.
  split; [|split].
  - intros Hnn. rewrite (leb_not_ltb _ _ Hnn). reflexivity.
  - intros Hneg. rewrite Hneg. reflexivity.
  - intros Hneg HA HB Hnc. rewrite Hneg, HA, HB, Hnc. reflexivity.
Qed.

(** C4. [determine_asym] returns [rA / (rA + rB)] when the summed radius is
    at least the threshold 0.1 and 0.5 when it is below; radii 0 and 0 give
    exactly 0.5, radii 2 and 1 give 2/3. *)
Theorem determine_asym_spec (A B : Nucleus) :
  ((0.1 <=? radius A + radius B)%float = true ->
     determine_asym A B = (radius A / (radius A + radius B))%float) /\
  ((radius A + radius B <? 0.1)%float = true ->
     determine_asym A B = 0.5%float) /\
  (radius A = 0%float -> radius B = 0%float ->
     determine_asym A B = 0.5%float) /\
  (radius A = 2%float -> radius B = 1%float ->
     determine_asym A B = (2 / 3)%float).
Proof.
  unfold determine_asym; simpl.
  repeat split.
  - intros Hge. rewrite (leb_not_ltb _ _ Hge). reflexivity.
  - intros Hlt. rewrite Hlt. reflexivity.
  - intros HA HB. rewrite HA, HB. reflexivity.
  - intros HA HB. rewrite HA, HB. reflexivity.
Qed.

End RunParameters.

Lemma determine_bmax_spec_witness :
  determine_bmax (X := Toy.collaborators) (Toy.config 0 5 1 42) (Toy.ball 1.2) (Toy.ball 1.2) 0.6%float = 5%float /\
  determine_bmax (X := Toy.collaborators) (Toy.config 0 (-1) 1 42) (Toy.ball 2) (Toy.ball 1) 0.5%float = 3.5%float /\
  determine_bmax (X := Toy.collaborators) (Toy.config 0 (-1) 1 42) (Toy.ball 1.2) (Toy.ball 1.2) 0.6%float = 3.0%float.
Proof.
  split; [|split].
  - exact (proj1 (determine_bmax_spec (X := Toy.collaborators) (Toy.config 0 5 1 42)
                    (Toy.ball 1.2) (Toy.ball 1.2) 0.6%float) eq_refl).
  - exact (proj1 (proj2 (determine_bmax_spec (X := Toy.collaborators) (Toy.config 0 (-1) 1 42)
                           (Toy.ball 2) (Toy.ball 1) 0.5%float)) eq_refl).
  - exact (proj2 (proj2 (determine_bmax_spec (X := Toy.collaborators) (Toy.config 0 (-1) 1 42)
                           (Toy.ball 1.2) (Toy.ball 1.2) 0.6%float))
             eq_refl eq_refl eq_refl eq_refl).
Defined.

Lemma determine_asym_spec_witness :
  determine_asym (X := Toy.collaborators) (Toy.ball 3) (Toy.ball 1) = 0.75%float /\
  determine_asym (X := Toy.collaborators) (Toy.ball 0.03) (Toy.ball 0.03) = 0.5%float /\
  determine_asym (X := Toy.collaborators) (Toy.ball 0) (Toy.ball 0) = 0.5%float /\
  determine_asym (X := Toy.collaborators) (Toy.ball 2) (Toy.ball 1) = (2 / 3)%float.
Proof.
  pose proof (determine_asym_spec (X := Toy.collaborators) (Toy.ball 3) (Toy.ball 1)) as H31.
  pose proof (determine_asym_spec (X := Toy.collaborators) (Toy.ball 0.03) (Toy.ball 0.03)) as Hsmall.
  pose proof (determine_asym_spec (X := Toy.collaborators) (Toy.ball 0) (Toy.ball 0)) as H00.
  pose proof (determine_asym_spec (X := Toy.collaborators) (Toy.ball 2) (Toy.ball 1)) as H21.
  split; [|split; [|split]].
  - exact (proj1 H31 eq_refl).
  - exact (proj1 (proj2 Hsmall) eq_refl).
  - exact (proj1 (proj2 (proj2 H00)) eq_refl eq_refl).
  - exact (proj2 (proj2 (proj2 H21)) eq_refl eq_refl).
Defined.

(* ================================================================= *)
(** ** The pair loops *)

Lemma obind_Done {A B : Type} (m : outcome A) (k : A -> outcome B) (r : B) :
  obind m k = Done r -> exists a, m = Done a /\ k a = Done r.
Proof.
  destruct m; simpl; try discriminate. intros H. exists a. split; [reflexivity | exact H].
Qed.

Lemma returns_Done {A : Type} (m : outcome A) :
  returns m = true -> exists a, m = Done a.
Proof.
  destruct m; simpl; try discriminate. intros _. exists a. reflexivity.
Qed.

Lemma int_incr_Done (x y : Z) :
  int_incr x = Done y -> y = x + 1 /\ x < INT_MAX.
Proof.
  unfold int_incr. destruct (x <? INT_MAX) eqn:Hlt; [|discriminate].
  intros H. injection H as <-. apply Z.ltb_lt in Hlt. split; [reflexivity | exact Hlt].
Qed.

Lemma int_incr_below (x : Z) :
  x < INT_MAX -> int_incr x = Done (x + 1).
Proof.
  intros H. unfold int_incr. apply Z.ltb_lt in H. rewrite H. reflexivity.
Qed.

Lemma triple_eq {A B C : Type} (a a' : A) (b b' : B) (c c' : C) :
  a = a' -> b = b' -> c = c' -> (a, b, c) = (a', b', c').
Proof. intros -> -> ->. reflexivity. Qed.

Ltac bind_inv H x Hx :=
  apply obind_Done in H; destruct H as (x & Hx & H).

Section PairLoops.

Context {T : Type} {D : Double T} {X : Collaborators T}.

Lemma hits_cons (i j : nat) (r : bool) (l : list (nat * nat * bool)) :
  hits ((i, j, r) :: l) = (if r then 1 else 0) + hits l.
Proof.
  unfold hits. cbn [filter snd]. destruct r; cbn [length]; lia.
Qed.

Lemma hits_app (l l' : list (nat * nat * bool)) :
  hits (l ++ l') = hits l + hits l'.
Proof.
  unfold hits. rewrite filter_app, length_app. lia.
Qed.

Lemma hits_nonneg (l : list (nat * nat * bool)) : 0 <= hits l.
Proof. unfold hits. lia. Qed.

Lemma hits_le_length (l : list (nat * nat * bool)) : hits l <= Z.of_nat (length l).
Proof.
  unfold hits. pose proof (filter_length_le snd l). lia.
Qed.

Lemma any_hit_hits (l : list (nat * nat * bool)) :
  any_hit l = true -> 1 <= hits l.
Proof.
  induction l as [|[[i j] r] l IH]; [discriminate|].
  unfold any_hit in *. cbn [existsb snd]. rewrite hits_cons.
  pose proof (hits_nonneg l) as Hl.
  destruct r; cbn [orb]; intros Hany; [lia | specialize (IH Hany); lia].
Qed.

Lemma check_pair_Done nc f i j A B s A' B' s' :
  check_pair nc f i j A B s = Done (A', B', s') ->
  exists p, p = participate nc A B (ps_engine s) /\
  A' = nucleon_a p /\ B' = nucleon_b p /\
  ps_checks s' = ps_checks s ++ [(i, j, new_collision p)] /\
  ps_collision s' = new_collision p || ps_collision s /\
  ps_ncoll s' = ps_ncoll s + (if f then hits [(i, j, new_collision p)] else 0) /\
  ps_engine s' = engine_after p.
Proof.
  unfold check_pair. intros H.
  exists (participate nc A B (ps_engine s)).
  set (p := participate nc A B (ps_engine s)) in *.
  bind_inv H n Hn. injection H as <- <- <-. cbn [ps_checks ps_collision ps_ncoll ps_engine].
  repeat split; try reflexivity.
  rewrite hits_cons. change (hits []) with 0.
  destruct (new_collision p), f; cbn [andb] in Hn.
  - apply int_incr_Done in Hn. lia.
  - injection Hn as <-. lia.
  - injection Hn as <-. lia.
  - injection Hn as <-. lia.
Qed.

Lemma for_each_B_Done nc f i Bs :
  forall j A s A' Bs' s',
  for_each_B nc f i j A Bs s = Done (A', Bs', s') ->
  exists new,
    ps_checks s' = ps_checks s ++ new /\
    map fst new = map (pair i) (seq j (length Bs)) /\
    ps_collision s' = any_hit new || ps_collision s /\
    ps_ncoll s' = ps_ncoll s + (if f then hits new else 0) /\
    length Bs' = length Bs.
Proof.
  induction Bs as [|B Bs IH]; simpl; intros j A s A' Bs' s' H.
  - injection H as <- <- <-. exists []. rewrite app_nil_r.
    repeat split; try reflexivity. destruct f; unfold hits; simpl; lia.
  - bind_inv H x Hx. destruct x as [[A1 B1] s1].
    bind_inv H y Hy. destruct y as [[A2 Bs2] s2].
    injection H as <- <- <-.
    apply check_pair_Done in Hx. destruct Hx as (p & _ & _ & _ & Hc & Hcol & Hn & _).
    apply IH in Hy. destruct Hy as (new & Hc' & Hmap & Hcol' & Hn' & Hlen).
    set (r := new_collision p) in *.
    exists ((i, j, r) :: new).
    repeat split.
    + rewrite Hc', Hc, <- app_assoc. reflexivity.
    + simpl. rewrite Hmap. reflexivity.
    + rewrite Hcol', Hcol. simpl. destruct (any_hit new), r; reflexivity.
    + rewrite Hn', Hn. destruct f; [|lia].
      rewrite (hits_cons i j r new), (hits_cons i j r []). change (hits []) with 0. lia.
    + simpl. rewrite Hlen. reflexivity.
Qed.

End PairLoops.

Section Sweep.

Context {T : Type} {D : Double T} {X : Collaborators T}.

Lemma any_hit_app (l l' : list (nat * nat * bool)) :
  any_hit (l ++ l') = any_hit l || any_hit l'.
Proof. unfold any_hit. apply existsb_app. Qed.

Lemma checks_length (new : list (nat * nat * bool)) (pairs : list (nat * nat)) :
  map fst new = pairs -> length new = length pairs.
Proof. intros <-. symmetry. apply length_map. Qed.

Lemma for_each_A_Done nc f As :
  forall i Bs s As' Bs' s',
  for_each_A nc f i As Bs s = Done (As', Bs', s') ->
  exists new,
    ps_checks s' = ps_checks s ++ new /\
    map fst new = list_prod (seq i (length As)) (seq 0 (length Bs)) /\
    ps_collision s' = any_hit new || ps_collision s /\
    ps_ncoll s' = ps_ncoll s + (if f then hits new else 0) /\
    length As' = length As /\ length Bs' = length Bs.
Proof.
  induction As as [|A As IH]; cbn [for_each_A]; intros i Bs s As' Bs' s' H.
  - injection H as <- <- <-. exists []. rewrite app_nil_r.
    repeat split; try reflexivity. destruct f; change (hits []) with 0; lia.
  - bind_inv H x Hx. destruct x as [[A1 Bs1] s1].
    bind_inv H y Hy. destruct y as [[As2 Bs2] s2].
    injection H as <- <- <-.
    apply for_each_B_Done in Hx. destruct Hx as (new1 & Hc1 & Hm1 & Hcol1 & Hn1 & Hlen1).
    apply IH in Hy. destruct Hy as (new2 & Hc2 & Hm2 & Hcol2 & Hn2 & HlenA & HlenB).
    exists (new1 ++ new2).
    repeat split.
    + rewrite Hc2, Hc1, <- app_assoc. reflexivity.
    + rewrite map_app, Hm1, Hm2, Hlen1. reflexivity.
    + rewrite Hcol2, Hcol1, any_hit_app.
      destruct (any_hit new1), (any_hit new2); reflexivity.
    + rewrite Hn2, Hn1. destruct f; [rewrite hits_app|]; lia.
    + cbn [length]. rewrite HlenA. reflexivity.
    + rewrite HlenB, Hlen1. reflexivity.
Qed.

(** With counting switched on, the loops never increment [INT_MAX] when
    the product fits; with counting off they never increment at all. *)
Lemma check_pair_total nc f i j A B s :
  (f = true -> ps_ncoll s < INT_MAX) ->
  exists A' B' s', check_pair nc f i j A B s = Done (A', B', s').
Proof.
  intros Hlt. unfold check_pair.
  destruct (new_collision (participate nc A B (ps_engine s))), f; cbn [andb].
  - rewrite (int_incr_below _ (Hlt eq_refl)). cbn [obind]. eauto.
  - cbn [obind]. eauto.
  - cbn [obind]. eauto.
  - cbn [obind]. eauto.
Qed.

Lemma for_each_B_total nc f i Bs :
  forall j A s,
  (f = true -> ps_ncoll s + Z.of_nat (length Bs) <= INT_MAX) ->
  exists A' Bs' s', for_each_B nc f i j A Bs s = Done (A', Bs', s').
Proof.
  induction Bs as [|B Bs IH]; cbn [for_each_B length]; intros j A s Hfit.
  - eauto.
  - destruct (check_pair_total nc f i j A B s) as (A1 & B1 & s1 & H1);
      [intros Hf; specialize (Hfit Hf); lia|].
    rewrite H1. cbn [obind].
    apply check_pair_Done in H1. destruct H1 as (p & _ & _ & _ & _ & _ & Hn & _).
    assert (Hone : ps_ncoll s1 <= ps_ncoll s + 1).
    { rewrite Hn. destruct f; [|lia]. rewrite hits_cons. change (hits []) with 0.
      destruct (new_collision p); lia. }
    destruct (IH (S j) A1 s1) as (A2 & Bs2 & s2 & H2);
      [intros Hf; specialize (Hfit Hf); lia|].
    rewrite H2. cbn [obind]. eauto.
Qed.

Lemma for_each_A_total nc f As :
  forall i Bs s,
  (f = true -> ps_ncoll s + Z.of_nat (length As * length Bs) <= INT_MAX) ->
  exists As' Bs' s', for_each_A nc f i As Bs s = Done (As', Bs', s').
Proof.
  induction As as [|A As IH]; cbn [for_each_A length]; intros i Bs s Hfit.
  - eauto.
  - cbn [Nat.mul] in Hfit.
    destruct (for_each_B_total nc f i Bs 0%nat A s) as (A1 & Bs1 & s1 & H1);
      [intros Hf; specialize (Hfit Hf); lia|].
    rewrite H1. cbn [obind].
    apply for_each_B_Done in H1. destruct H1 as (new & _ & Hm & _ & Hn & Hlen).
    apply checks_length in Hm. rewrite length_map, length_seq in Hm.
    pose proof (hits_le_length new) as Hle.
    assert (Hrow : ps_ncoll s1 <= ps_ncoll s + Z.of_nat (length Bs)).
    { rewrite Hn. destruct f; lia. }
    destruct (IH (S i) Bs1 s1) as (As2 & Bs2 & s2 & H2);
      [rewrite Hlen; intros Hf; specialize (Hfit Hf); lia|].
    rewrite H2. cbn [obind]. eauto.
Qed.

(** A hit on the first pair is never forgotten by the rest of the sweep. *)
Lemma for_each_A_first_pair nc f i A As B Bs s As' Bs' s' :
  for_each_A nc f i (A :: As) (B :: Bs) s = Done (As', Bs', s') ->
  new_collision (participate nc A B (ps_engine s)) = true ->
  ps_collision s' = true.
Proof.
  cbn [for_each_A for_each_B]. intros H Hhit.
  bind_inv H x Hx. destruct x as [[A1 Bs1] s1].
  bind_inv H y Hy. destruct y as [[As2 Bs2] s2].
  injection H as <- <- <-.
  bind_inv Hx x Hx0. destruct x as [[A0 B0] s0].
  bind_inv Hx z Hz. destruct z as [[A3 Bs3] s3].
  injection Hx as <- <- <-.
  apply check_pair_Done in Hx0. destruct Hx0 as (p & -> & _ & _ & _ & Hcol0 & _).
  apply for_each_B_Done in Hz. destruct Hz as (new1 & _ & _ & Hcol1 & _).
  apply for_each_A_Done in Hy. destruct Hy as (new2 & _ & _ & Hcol2 & _).
  rewrite Hcol2, Hcol1, Hcol0, Hhit. cbn [orb]. rewrite !orb_true_r. reflexivity.
Qed.

End Sweep.

(* ================================================================= *)
(** ** The rejection loop *)

Section RejectionLoop.

Context {T : Type} {D : Double T} {X : Collaborators T}.

Lemma place_nuclei_b (c : Collider) (e : Engine) :
  fst (fst (fst (place_nuclei c e))) =
  impact_parameter (bmin_ c) (bmax_ c) (fst (canonical e)).
Proof.
  unfold place_nuclei.
  destruct (canonical e) as [u e1].
  destruct (sample_nucleons _ (nucleusA_ c) e1) as [A e2].
  destruct (sample_nucleons _ (nucleusB_ c) e2) as [B e3].
  reflexivity.
Qed.

Lemma same_settings_trans (c c1 c2 : Collider) :
  same_settings c c1 -> same_settings c1 c2 -> same_settings c c2.
Proof.
  unfold same_settings.
  intros (H1 & H2 & H3 & H4 & H5 & H6 & H7 & H8 & H9)
         (K1 & K2 & K3 & K4 & K5 & K6 & K7 & K8 & K9).
  repeat split; congruence.
Qed.

Lemma full_sweep_settings (c c1 : Collider) (t : Trial) :
  same_settings c c1 -> full_sweep c1 t -> full_sweep c t.
Proof.
  unfold same_settings, full_sweep.
  intros (_ & _ & _ & _ & Hmin & Hmax & _) (Hp & Hc & e & Hb).
  rewrite Hmin, Hmax in Hb. eauto.
Qed.

(** What one pass of the do-while body leaves behind. *)
Lemma trial_Done (c : Collider) (e : Engine) (l : Locals) t l1 c1 e1 :
  trial c e l = Done (t, l1, c1, e1) ->
  trial_b t = fst (fst (fst (place_nuclei c e))) /\
  trial_sizeA t = length (nucleons (snd (fst (fst (place_nuclei c e))))) /\
  trial_sizeB t = length (nucleons (snd (fst (place_nuclei c e)))) /\
  map fst (trial_checks t) = all_pairs (trial_sizeA t) (trial_sizeB t) /\
  trial_collision t = any_hit (trial_checks t) || l_collision l /\
  l_collision l1 = trial_collision t /\
  l_ncoll l1 = l_ncoll l + (if calc_ncoll_ c then hits (trial_checks t) else 0) /\
  l_nToCollide l1 = l_nToCollide l + (if calc_toColl_ c then 1 else 0) /\
  same_settings c c1.
Proof.
  unfold trial. destruct (place_nuclei c e) as [[[b A] B] e3]. cbn [fst snd].
  intros H. bind_inv H x Hx. destruct x as [[As Bs] s].
  bind_inv H n Hn. injection H as <- <- <- <-.
  cbn [trial_b trial_sizeA trial_sizeB trial_checks trial_collision
       l_ncoll l_collision l_nToCollide].
  apply for_each_A_Done in Hx.
  cbn [ps_checks ps_collision ps_ncoll] in Hx.
  destruct Hx as (new & Hc & Hm & Hcol & Hnc & _ & _).
  cbn [app] in Hc. subst new.
  repeat split; try assumption; try reflexivity.
  destruct (calc_toColl_ c).
  - apply int_incr_Done in Hn. lia.
  - injection Hn as <-. lia.
Qed.

Lemma total_hits_app (log log' : list (@Trial T)) :
  total_hits (log ++ log') = total_hits log + total_hits log'.
Proof.
  unfold total_hits. induction log as [|t log IH]; cbn [app fold_right]; lia.
Qed.

Lemma total_hits_nonneg (log : list (@Trial T)) : 0 <= total_hits log.
Proof.
  unfold total_hits. induction log as [|t log IH]; cbn [fold_right]; [lia|].
  pose proof (hits_nonneg (trial_checks t)). lia.
Qed.

(** The passes of a returning loop: rejected ones without a hit, then the
    accepted one; the counters are sums over all of them. *)
Lemma do_while_Done (fuel : nat) :
  forall (c : Collider) (e : Engine) (l : Locals) (log : list Trial) r log' c' e',
  l_collision l = false ->
  do_while fuel c e l log = Done (r, log', c', e') ->
  exists rejected accepted,
    log' = log ++ rejected ++ [accepted] /\
    Forall (full_sweep c) (rejected ++ [accepted]) /\
    Forall (fun t => trial_collision t = false) rejected /\
    trial_collision accepted = true /\
    r = (trial_b accepted,
         l_ncoll l + (if calc_ncoll_ c
                      then total_hits (rejected ++ [accepted]) else 0),
         l_nToCollide l + (if calc_toColl_ c
                           then Z.of_nat (length (rejected ++ [accepted])) else 0)) /\
    same_settings c c'.
Proof.
  induction fuel as [|fuel IH]; cbn [do_while]; intros c e l log r log' c' e' Hl H;
    [discriminate|].
  bind_inv H x Hx. destruct x as [[[t l1] c1] e1].
  pose proof (trial_Done _ _ _ _ _ _ _ Hx)
    as (Hb & _ & _ & Hpairs & Hcol & Hl1 & Hn & Ht & Hsame).
  rewrite Hl, orb_false_r in Hcol.
  assert (Hfull : full_sweep c t).
  { unfold full_sweep. repeat split; try assumption.
    exists e. rewrite Hb. apply place_nuclei_b. }
  destruct Hsame as (S1 & S2 & S3 & S4 & S5 & S6 & S7 & S8 & S9).
  destruct (l_collision l1) eqn:Hacc; cbn [negb] in H.
  - injection H as <- <- <- <-.
    exists [], t. cbn [app length total_hits fold_right].
    repeat split; auto; try congruence.
    rewrite Hn, Ht.
    apply triple_eq; [reflexivity | destruct (calc_ncoll_ c); lia
                     | destruct (calc_toColl_ c); lia].
  - apply IH in H; [|exact Hacc].
    destruct H as (rejected & accepted & Hlog & Hall & Hrej & Hok & Hr & Hs).
    exists (t :: rejected), accepted.
    split; [|split; [|split; [|split; [|split]]]].
    + rewrite Hlog, <- app_assoc. reflexivity.
    + cbn [app]. constructor; [exact Hfull|].
      eapply Forall_impl; [|exact Hall].
      intros t'. apply full_sweep_settings. unfold same_settings. repeat split; assumption.
    + constructor; [congruence | exact Hrej].
    + exact Hok.
    + rewrite Hr, Hn, Ht, S3, S4. cbn [app length].
      change (total_hits (t :: rejected ++ [accepted]))
        with (hits (trial_checks t) + total_hits (rejected ++ [accepted])).
      apply triple_eq; [reflexivity | destruct (calc_ncoll_ c); lia
                       | destruct (calc_toColl_ c); lia].
    + eapply same_settings_trans; [|exact Hs].
      unfold same_settings. repeat split; assumption.
Qed.

(** The bound of the model does not show in the result: a loop that
    returned within [fuel] passes returns the same with any larger bound. *)
Lemma do_while_more_fuel (fuel : nat) :
  forall (fuel' : nat) (c : Collider) (e : Engine) (l : Locals) (log : list Trial) r,
  (fuel <= fuel')%nat ->
  do_while fuel c e l log = Done r ->
  do_while fuel' c e l log = Done r.
Proof.
  induction fuel as [|fuel IH]; intros fuel' c e l log r Hle H; [discriminate|].
  destruct fuel' as [|fuel']; [lia|].
  cbn [do_while] in *.
  destruct (trial c e l) as [[[[t l1] c1] e1]| | |]; cbn [obind] in *;
    try discriminate.
  destruct (negb (l_collision l1)); [|exact H].
  apply IH; [lia | exact H].
Qed.

End RejectionLoop.

(* ================================================================= *)
(** ** The loops against the sweep read pair by pair *)

Section PairByPair.

Context {T : Type} {D : Double T} {X : Collaborators T}.

Lemma nth_error_middle {A : Type} (pre : list A) (x : A) (rest : list A) (i : nat) :
  length pre = i -> nth_error (pre ++ x :: rest) i = Some x.
Proof.
  intros <-. induction pre as [|y pre IH]; cbn [app length nth_error];
    [reflexivity | exact IH].
Qed.

Lemma set_nth_middle {A : Type} (pre : list A) (x y : A) (rest : list A) (i : nat) :
  length pre = i -> set_nth i y (pre ++ x :: rest) = pre ++ y :: rest.
Proof.
  intros <-. induction pre as [|z pre IH]; cbn [app length set_nth];
    [reflexivity | rewrite IH; reflexivity].
Qed.

Lemma combine_fst_snd {A B : Type} (l : list (A * B)) :
  combine (map fst l) (map snd l) = l.
Proof.
  induction l as [|[a b] l IH]; cbn [map combine fst snd];
    [reflexivity | rewrite IH; reflexivity].
Qed.

Lemma any_hit_results (l : list (nat * nat * bool)) :
  any_hit l = existsb (fun r => r) (map snd l).
Proof.
  unfold any_hit. induction l as [|x l IH]; cbn [map existsb];
    [reflexivity | rewrite IH; reflexivity].
Qed.

(** The inner loop from position [j] on is the fold of the evaluation by
    position over the pairs [(i, j)], [(i, j + 1)], ... *)
Lemma for_each_B_by_pairs nc f i Bs :
  forall j A s A' Bs' s' Apre Arest Bpre rs,
  for_each_B nc f i j A Bs s = Done (A', Bs', s') ->
  length Apre = i -> length Bpre = j ->
  exists new,
    ps_checks s' = ps_checks s ++ new /\
    fold_left (check_by_position nc) (map (pair i) (seq j (length Bs)))
      {| sw_A := Apre ++ A :: Arest; sw_B := Bpre ++ Bs;
         sw_engine := ps_engine s; sw_results := rs |} =
    {| sw_A := Apre ++ A' :: Arest; sw_B := Bpre ++ Bs';
       sw_engine := ps_engine s'; sw_results := rs ++ map snd new |}.
Proof.
  induction Bs as [|B Bs IH]; cbn [for_each_B length seq map fold_left];
    intros j A s A' Bs' s' Apre Arest Bpre rs H HA HB.
  - injection H as <- <- <-. exists []. cbn [map]. rewrite !app_nil_r.
    split; reflexivity.
  - bind_inv H x Hx. destruct x as [[A1 B1] s1].
    bind_inv H y Hy. destruct y as [[A2 Bs2] s2].
    injection H as <- <- <-.
    apply check_pair_Done in Hx.
    destruct Hx as (p & Hp & -> & -> & Hc & _ & _ & He).
    destruct (IH (S j) _ _ _ _ _ Apre Arest (Bpre ++ [nucleon_b p])
                 (rs ++ [new_collision p]) Hy HA) as (new & Hc' & Hfold).
    { rewrite length_app. cbn [length]. lia. }
    exists ((i, j, new_collision p) :: new). split.
    + rewrite Hc', Hc, <- app_assoc. reflexivity.
    + unfold check_by_position at 2.
      cbn [sw_A sw_B sw_engine sw_results fst snd].
      rewrite (nth_error_middle Apre A Arest i HA),
              (nth_error_middle Bpre B Bs j HB).
      rewrite (set_nth_middle Apre A _ Arest i HA),
              (set_nth_middle Bpre B _ Bs j HB).
      cbv zeta. rewrite <- Hp, <- He.
      rewrite <- !app_assoc in Hfold. cbn [app] in Hfold.
      rewrite Hfold. cbn [map snd]. reflexivity.
Qed.

(** The nested loops from row [i] on are the fold of the evaluation by
    position over the rest of the Cartesian product. *)
Lemma for_each_A_by_pairs nc f As :
  forall i Bs s As' Bs' s' Apre rs,
  for_each_A nc f i As Bs s = Done (As', Bs', s') ->
  length Apre = i ->
  exists new,
    ps_checks s' = ps_checks s ++ new /\
    fold_left (check_by_position nc)
      (list_prod (seq i (length As)) (seq 0 (length Bs)))
      {| sw_A := Apre ++ As; sw_B := Bs;
         sw_engine := ps_engine s; sw_results := rs |} =
    {| sw_A := Apre ++ As'; sw_B := Bs';
       sw_engine := ps_engine s'; sw_results := rs ++ map snd new |}.
Proof.
  induction As as [|A As IH]; cbn [for_each_A length seq list_prod];
    intros i Bs s As' Bs' s' Apre rs H HA.
  - injection H as <- <- <-. exists []. cbn [map fold_left]. rewrite !app_nil_r.
    split; reflexivity.
  - bind_inv H x Hx. destruct x as [[A1 Bs1] s1].
    bind_inv H y Hy. destruct y as [[As2 Bs2] s2].
    injection H as <- <- <-.
    pose proof (for_each_B_Done _ _ _ _ _ _ _ _ _ _ Hx) as (_ & _ & _ & _ & _ & Hlen).
    destruct (for_each_B_by_pairs _ _ _ _ _ _ _ _ _ _ Apre As [] rs Hx HA eq_refl)
      as (new1 & Hc1 & Hf1).
    destruct (IH (S i) _ _ _ _ _ (Apre ++ [A1]) (rs ++ map snd new1) Hy)
      as (new2 & Hc2 & Hf2).
    { rewrite length_app. cbn [length]. lia. }
    exists (new1 ++ new2). split.
    + rewrite Hc2, Hc1, <- app_assoc. reflexivity.
    + rewrite fold_left_app. cbn [app] in Hf1.
      change (map (fun y : nat => (i, y)) (seq 0 (length Bs)))
        with (map (pair i) (seq 0 (length Bs))).
      rewrite Hf1.
      rewrite <- !app_assoc in Hf2. cbn [app] in Hf2.
      rewrite <- Hlen, Hf2, map_app. reflexivity.
Qed.

(** One pass of the do-while body that starts with [collision] unset is
    one pass by pairs. *)
Lemma trial_by_pairs (c : Collider) (e : Engine) (l : Locals) t l1 c1 e1 :
  trial c e l = Done (t, l1, c1, e1) ->
  l_collision l = false ->
  pass_by_pairs c e = (t, c1, e1).
Proof.
  unfold trial, place_nuclei, pass_by_pairs, sweep_by_pairs, all_pairs.
  destruct (canonical e) as [u e0].
  destruct (sample_nucleons _ (nucleusA_ c) e0) as [A e2].
  destruct (sample_nucleons _ (nucleusB_ c) e2) as [B e3].
  intros H Hl. bind_inv H x Hx. destruct x as [[As Bs] s].
  bind_inv H n Hn. injection H as <- <- <- <-.
  pose proof (for_each_A_Done _ _ _ _ _ _ _ _ _ Hx) as (new & Hc & Hm & Hcol & _).
  destruct (for_each_A_by_pairs _ _ _ _ _ _ _ _ _ [] [] Hx eq_refl)
    as (new' & Hc' & Hfold).
  cbn [ps_checks ps_collision ps_engine app] in *.
  rewrite Hc in Hc'. subst new'.
  rewrite Hfold. cbn [sw_A sw_B sw_engine sw_results].
  rewrite <- Hm, combine_fst_snd, <- any_hit_results, Hc, Hcol, Hl, orb_false_r.
  reflexivity.
Qed.

(** A returning loop made between one and [fuel] passes by pairs, and
    left the collider and the engine as they left them. *)
Lemma do_while_by_pairs (fuel : nat) :
  forall (c : Collider) (e : Engine) (l : Locals) (log : list Trial) r log' c' e',
  l_collision l = false ->
  do_while fuel c e l log = Done (r, log', c', e') ->
  exists k new,
    (1 <= k <= fuel)%nat /\
    passes_by_pairs k c e = (new, c', e') /\
    log' = log ++ new.
Proof.
  induction fuel as [|fuel IH]; cbn [do_while]; intros c e l log r log' c' e' Hl H;
    [discriminate|].
  bind_inv H x Hx. destruct x as [[[t l1] c1] e1].
  pose proof (trial_by_pairs _ _ _ _ _ _ _ Hx Hl) as Hpass.
  destruct (l_collision l1) eqn:Hacc; cbn [negb] in H.
  - injection H as <- <- <- <-.
    exists 1%nat, [t]. split; [lia|]. split; [|reflexivity].
    cbn [passes_by_pairs]. rewrite Hpass. reflexivity.
  - apply IH in H; [|exact Hacc].
    destruct H as (k & new & Hk & Hpasses & ->).
    exists (S k), (t :: new). split; [lia|]. split.
    + cbn [passes_by_pairs]. rewrite Hpass, Hpasses. reflexivity.
    + rewrite <- app_assoc. reflexivity.
Qed.

End PairByPair.

(* ================================================================= *)
(** ** [sample_collision] *)

Section SampleCollision.

Context {T : Type} {D : Double T} {X : Collaborators T}.

Lemma sample_collision_log_of (fuel : nat) (c : Collider) (e : Engine) r c' e' :
  sample_collision fuel c e = Done (r, c', e') ->
  exists log, sample_collision_log fuel c e = Done (r, log, c', e').
Proof.
  unfold sample_collision. intros H.
  bind_inv H x Hx. destruct x as [[[r0 log] c0] e0].
  injection H as <- <- <-. exists log. exact Hx.
Qed.

(** C1. A returning [sample_collision] made between one and [fuel] passes,
    and each of them is a pass by pairs: [participate] was evaluated on the
    nucleons at every pair of positions of the Cartesian product of the two
    sampled nuclei, once and in loop order, whatever the earlier results
    were, and the collider and the engine that the call leaves are those
    that these evaluations leave.  The [collision] flag of a pass is the OR
    of all its results; every pass but the last has it unset, the last has
    it set, and the returned [b] is the one of the last pass.  With counting
    switched on the returned [ncoll] is the number of participating pairs
    summed over all passes, the rejected ones included. *)
Theorem sample_collision_sweeps_all_pairs
    (fuel : nat) (c : Collider) (e : Engine) (b : T) (n t : Z) c' e' :
  sample_collision fuel c e = Done ((b, n, t), c', e') ->
  exists (k : nat) (log : list Trial),
    (1 <= k <= fuel)%nat /\
    passes_by_pairs k c e = (log, c', e') /\
    sample_collision_log fuel c e = Done ((b, n, t), log, c', e') /\
    Forall (fun tr =>
              map fst (trial_checks tr) = all_pairs (trial_sizeA tr) (trial_sizeB tr) /\
              trial_collision tr = any_hit (trial_checks tr)) log /\
    (exists rejected accepted,
       log = rejected ++ [accepted] /\
       Forall (fun tr => trial_collision tr = false) rejected /\
       trial_collision accepted = true /\
       b = trial_b accepted) /\
    (calc_ncoll_ c = true -> n = total_hits log).
Proof.
  intros H. apply sample_collision_log_of in H. destruct H as (log & H).
  pose proof H as Hpairs.
  unfold sample_collision_log in H, Hpairs.
  apply do_while_by_pairs in Hpairs; [|reflexivity].
  destruct Hpairs as (k & new & Hk & Hpasses & Hnew). cbn [app] in Hnew. subst new.
  exists k, log.
  split; [exact Hk|]. split; [exact Hpasses|]. split; [exact H|].
  apply do_while_Done in H; [|reflexivity].
  destruct H as (rejected & accepted & Hlog & Hall & Hrej & Hacc & Hr & _).
  cbn [app] in Hlog. subst log. split; [|split].
  - eapply Forall_impl; [|exact Hall].
    intros tr (Hp & Hc & _). split; assumption.
  - exists rejected, accepted.
    split; [reflexivity|]. split; [exact Hrej|]. split; [exact Hacc|].
    injection Hr as -> _ _. reflexivity.
  - intros Hf. rewrite Hf in Hr. cbn [l_ncoll] in Hr.
    injection Hr as _ -> _. lia.
Qed.

(** C6. With ncoll tracking disabled the returned [ncoll] is 0, and with
    trial tracking disabled the returned trial count is 0, each whatever
    the other flag is and whatever happened in the loop. *)
Theorem sample_collision_untracked_zero
    (fuel : nat) (c : Collider) (e : Engine) (b : T) (n t : Z) c' e' :
  sample_collision fuel c e = Done ((b, n, t), c', e') ->
  (calc_ncoll_ c = false -> n = 0) /\
  (calc_toColl_ c = false -> t = 0).
Proof.
  intros H. apply sample_collision_log_of in H. destruct H as (log & H).
  unfold sample_collision_log in H.
  apply do_while_Done in H; [|reflexivity].
  destruct H as (rejected & accepted & _ & _ & _ & _ & Hr & _).
  cbn [l_ncoll l_nToCollide] in Hr. injection Hr as _ -> ->.
  split; intros ->; reflexivity.
Qed.

(** C9. Whenever [sample_collision] returns, a tracked [ncoll] is at least
    1 and a tracked trial count is at least 1. *)
Theorem sample_collision_tracked_positive
    (fuel : nat) (c : Collider) (e : Engine) (b : T) (n t : Z) c' e' :
  sample_collision fuel c e = Done ((b, n, t), c', e') ->
  (calc_ncoll_ c = true -> 1 <= n) /\
  (calc_toColl_ c = true -> 1 <= t).
Proof.
  intros H. apply sample_collision_log_of in H. destruct H as (log & H).
  unfold sample_collision_log in H.
  apply do_while_Done in H; [|reflexivity].
  destruct H as (rejected & accepted & _ & Hall & _ & Hacc & Hr & _).
  cbn [l_ncoll l_nToCollide] in Hr. injection Hr as _ -> ->.
  split; intros ->.
  - rewrite total_hits_app.
    pose proof (total_hits_nonneg rejected) as Hrej.
    apply Forall_app in Hall. destruct Hall as [_ Hlast].
    inversion Hlast as [|x l (_ & Hflag & _) _]; subst.
    rewrite Hacc in Hflag. symmetry in Hflag. apply any_hit_hits in Hflag.
    unfold total_hits at 2. cbn [fold_right]. lia.
  - rewrite length_app. cbn [length]. lia.
Qed.

Lemma first_pair_hit_one_pass
    (c : Collider) (e : Engine) (b : T) (A B : Nucleus) (e3 : Engine)
    (a0 b0 : Nucleon) (As Bs : list Nucleon) :
  place_nuclei c e = (b, A, B, e3) ->
  nucleons A = a0 :: As ->
  nucleons B = b0 :: Bs ->
  new_collision (participate (nucleon_common_ c) a0 b0 e3) = true ->
  (calc_ncoll_ c = true ->
   Z.of_nat (length (nucleons A) * length (nucleons B)) <= INT_MAX) ->
  exists n t tr c' e',
    (forall fuel, sample_collision_log (S fuel) c e = Done ((b, n, t), [tr], c', e')) /\
    (forall fuel, sample_collision (S fuel) c e = Done ((b, n, t), c', e')) /\
    (calc_toColl_ c = true -> t = 1) /\
    (calc_ncoll_ c = true -> 1 <= n).
Proof.
  intros Hplace HA HB Hhit Hfit.
  set (s0 := {| ps_ncoll := 0; ps_collision := false;
                ps_engine := e3; ps_checks := [] |}).
  destruct (for_each_A_total (nucleon_common_ c) (calc_ncoll_ c)
              (nucleons A) 0%nat (nucleons B) s0) as (As' & Bs' & s & Hsweep).
  { intros Hf. cbn [ps_ncoll s0]. specialize (Hfit Hf). lia. }
  assert (Hcol : ps_collision s = true).
  { rewrite HA, HB in Hsweep.
    exact (for_each_A_first_pair _ _ _ _ _ _ _ _ _ _ _ Hsweep Hhit). }
  pose proof (for_each_A_Done _ _ _ _ _ _ _ _ _ Hsweep)
    as (new & _ & _ & Hany & Hn & _).
  cbn [ps_ncoll ps_collision s0] in Hany, Hn.
  rewrite Hcol, orb_false_r in Hany. symmetry in Hany. apply any_hit_hits in Hany.
  assert (Hrun : forall fuel,
    sample_collision_log (S fuel) c e =
    Done ((b, ps_ncoll s, if calc_toColl_ c then 1 else 0),
          [{| trial_b := b;
              trial_sizeA := length (nucleons A);
              trial_sizeB := length (nucleons B);
              trial_checks := ps_checks s;
              trial_collision := ps_collision s |}],
          set_nuclei (with_nucleons As' A) (with_nucleons Bs' B) c,
          ps_engine s)).
  { intros fuel. unfold sample_collision_log. cbn [do_while].
    unfold trial. rewrite Hplace. cbn [l_ncoll l_collision l_nToCollide].
    fold s0. rewrite Hsweep. cbn [obind].
    destruct (calc_toColl_ c); cbn [int_incr obind l_collision l_ncoll l_nToCollide];
      rewrite Hcol; reflexivity. }
  eexists _, _, _, _, _. split; [exact Hrun|]. split; [|split].
  - intros fuel. unfold sample_collision. rewrite Hrun. reflexivity.
  - intros ->. reflexivity.
  - intros Hf. rewrite Hf in Hn. lia.
Qed.

(** C5. If [participate] returns true for the first pair checked on the
    first pass, and the product of the nucleus sizes fits an [int] when
    pairs are counted, then [sample_collision] returns after exactly one
    pass of the rejection loop, with trial count 1 when trials are tracked
    and [ncoll >= 1] when pairs are counted. *)
Theorem sample_collision_first_pair_hit (c : Collider) (e : Engine) :
  first_pair_hit c e = true ->
  (calc_ncoll_ c = true -> Z.of_nat (first_pass_pairs c e) <= INT_MAX) ->
  exists b n t tr c' e',
    (forall fuel, sample_collision_log (S fuel) c e = Done ((b, n, t), [tr], c', e')) /\
    (forall fuel, sample_collision (S fuel) c e = Done ((b, n, t), c', e')) /\
    (calc_toColl_ c = true -> t = 1) /\
    (calc_ncoll_ c = true -> 1 <= n).
Proof.
  unfold first_pair_hit, first_pass_pairs.
  destruct (place_nuclei c e) as [[[b A] B] e3] eqn:Hplace.
  destruct (nucleons A) as [|a0 As] eqn:HA; [discriminate|].
  destruct (nucleons B) as [|b0 Bs] eqn:HB; [discriminate|].
  intros Hhit Hfit. exists b.
  rewrite <- HA, <- HB in Hfit.
  exact (first_pair_hit_one_pass c e b A B e3 a0 b0 As Bs Hplace HA HB Hhit Hfit).
Qed.

End SampleCollision.

Lemma sample_collision_sweeps_all_pairs_witness :
  exists b n t c' e' k log,
    (1 <= k <= 5)%nat /\
    passes_by_pairs k (Toy.collider 0 3 1 true true) 42%Z = (log, c', e') /\
    sample_collision_log 5 (Toy.collider 0 3 1 true true) 42%Z
      = Done ((b, n, t), log, c', e') /\
    Forall (fun tr =>
              map fst (trial_checks tr) = all_pairs (trial_sizeA tr) (trial_sizeB tr) /\
              trial_collision tr = any_hit (trial_checks tr)) log /\
    (exists rejected accepted,
       log = rejected ++ [accepted] /\
       Forall (fun tr => trial_collision tr = false) rejected /\
       trial_collision accepted = true /\
       b = trial_b accepted) /\
    (true = true -> n = total_hits log).
Proof.
  destruct (returns_Done (sample_collision 5 (Toy.collider 0 3 1 true true) 42%Z))
    as [[[[[b n] t] c'] e'] Hrun]; [vm_compute; reflexivity|].
  exists b, n, t, c', e'.
  exact (sample_collision_sweeps_all_pairs 5 (Toy.collider 0 3 1 true true) 42%Z
           b n t c' e' Hrun).
Defined.

Lemma sample_collision_untracked_zero_witness :
  exists b n t c' e',
    sample_collision 5 (Toy.collider 0 3 1 false false) 42%Z
      = Done ((b, n, t), c', e') /\
    (false = false -> n = 0) /\ (false = false -> t = 0).
Proof.
  destruct (returns_Done (sample_collision 5 (Toy.collider 0 3 1 false false) 42%Z))
    as [[[[[b n] t] c'] e'] Hrun]; [vm_compute; reflexivity|].
  exists b, n, t, c', e'. split; [exact Hrun|].
  exact (sample_collision_untracked_zero 5 (Toy.collider 0 3 1 false false) 42%Z
           b n t c' e' Hrun).
Defined.

Lemma sample_collision_tracked_positive_witness :
  exists b n t c' e',
    sample_collision 5 (Toy.collider 0 3 1 true true) 42%Z
      = Done ((b, n, t), c', e') /\
    (true = true -> 1 <= n) /\ (true = true -> 1 <= t).
Proof.
  destruct (returns_Done (sample_collision 5 (Toy.collider 0 3 1 true true) 42%Z))
    as [[[[[b n] t] c'] e'] Hrun]; [vm_compute; reflexivity|].
  exists b, n, t, c', e'. split; [exact Hrun|].
  exact (sample_collision_tracked_positive 5 (Toy.collider 0 3 1 true true) 42%Z
           b n t c' e' Hrun).
Defined.

Lemma sample_collision_first_pair_hit_witness :
  exists b n t tr c' e',
    (forall fuel, sample_collision_log (S fuel) (Toy.collider 0 0 1 true true) 42%Z
                  = Done ((b, n, t), [tr], c', e')) /\
    (forall fuel, sample_collision (S fuel) (Toy.collider 0 0 1 true true) 42%Z
                  = Done ((b, n, t), c', e')) /\
    (true = true -> t = 1) /\
    (true = true -> 1 <= n).
Proof.
  apply (sample_collision_first_pair_hit (Toy.collider 0 0 1 true true) 42%Z).
  - vm_compute. reflexivity.
  - intros _. vm_compute. discriminate.
Defined.

(* ================================================================= *)
(** ** [run_events] *)

Section RunEvents.

Context {T : Type} {D : Double T} {X : Collaborators T}.

(** C10. With an event count of zero or less the event loop body never
    runs: [run_events] returns normally, nothing was sampled, and the
    collider (nuclei, event, output) and the random engine are as before. *)
Theorem run_events_no_events (fuel trials : nat) (c : Collider) (e : Engine) :
  nevents_ c <= 0 ->
  run_events fuel trials c e = Done ([], c, e).
Proof.
  intros Hn. unfold run_events.
  assert (Htest : (0 <? nevents_ c) = false) by (apply Z.ltb_ge; exact Hn).
  destruct fuel; cbn [event_loop]; rewrite Htest; reflexivity.
Qed.

End RunEvents.

Lemma run_events_no_events_witness :
  run_events 0 0 (Toy.collider 0 3 0 true true) 42%Z
    = Done ([], Toy.collider 0 3 0 true true, 42%Z) /\
  run_events 7 7 (Toy.collider 0 3 (-4) true true) 42%Z
    = Done ([], Toy.collider 0 3 (-4) true true, 42%Z).
Proof.
  split.
  - apply (run_events_no_events 0 0 (Toy.collider 0 3 0 true true) 42%Z).
    cbn. lia.
  - apply (run_events_no_events 7 7 (Toy.collider 0 3 (-4) true true) 42%Z).
    cbn. lia.
Defined.

(* ================================================================= *)
(** ** The impact parameter *)

(** The bound [bmin_ <= b <= bmax_] is proved for the arithmetic of
    binary64, from the specification of its operations in [SpecFloat]:
    each of the four operations of the formula returns a number of the
    format that is nearest to the exact result.  The proof follows the
    formula from the inside out. *)

(** *** Powers of two *)

Lemma pow2_pos (e : Z) : (0 < pow2 e)%R.
Proof. apply powerRZ_lt. lra. Qed.

Lemma pow2_add (a b : Z) : pow2 (a + b) = (pow2 a * pow2 b)%R.
Proof. apply powerRZ_add. lra. Qed.

Lemma pow2_0 : pow2 0 = 1%R.
Proof. reflexivity. Qed.

Lemma pow2_1 : pow2 1 = 2%R.
Proof. exact (powerRZ_1 2). Qed.

Lemma pow2_succ (e : Z) : pow2 (e + 1) = (2 * pow2 e)%R.
Proof. rewrite pow2_add, pow2_1. lra. Qed.

Lemma pow2_IZR (e : Z) : 0 <= e -> pow2 e = IZR (2 ^ e).
Proof.
  intros He. unfold pow2. destruct e as [|p|p]; [reflexivity| |lia].
  unfold powerRZ. rewrite pow_IZR, positive_nat_Z. reflexivity.
Qed.

Lemma pow2_le (a b : Z) : a <= b -> (pow2 a <= pow2 b)%R.
Proof.
  intros H. replace b with (a + (b - a)) by lia.
  rewrite pow2_add, (pow2_IZR (b - a)) by lia.
  assert (H0 : 0 < 2 ^ (b - a)) by (apply Z.pow_pos_nonneg; lia).
  assert (H1 : 1 <= 2 ^ (b - a)) by lia.
  apply IZR_le in H1. pose proof (pow2_pos a). nra.
Qed.

Lemma pow2_lt (a b : Z) : a < b -> (pow2 a < pow2 b)%R.
Proof.
  intros H. apply Rlt_le_trans with (pow2 (a + 1)); [|apply pow2_le; lia].
  rewrite pow2_succ. pose proof (pow2_pos a). lra.
Qed.

Lemma pow2_split (a b : Z) : pow2 a = (pow2 (a - b) * pow2 b)%R.
Proof. rewrite <- pow2_add. f_equal. lia. Qed.

(** *** The number of bits of a mantissa *)

Lemma digits2_pos_size (m : positive) : digits2_pos m = Pos.size m.
Proof. induction m; cbn; congruence. Qed.

Lemma digits2_bounds (m : positive) :
  2 ^ (Zpos (digits2_pos m) - 1) <= Zpos m < 2 ^ Zpos (digits2_pos m).
Proof.
  rewrite digits2_pos_size.
  pose proof (Pos.size_gt m) as Hgt. pose proof (Pos.size_le m) as Hle.
  assert (H2 : 2 ^ Zpos (Pos.size m) = Zpos (2 ^ Pos.size m)).
  { rewrite Pos2Z.inj_pow. reflexivity. }
  split.
  - assert (2 * 2 ^ (Zpos (Pos.size m) - 1) = 2 ^ Zpos (Pos.size m)).
    { rewrite <- Z.pow_succ_r by lia. f_equal. lia. }
    assert (Zpos (2 ^ Pos.size m) <= Zpos m~0) by exact Hle.
    lia.
  - rewrite H2. exact Hgt.
Qed.

(** *** Shifting a mantissa to the right *)

Lemma IZR_xO (p : positive) : IZR (Zpos p~0) = (2 * IZR (Zpos p))%R.
Proof. rewrite Pos2Z.inj_xO, mult_IZR. reflexivity. Qed.

Lemma IZR_xI (p : positive) : IZR (Zpos p~1) = (2 * IZR (Zpos p) + 1)%R.
Proof. rewrite Pos2Z.inj_xI, plus_IZR, mult_IZR. reflexivity. Qed.

Lemma div_pow2_succ (x : R) (e : Z) : (x / pow2 (e + 1) = x / pow2 e / 2)%R.
Proof. rewrite pow2_succ. pose proof (pow2_pos e). field. lra. Qed.

Lemma shr_1_inbetween (x : R) (mrs : shr_record) (e : Z) :
  0 <= shr_m mrs ->
  inbetween x (shr_m mrs) e (loc_of_shr_record mrs) ->
  0 <= shr_m (shr_1 mrs) /\
  inbetween x (shr_m (shr_1 mrs)) (e + 1) (loc_of_shr_record (shr_1 mrs)).
Proof.
  destruct mrs as [m r s]. cbn [shr_m]. intros Hm H.
  unfold inbetween in *. rewrite div_pow2_succ.
  set (y := (x / pow2 e)%R) in *. clearbody y.
  destruct m as [|[p|p|]|p]; [| | | |lia];
    try pose proof (IZR_xO p) as Hp; try pose proof (IZR_xI p) as Hp';
    destruct r, s; cbn [shr_1 orb shr_m loc_of_shr_record] in *;
    (split; [lia|]); lra.
Qed.

Lemma iter_shr_1_inbetween (x : R) (p : positive) :
  forall (mrs : shr_record) (e : Z),
  0 <= shr_m mrs ->
  inbetween x (shr_m mrs) e (loc_of_shr_record mrs) ->
  0 <= shr_m (SpecFloat.iter_pos shr_1 p mrs) /\
  inbetween x (shr_m (SpecFloat.iter_pos shr_1 p mrs)) (e + Zpos p)
    (loc_of_shr_record (SpecFloat.iter_pos shr_1 p mrs)).
Proof.
  induction p as [p IH|p IH|]; intros mrs e Hm H; cbn [SpecFloat.iter_pos].
  - destruct (shr_1_inbetween x mrs e Hm H) as [Hm1 H1].
    destruct (IH _ _ Hm1 H1) as [Hm2 H2].
    destruct (IH _ _ Hm2 H2) as [Hm3 H3].
    split; [exact Hm3|].
    replace (e + Zpos p~1) with (e + 1 + Zpos p + Zpos p) by lia. exact H3.
  - destruct (IH _ _ Hm H) as [Hm2 H2].
    destruct (IH _ _ Hm2 H2) as [Hm3 H3].
    split; [exact Hm3|].
    replace (e + Zpos p~0) with (e + Zpos p + Zpos p) by lia. exact H3.
  - apply shr_1_inbetween; assumption.
Qed.

Lemma shr_record_of_loc_m (m : Z) (l : location) :
  shr_m (shr_record_of_loc m l) = m.
Proof. destruct l as [|[| |]]; reflexivity. Qed.

Lemma loc_of_shr_record_of_loc (m : Z) (l : location) :
  loc_of_shr_record (shr_record_of_loc m l) = l.
Proof. destruct l as [|[| |]]; reflexivity. Qed.

Lemma fexp_eq (z : Z) : fexp prec emax z = Z.max (z - 53) (-1074).
Proof. reflexivity. Qed.

(** Shifting to the exponent that the format asks for keeps the place of
    the number. *)
Lemma shr_fexp_inbetween (x : R) (mx ex : Z) (lx : location) :
  0 <= mx ->
  inbetween x mx ex lx ->
  ex <= fexp prec emax (Zdigits2 mx + ex) ->
  exists mrs,
    shr_fexp prec emax mx ex lx = (mrs, fexp prec emax (Zdigits2 mx + ex)) /\
    0 <= shr_m mrs /\
    inbetween x (shr_m mrs) (fexp prec emax (Zdigits2 mx + ex)) (loc_of_shr_record mrs).
Proof.
  intros Hm H Hle. unfold shr_fexp.
  set (f := fexp prec emax (Zdigits2 mx + ex)) in *.
  destruct (f - ex) as [|n|n] eqn:Hn; [| |lia]; unfold shr.
  - exists (shr_record_of_loc mx lx).
    replace f with ex by lia.
    rewrite shr_record_of_loc_m, loc_of_shr_record_of_loc. auto.
  - exists (SpecFloat.iter_pos shr_1 n (shr_record_of_loc mx lx)).
    replace f with (ex + Zpos n) by lia.
    split; [reflexivity|].
    apply iter_shr_1_inbetween.
    + rewrite shr_record_of_loc_m. exact Hm.
    + rewrite shr_record_of_loc_m, loc_of_shr_record_of_loc. exact H.
Qed.

(** Without a shift to make, nothing changes. *)
Lemma shr_fexp_exact_small (m e : Z) :
  fexp prec emax (Zdigits2 m + e) <= e ->
  shr_fexp prec emax m e loc_Exact = ({| shr_m := m; shr_r := false; shr_s := false |}, e).
Proof.
  intros H. unfold shr_fexp, shr.
  destruct (fexp prec emax (Zdigits2 m + e) - e) eqn:Hn; try reflexivity. lia.
Qed.

Ltac split_Rabs :=
  unfold Rabs in *;
  repeat match goal with
         | [ H : context [Rcase_abs ?a] |- _ ] => destruct (Rcase_abs a)
         | [ |- context [Rcase_abs ?a] ] => destruct (Rcase_abs a)
         end.

(** Rounding the mantissa gives an integer nearest to the number. *)
Lemma round_nearest_even_nearest (x : R) (m e : Z) (l : location) :
  inbetween x m e l ->
  (round_nearest_even m l = m \/ round_nearest_even m l = m + 1) /\
  (l = loc_Exact -> (x / pow2 e)%R = IZR (round_nearest_even m l)) /\
  forall k : Z,
    (Rabs (IZR (round_nearest_even m l) - x / pow2 e) <= Rabs (IZR k - x / pow2 e))%R.
Proof.
  intros H. unfold inbetween in H. cbv zeta in H.
  set (y := (x / pow2 e)%R) in *. clearbody y.
  assert (Hint : forall a k : Z, (Rabs (IZR a - y) <= / 2)%R ->
                 (Rabs (IZR a - y) <= Rabs (IZR k - y))%R).
  { intros a k Ha.
    destruct (Z.eq_dec k a) as [->|Hne]; [lra|].
    assert (Hk : k <= a - 1 \/ a + 1 <= k) by lia.
    destruct Hk as [Hk|Hk]; apply IZR_le in Hk;
      rewrite ?minus_IZR, ?plus_IZR in Hk; split_Rabs; lra. }
  destruct l as [|[| |]]; cbn [round_nearest_even].
  - split; [left; reflexivity|]. split; [intros _; exact H|].
    intros k. apply Hint. rewrite H. split_Rabs; lra.
  - destruct (Z.even m).
    + split; [left; reflexivity|]. split; [discriminate|].
      intros k. apply Hint. split_Rabs; lra.
    + split; [right; reflexivity|]. split; [discriminate|].
      intros k. apply Hint. rewrite plus_IZR. split_Rabs; lra.
  - split; [left; reflexivity|]. split; [discriminate|].
    intros k. apply Hint. split_Rabs; lra.
  - split; [right; reflexivity|]. split; [discriminate|].
    intros k. apply Hint. rewrite plus_IZR. split_Rabs; lra.
Qed.

(** *** Rounding to binary64 *)

Lemma representable_0 : representable 0.
Proof. exists 0, 0. repeat split; try lia. rewrite pow2_0. lra. Qed.

Lemma Rabs_scale (a b y P : R) :
  (0 < P)%R -> (Rabs (a - y) <= Rabs (b - y))%R ->
  (Rabs (a * P - y * P) <= Rabs (b * P - y * P))%R.
Proof.
  intros HP H.
  replace (a * P - y * P)%R with ((a - y) * P)%R by ring.
  replace (b * P - y * P)%R with ((b - y) * P)%R by ring.
  rewrite !Rabs_mult, (Rabs_pos_eq P) by lra.
  apply Rmult_le_compat_r; lra.
Qed.

Lemma pow2_le_inv (a b : Z) : (pow2 a <= pow2 b)%R -> a <= b.
Proof.
  intros H. destruct (Z_le_gt_dec a b) as [Hle|Hgt]; [exact Hle|].
  assert (Hlt : (pow2 b < pow2 a)%R) by (apply pow2_lt; lia). lra.
Qed.

Lemma pow2_lt_inv (a b : Z) : (pow2 a < pow2 b)%R -> a < b.
Proof.
  intros H. destruct (Z_lt_ge_dec a b) as [Hlt|Hge]; [exact Hlt|].
  assert (Hle : (pow2 b <= pow2 a)%R) by (apply pow2_le; lia). lra.
Qed.

Lemma Zdigits2_le_53 (M : Z) : 0 <= M < 2 ^ 53 -> Zdigits2 M <= 53.
Proof.
  intros HM. destruct M as [|q|q]; cbn [Zdigits2]; [lia| |lia].
  pose proof (digits2_bounds q) as [Hlo _].
  assert (H : 2 ^ (Zpos (digits2_pos q) - 1) < 2 ^ 53) by lia.
  apply Z.pow_lt_mono_r_iff in H; lia.
Qed.

Lemma shr_fexp_carry (e : Z) :
  -1074 <= e ->
  shr_fexp prec emax (2 ^ 53) e loc_Exact =
  ({| shr_m := 2 ^ 52; shr_r := false; shr_s := false |}, e + 1).
Proof.
  intros He. unfold shr_fexp. change (Zdigits2 (2 ^ 53)) with 54.
  rewrite fexp_eq. replace (Z.max (54 + e - 53) (-1074) - e) with 1 by lia.
  reflexivity.
Qed.

(** The bounds that [inbetween] gives on the number itself. *)
Lemma inbetween_bounds (x : R) (m e : Z) (l : location) :
  inbetween x m e l ->
  (IZR m * pow2 e <= x < (IZR m + 1) * pow2 e)%R.
Proof.
  unfold inbetween. cbv zeta. pose proof (pow2_pos e) as HP.
  assert (Hx : x = (x / pow2 e * pow2 e)%R) by (field; lra).
  set (y := (x / pow2 e)%R) in *. clearbody y. subst x.
  destruct l as [|c]; [intros ->; nra|].
  intros [[H1 H2] _]. nra.
Qed.

Lemma IZR_pos_bounds (mx : positive) (ex : Z) :
  (pow2 (Zpos (digits2_pos mx) - 1 + ex) <= IZR (Zpos mx) * pow2 ex)%R /\
  ((IZR (Zpos mx) + 1) * pow2 ex <= pow2 (Zpos (digits2_pos mx) + ex))%R.
Proof.
  pose proof (digits2_bounds mx) as [Hlo Hhi].
  pose proof (pow2_pos ex) as HP.
  set (d := Zpos (digits2_pos mx)) in *.
  rewrite (pow2_add (d - 1) ex), (pow2_add d ex).
  rewrite (pow2_IZR (d - 1)), (pow2_IZR d) by lia.
  apply IZR_le in Hlo.
  assert (Hhi' : Zpos mx + 1 <= 2 ^ d) by lia.
  apply IZR_le in Hhi'. rewrite plus_IZR in Hhi'.
  split; apply Rmult_le_compat_r; lra.
Qed.

(** [binary_round_aux] returns a nearest number of the format, as long as
    the number that it rounds lies below [2^1022] and its mantissa comes at
    an exponent that is not above the one the format asks for. *)
Lemma binary_round_aux_nearest (x : R) (mx : positive) (ex : Z) (lx : location) :
  inbetween x (Zpos mx) ex lx ->
  ex <= fexp prec emax (Zpos (digits2_pos mx) + ex) ->
  (x <= pow2 1022)%R ->
  (binary_round_aux prec emax false (Zpos mx) ex lx = S754_zero false \/
   exists m e, binary_round_aux prec emax false (Zpos mx) ex lx = S754_finite false m e) /\
  nearest x (SF2R (binary_round_aux prec emax false (Zpos mx) ex lx)).
Proof.
  intros Hin Hle Hx.
  destruct (shr_fexp_inbetween x (Zpos mx) ex lx) as (mrs & Hshr & Hm1 & Hin1);
    [lia | exact Hin | exact Hle |].
  cbn [Zdigits2] in Hshr, Hin1.
  set (d := Zpos (digits2_pos mx)) in *.
  set (e1 := fexp prec emax (d + ex)) in *.
  assert (He1 : e1 = Z.max (d + ex - 53) (-1074)) by (unfold e1; apply fexp_eq).
  unfold binary_round_aux. rewrite Hshr.
  set (m1 := shr_m mrs) in *. set (l1 := loc_of_shr_record mrs) in *.
  destruct (round_nearest_even_nearest x m1 e1 l1 Hin1) as (HM & _ & Hnear).
  set (M := round_nearest_even m1 l1) in *.
  pose proof (pow2_pos e1) as HP.
  pose proof (inbetween_bounds _ _ _ _ Hin) as [Hxlo Hxhi].
  pose proof (inbetween_bounds _ _ _ _ Hin1) as [Hylo Hyhi].
  pose proof (IZR_pos_bounds mx ex) as [Hdlo Hdhi]. fold d in Hdlo, Hdhi.
  (* the exponent does not overflow *)
  assert (Hd : d - 1 + ex <= 1022) by (apply pow2_le_inv; lra).
  assert (He970 : -1074 <= e1 <= 970) by lia.
  (* the shifted mantissa has at most 53 bits *)
  assert (Hm53 : m1 < 2 ^ 53).
  { apply lt_IZR. rewrite <- pow2_IZR by lia.
    assert (H1 : (IZR m1 * pow2 e1 < pow2 (d + ex))%R) by lra.
    rewrite (pow2_split (d + ex) e1) in H1.
    assert (H2 : (IZR m1 < pow2 (d + ex - e1))%R) by nra.
    apply Rlt_le_trans with (1 := H2). apply pow2_le. lia. }
  assert (HM53 : 0 <= M <= 2 ^ 53) by lia.
  (* what the second shift returns *)
  assert (Hres : exists r,
    (let '(mrs'', e'') := shr_fexp prec emax M e1 loc_Exact in
     match shr_m mrs'' with
     | 0 => S754_zero false
     | Zpos m => if e'' <=? emax - prec then S754_finite false m e'' else S754_infinity false
     | Zneg _ => S754_nan
     end) = r /\
    (r = S754_zero false \/ exists m e, r = S754_finite false m e) /\
    SF2R r = (IZR M * pow2 e1)%R /\ representable (SF2R r)).
  { destruct (Z.eq_dec M (2 ^ 53)) as [Hc|Hc].
    - rewrite Hc, shr_fexp_carry by lia. cbn [shr_m].
      change (2 ^ 52) with (Zpos (2 ^ 52)%positive).
      replace (e1 + 1 <=? emax - prec) with true
        by (symmetry; apply Z.leb_le; change (emax - prec) with 971; lia).
      eexists. split; [reflexivity|]. split; [right; eauto|].
      cbn [SF2R]. rewrite pow2_succ.
      change (IZR (Zpos (2 ^ 52))) with (IZR (2 ^ 52)).
      assert (H2 : IZR (2 ^ 53) = (2 * IZR (2 ^ 52))%R)
        by (rewrite <- mult_IZR; reflexivity).
      split; [rewrite H2; ring|].
      exists (2 ^ 52), (e1 + 1). split; [lia|]. split; [lia|].
      rewrite pow2_succ. reflexivity.
    - rewrite shr_fexp_exact_small.
      2:{ rewrite fexp_eq. pose proof (Zdigits2_le_53 M). lia. }
      cbn [shr_m]. destruct M as [|q|q] eqn:HMq; [| |lia].
      + eexists. split; [reflexivity|]. split; [left; reflexivity|].
        cbn [SF2R]. split; [lra | exact representable_0].
      + replace (e1 <=? emax - prec) with true
          by (symmetry; apply Z.leb_le; change (emax - prec) with 971; lia).
        eexists. split; [reflexivity|]. split; [right; eauto|].
        cbn [SF2R]. split; [reflexivity|].
        exists (Zpos q), e1. split; [lia|]. split; [lia|]. reflexivity. }
  destruct Hres as (r & -> & Hshape & Hval & Hrep).
  split; [exact Hshape|]. split; [exact Hrep|].
  intros f (mf & ef & Hmf & Hef & ->). rewrite Hval.
  assert (Hxy : x = (x / pow2 e1 * pow2 e1)%R) by (field; lra).
  set (y := (x / pow2 e1)%R) in *.
  destruct (Z_le_gt_dec e1 ef) as [Hge|Hlt].
  - (* [f] is on the grid of the result *)
    rewrite (pow2_split ef e1), (pow2_IZR (ef - e1)) by lia.
    rewrite <- Rmult_assoc, <- mult_IZR, Hxy.
    apply Rabs_scale; [exact HP | apply Hnear].
  - (* [f] lies below the interval that the grid covers *)
    assert (He1' : e1 = d + ex - 53) by lia.
    assert (HB : (pow2 (52 + e1) <= x)%R).
    { replace (52 + e1) with (d - 1 + ex) by lia. lra. }
    assert (Hf : (IZR mf * pow2 ef < pow2 (52 + e1))%R).
    { apply Rlt_le_trans with (pow2 (53 + ef)); [|apply pow2_le; lia].
      rewrite pow2_add, (pow2_IZR 53) by lia.
      assert (H53 : (IZR mf < IZR (2 ^ 53))%R) by (apply IZR_lt; lia).
      pose proof (pow2_pos ef). nra. }
    assert (Hk := Hnear (2 ^ 52)).
    apply (Rabs_scale _ _ _ _ HP) in Hk. rewrite <- Hxy in Hk.
    rewrite <- (pow2_IZR 52), <- pow2_add in Hk by lia.
    apply Rle_trans with (1 := Hk). split_Rabs; lra.
Qed.

(** *** The numbers of binary64 *)

(** The mantissa and exponent of a finite double are in canonical form. *)
Lemma valid_finite (x : float) (s : bool) (m : positive) (e : Z) :
  Prim2SF x = S754_finite s m e ->
  fexp prec emax (Zpos (digits2_pos m) + e) = e /\ e <= 971.
Proof.
  intros H. pose proof (Prim2SF_valid x) as Hv. rewrite H in Hv.
  cbn [SpecFloat.valid_binary] in Hv. unfold bounded, canonical_mantissa in Hv.
  apply andb_prop in Hv. destruct Hv as [Hc Hb].
  apply Z.eqb_eq in Hc. apply Z.leb_le in Hb.
  split; [exact Hc | exact Hb].
Qed.

Lemma valid_finite_bounds (x : float) (s : bool) (m : positive) (e : Z) :
  Prim2SF x = S754_finite s m e ->
  -1074 <= e <= 971 /\ Zpos m < 2 ^ 53 /\ (-1074 < e -> 2 ^ 52 <= Zpos m).
Proof.
  intros H. apply valid_finite in H. destruct H as [Hc Hb].
  rewrite fexp_eq in Hc.
  pose proof (digits2_bounds m) as [Hlo Hhi].
  set (d := Zpos (digits2_pos m)) in *.
  assert (Hd : d <= 53) by lia.
  split; [lia|]. split.
  - apply Z.lt_le_trans with (1 := Hhi). apply Z.pow_le_mono_r; lia.
  - intros He. assert (Hd' : d = 53) by lia. rewrite Hd' in Hlo. exact Hlo.
Qed.

Lemma finite_nonneg_cases (x : float) :
  finite_nonneg x ->
  B2R x = 0%R \/
  exists m e, Prim2SF x = S754_finite false m e /\
              B2R x = (IZR (Zpos m) * pow2 e)%R /\ (0 < B2R x)%R.
Proof.
  unfold B2R. intros [[s H]|(m & e & H)]; rewrite H; cbn [SF2R].
  - left. reflexivity.
  - right. exists m, e. split; [reflexivity|]. split; [reflexivity|].
    apply Rmult_lt_0_compat; [apply IZR_lt; lia | apply pow2_pos].
Qed.

Lemma B2R_nonneg (x : float) : finite_nonneg x -> (0 <= B2R x)%R.
Proof. intros H. destruct (finite_nonneg_cases x H) as [H0|(m & e & _ & _ & Hp)]; lra. Qed.

Lemma B2R_representable (x : float) : finite_nonneg x -> representable (B2R x).
Proof.
  intros H. destruct (finite_nonneg_cases x H) as [H0|(m & e & Hx & Hv & _)].
  - rewrite H0. exact representable_0.
  - rewrite Hv. apply valid_finite_bounds in Hx. destruct Hx as (He & Hm & _).
    exists (Zpos m), e. split; [lia|]. split; [exact He | reflexivity].
Qed.

(** Among canonical forms a smaller exponent means a smaller number. *)
Lemma canonical_exponent_lt (x y : float) (m1 m2 : positive) (e1 e2 : Z) :
  Prim2SF x = S754_finite false m1 e1 ->
  Prim2SF y = S754_finite false m2 e2 ->
  e1 < e2 ->
  (IZR (Zpos m1) * pow2 e1 < IZR (Zpos m2) * pow2 e2)%R.
Proof.
  intros Hx Hy Hlt.
  apply valid_finite_bounds in Hx. destruct Hx as (He1 & Hm1 & _).
  apply valid_finite_bounds in Hy. destruct Hy as (He2 & _ & Hm2).
  specialize (Hm2 ltac:(lia)).
  apply IZR_lt in Hm1. apply IZR_le in Hm2.
  rewrite <- pow2_IZR in Hm1, Hm2 by lia.
  pose proof (pow2_pos e1) as HP1. pose proof (pow2_pos e2) as HP2.
  apply Rlt_le_trans with (pow2 53 * pow2 e1)%R; [nra|].
  apply Rle_trans with (pow2 52 * pow2 e2)%R; [|nra].
  rewrite <- !pow2_add. apply pow2_le. lia.
Qed.

(** The comparison of two doubles that are not negative is the comparison
    of the numbers they stand for. *)
Lemma SFcompare_B2R (x y : float) :
  finite_nonneg x -> finite_nonneg y ->
  match SFcompare (Prim2SF x) (Prim2SF y) with
  | Some Lt => (B2R x < B2R y)%R
  | Some Eq => B2R x = B2R y
  | Some Gt => (B2R y < B2R x)%R
  | None => False
  end.
Proof.
  intros Hx Hy.
  destruct (finite_nonneg_cases y Hy) as [Hy0|(m2 & e2 & Hy2 & Hvy & Hpy)];
  destruct (finite_nonneg_cases x Hx) as [Hx0|(m1 & e1 & Hx1 & Hvx & Hpx)].
  - destruct Hx as [[s1 Hx]|(m & e & Hx)];
      [|unfold B2R in Hx0; rewrite Hx in Hx0; cbn [SF2R] in Hx0;
        pose proof (pow2_pos e); assert (0 < IZR (Zpos m))%R by (apply IZR_lt; lia); nra].
    destruct Hy as [[s2 Hy]|(m & e & Hy)];
      [|unfold B2R in Hy0; rewrite Hy in Hy0; cbn [SF2R] in Hy0;
        pose proof (pow2_pos e); assert (0 < IZR (Zpos m))%R by (apply IZR_lt; lia); nra].
    rewrite Hx, Hy. cbn [SFcompare]. lra.
  - destruct Hy as [[s2 Hy]|(m & e & Hy)];
      [|unfold B2R in Hy0; rewrite Hy in Hy0; cbn [SF2R] in Hy0;
        pose proof (pow2_pos e); assert (0 < IZR (Zpos m))%R by (apply IZR_lt; lia); nra].
    rewrite Hx1, Hy. cbn [SFcompare]. lra.
  - destruct Hx as [[s1 Hx]|(m & e & Hx)];
      [|unfold B2R in Hx0; rewrite Hx in Hx0; cbn [SF2R] in Hx0;
        pose proof (pow2_pos e); assert (0 < IZR (Zpos m))%R by (apply IZR_lt; lia); nra].
    rewrite Hx, Hy2. cbn [SFcompare]. lra.
  - rewrite Hx1, Hy2. cbn [SFcompare].
    destruct (Z.compare_spec e1 e2) as [He|He|He].
    + subst e2. rewrite Hvx, Hvy.
      pose proof (pow2_pos e1) as HP.
      change (Pos.compare_cont Eq m1 m2) with (Pos.compare m1 m2).
      destruct (Pos.compare_spec m1 m2) as [Hm|Hm|Hm].
      * subst m2. reflexivity.
      * assert (IZR (Zpos m1) < IZR (Zpos m2))%R by (apply IZR_lt; lia). nra.
      * assert (IZR (Zpos m2) < IZR (Zpos m1))%R by (apply IZR_lt; lia). nra.
    + rewrite Hvx, Hvy. exact (canonical_exponent_lt x y m1 m2 e1 e2 Hx1 Hy2 He).
    + rewrite Hvx, Hvy. exact (canonical_exponent_lt y x m2 m1 e2 e1 Hy2 Hx1 He).
Qed.

Lemma leb_B2R (x y : float) :
  finite_nonneg x -> finite_nonneg y ->
  ((x <=? y)%float = true <-> (B2R x <= B2R y)%R).
Proof.
  intros Hx Hy. pose proof (SFcompare_B2R x y Hx Hy) as H.
  rewrite FloatAxioms.leb_spec. unfold SFleb.
  destruct (SFcompare (Prim2SF x) (Prim2SF y)) as [[| |]|];
    split; intros; try reflexivity; try discriminate; try lra; contradiction.
Qed.

Lemma ltb_B2R (x y : float) :
  finite_nonneg x -> finite_nonneg y ->
  ((x <? y)%float = true <-> (B2R x < B2R y)%R).
Proof.
  intros Hx Hy. pose proof (SFcompare_B2R x y Hx Hy) as H.
  rewrite FloatAxioms.ltb_spec. unfold SFltb.
  destruct (SFcompare (Prim2SF x) (Prim2SF y)) as [[| |]|];
    split; intros; try reflexivity; try discriminate; try lra; contradiction.
Qed.

(** *** The operations round to a nearest number *)

Lemma nearest_exact (v : R) : representable v -> nearest v v.
Proof.
  intros H. split; [exact H|]. intros f _.
  replace (v - v)%R with 0%R by ring. rewrite Rabs_R0. apply Rabs_pos.
Qed.

Lemma finite_nonneg_zero (x : float) (s : bool) :
  Prim2SF x = S754_zero s -> finite_nonneg x.
Proof. intros H. left. exists s. exact H. Qed.

Lemma B2R_zero (x : float) (s : bool) : Prim2SF x = S754_zero s -> B2R x = 0%R.
Proof. intros H. unfold B2R. rewrite H. reflexivity. Qed.

Lemma B2R_finite (x : float) (m : positive) (e : Z) :
  Prim2SF x = S754_finite false m e -> B2R x = (IZR (Zpos m) * pow2 e)%R.
Proof. intros H. unfold B2R. rewrite H. reflexivity. Qed.

(** What [binary_round_aux_nearest] says, for a double. *)
Lemma round_aux_double (z : float) (x : R) (mx : positive) (ex : Z) (lx : location) :
  Prim2SF z = binary_round_aux prec emax false (Zpos mx) ex lx ->
  inbetween x (Zpos mx) ex lx ->
  ex <= fexp prec emax (Zpos (digits2_pos mx) + ex) ->
  (x <= pow2 1022)%R ->
  finite_nonneg z /\ nearest x (B2R z).
Proof.
  intros Hz Hin Hle Hx.
  destruct (binary_round_aux_nearest x mx ex lx Hin Hle Hx) as [Hshape Hnear].
  unfold B2R, finite_nonneg. rewrite Hz. split; [|exact Hnear].
  destruct Hshape as [H|H]; [left; exists false; exact H | right; exact H].
Qed.

Lemma inbetween_exact (m e : Z) : inbetween (IZR m * pow2 e) m e loc_Exact.
Proof. unfold inbetween. pose proof (pow2_pos e). field. lra. Qed.

Lemma digits2_mul (mx my : positive) :
  Zpos (digits2_pos mx) + Zpos (digits2_pos my) - 1 <= Zpos (digits2_pos (mx * my)).
Proof.
  pose proof (digits2_bounds mx) as [Hx _].
  pose proof (digits2_bounds my) as [Hy _].
  pose proof (digits2_bounds (mx * my)) as [_ Hxy].
  set (dx := Zpos (digits2_pos mx)) in *. set (dy := Zpos (digits2_pos my)) in *.
  set (d := Zpos (digits2_pos (mx * my))) in *.
  assert (H : 2 ^ (dx - 1 + (dy - 1)) < 2 ^ d).
  { rewrite Z.pow_add_r by lia. rewrite Pos2Z.inj_mul in Hxy.
    apply Z.le_lt_trans with (2 := Hxy). apply Z.mul_le_mono_nonneg; lia. }
  apply Z.pow_lt_mono_r_iff in H; lia.
Qed.

Lemma mul_nearest (x y : float) :
  finite_nonneg x -> finite_nonneg y ->
  (B2R x * B2R y <= pow2 1022)%R ->
  finite_nonneg (x * y) /\ nearest (B2R x * B2R y) (B2R (x * y)).
Proof.
  intros Hx Hy Hb.
  pose proof (FloatAxioms.mul_spec x y) as Hs. unfold SF64mul in Hs.
  destruct Hx as [[sx Hx]|(mx & ex & Hx)]; destruct Hy as [[sy Hy]|(my & ey & Hy)];
    rewrite Hx, Hy in Hs; cbn [SFmul] in Hs.
  - rewrite (B2R_zero _ _ Hx), (B2R_zero _ _ Hs), Rmult_0_l.
    split; [exact (finite_nonneg_zero _ _ Hs) | exact (nearest_exact _ representable_0)].
  - rewrite (B2R_zero _ _ Hx), (B2R_zero _ _ Hs), Rmult_0_l.
    split; [exact (finite_nonneg_zero _ _ Hs) | exact (nearest_exact _ representable_0)].
  - rewrite (B2R_zero _ _ Hy), (B2R_zero _ _ Hs), Rmult_0_r.
    split; [exact (finite_nonneg_zero _ _ Hs) | exact (nearest_exact _ representable_0)].
  - cbn [xorb] in Hs.
    rewrite (B2R_finite _ _ _ Hx), (B2R_finite _ _ _ Hy) in *.
    assert (Hv : (IZR (Zpos mx) * pow2 ex * (IZR (Zpos my) * pow2 ey))%R
                 = (IZR (Zpos (mx * my)) * pow2 (ex + ey))%R).
    { rewrite Pos2Z.inj_mul, mult_IZR, pow2_add. ring. }
    rewrite Hv in *.
    apply (round_aux_double _ _ _ _ _ Hs); [apply inbetween_exact | | exact Hb].
    apply valid_finite in Hx. apply valid_finite in Hy.
    pose proof (digits2_mul mx my) as Hd.
    destruct Hx as [Hcx Hbx]. destruct Hy as [Hcy Hby].
    rewrite fexp_eq in *.
    pose proof (digits2_bounds mx) as [_ Hdx]. pose proof (digits2_bounds my) as [_ Hdy].
    assert (0 < Zpos (digits2_pos mx)) by lia.
    assert (0 < Zpos (digits2_pos my)) by lia.
    lia.
Qed.

Lemma iter_xO (m d : positive) :
  Zpos (Pos.iter xO m d) = Zpos m * 2 ^ Zpos d /\
  Zpos (digits2_pos (Pos.iter xO m d)) = Zpos (digits2_pos m) + Zpos d.
Proof.
  induction d as [|d [IH1 IH2]] using Pos.peano_ind.
  - cbn [Pos.iter digits2_pos]. split; lia.
  - rewrite Pos.iter_succ. cbn [digits2_pos].
    rewrite Pos2Z.inj_xO, IH1, Pos2Z.inj_succ, Z.pow_succ_r by lia.
    split; lia.
Qed.

(** Aligning a mantissa to a smaller exponent keeps the number. *)
Lemma shl_align_spec (mx : positive) (ex ez : Z) :
  ez <= ex ->
  snd (shl_align mx ex ez) = ez /\
  Zpos (fst (shl_align mx ex ez)) = Zpos mx * 2 ^ (ex - ez) /\
  Zpos (digits2_pos (fst (shl_align mx ex ez))) = Zpos (digits2_pos mx) + (ex - ez).
Proof.
  intros Hle. unfold shl_align.
  destruct (ez - ex) as [|d|d] eqn:Hd; cbn [fst snd]; [| lia |].
  - replace (ex - ez) with 0 by lia. rewrite Z.pow_0_r. split; lia.
  - replace (ex - ez) with (Zpos d) by lia.
    destruct (iter_xO mx d) as [H1 H2]. split; [reflexivity|]. split; assumption.
Qed.

Lemma shl_align_value (mx : positive) (ex ez : Z) :
  ez <= ex ->
  (IZR (Zpos (fst (shl_align mx ex ez))) * pow2 ez = IZR (Zpos mx) * pow2 ex)%R.
Proof.
  intros Hle. destruct (shl_align_spec mx ex ez Hle) as (_ & Hm & _).
  rewrite Hm, mult_IZR, <- pow2_IZR by lia.
  rewrite (pow2_split ex ez). ring.
Qed.

(** [binary_round] returns a nearest number of the format. *)
Lemma binary_round_double (z : float) (m : positive) (e : Z) :
  Prim2SF z = binary_round prec emax false m e ->
  (IZR (Zpos m) * pow2 e <= pow2 1022)%R ->
  finite_nonneg z /\ nearest (IZR (Zpos m) * pow2 e) (B2R z).
Proof.
  intros Hz Hb. unfold binary_round in Hz.
  set (f := fexp prec emax (Zpos (digits2_pos m) + e)) in *.
  destruct (Z_le_gt_dec e f) as [Hle|Hgt].
  - assert (Hal : shl_align m e f = (m, e)).
    { unfold shl_align. destruct (f - e) eqn:Hd; try reflexivity. lia. }
    rewrite Hal in Hz.
    apply (round_aux_double _ _ _ _ _ Hz); [apply inbetween_exact | exact Hle | exact Hb].
  - destruct (shl_align_spec m e f) as (He & Hm & Hd); [lia|].
    pose proof (shl_align_value m e f ltac:(lia)) as Hv.
    destruct (shl_align m e f) as [m' e']. cbn [fst snd] in *. subst e'.
    rewrite <- Hv in *.
    apply (round_aux_double _ _ _ _ _ Hz); [apply inbetween_exact | | exact Hb].
    rewrite Hd. replace (Zpos (digits2_pos m) + (e - f) + f)
      with (Zpos (digits2_pos m) + e) by lia.
    fold f. lia.
Qed.

Lemma add_nearest (x y : float) :
  finite_nonneg x -> finite_nonneg y ->
  (B2R x + B2R y <= pow2 1022)%R ->
  finite_nonneg (x + y) /\ nearest (B2R x + B2R y) (B2R (x + y)).
Proof.
  intros Hx Hy Hb.
  pose proof (B2R_representable x Hx) as Hrx.
  pose proof (B2R_representable y Hy) as Hry.
  pose proof (FloatAxioms.add_spec x y) as Hs. unfold SF64add in Hs.
  destruct Hx as [[sx Hx]|(mx & ex & Hx)]; destruct Hy as [[sy Hy]|(my & ey & Hy)];
    rewrite Hx, Hy in Hs; cbn [SFadd] in Hs.
  - rewrite (B2R_zero _ _ Hx), (B2R_zero _ _ Hy), Rplus_0_l.
    assert (Hz : exists s, Prim2SF (x + y) = S754_zero s)
      by (destruct sx, sy; eauto).
    destruct Hz as [s Hz]. rewrite (B2R_zero _ _ Hz).
    split; [exact (finite_nonneg_zero _ _ Hz) | exact (nearest_exact _ representable_0)].
  - rewrite (B2R_zero _ _ Hx), Rplus_0_l.
    rewrite (B2R_finite _ _ _ Hs), <- (B2R_finite _ _ _ Hy).
    split; [right; eauto | exact (nearest_exact _ Hry)].
  - rewrite (B2R_zero _ _ Hy), Rplus_0_r.
    rewrite (B2R_finite _ _ _ Hs), <- (B2R_finite _ _ _ Hx).
    split; [right; eauto | exact (nearest_exact _ Hrx)].
  - cbn [cond_Zopp Z.add binary_normalize] in Hs.
    rewrite (B2R_finite _ _ _ Hx), (B2R_finite _ _ _ Hy) in *.
    set (ez := Z.min ex ey) in *.
    rewrite <- (shl_align_value mx ex ez), <- (shl_align_value my ey ez) in * by lia.
    set (mx' := fst (shl_align mx ex ez)) in *.
    set (my' := fst (shl_align my ey ez)) in *.
    assert (Hv : (IZR (Zpos mx') * pow2 ez + IZR (Zpos my') * pow2 ez)%R
                 = (IZR (Zpos (mx' + my')) * pow2 ez)%R).
    { rewrite Pos2Z.inj_add, plus_IZR. ring. }
    rewrite Hv in *.
    exact (binary_round_double _ _ _ Hs Hb).
Qed.

Lemma sub_nearest (x y : float) :
  finite_nonneg x -> finite_nonneg y ->
  (B2R y <= B2R x)%R -> (B2R x <= pow2 1022)%R ->
  finite_nonneg (x - y) /\ nearest (B2R x - B2R y) (B2R (x - y)).
Proof.
  intros Hx Hy Hle Hb.
  pose proof (B2R_representable x Hx) as Hrx.
  pose proof (B2R_nonneg y Hy) as Hy0.
  pose proof (FloatAxioms.sub_spec x y) as Hs. unfold SF64sub in Hs.
  destruct (finite_nonneg_cases y Hy) as [Hvy|(my & ey & Hy' & Hvy & Hpy)].
  - (* y is a zero *)
    assert (Hyz : exists sy, Prim2SF y = S754_zero sy).
    { destruct Hy as [Hy|(m & e & Hy)]; [exact Hy|].
      rewrite (B2R_finite _ _ _ Hy) in Hvy. pose proof (pow2_pos e).
      assert (0 < IZR (Zpos m))%R by (apply IZR_lt; lia). nra. }
    destruct Hyz as [sy Hyz]. rewrite Hvy, Rminus_0_r.
    destruct Hx as [[sx Hx]|(mx & ex & Hx)]; rewrite Hx, Hyz in Hs; cbn [SFsub] in Hs.
    + assert (Hz : exists s, Prim2SF (x - y) = S754_zero s)
        by (destruct sx, sy; eauto).
      destruct Hz as [s Hz]. rewrite (B2R_zero _ _ Hz), (B2R_zero _ _ Hx).
      split; [exact (finite_nonneg_zero _ _ Hz) | exact (nearest_exact _ representable_0)].
    + rewrite (B2R_finite _ _ _ Hs), <- (B2R_finite _ _ _ Hx).
      split; [right; eauto | exact (nearest_exact _ Hrx)].
  - (* y is positive, and so is x *)
    destruct (finite_nonneg_cases x Hx) as [Hvx|(mx & ex & Hx' & Hvx & Hpx)]; [lra|].
    rewrite Hx', Hy' in Hs. cbn [SFsub cond_Zopp] in Hs.
    rewrite Hvx, Hvy in *.
    set (ez := Z.min ex ey) in *.
    rewrite <- (shl_align_value mx ex ez), <- (shl_align_value my ey ez) in * by lia.
    set (mx' := fst (shl_align mx ex ez)) in *.
    set (my' := fst (shl_align my ey ez)) in *.
    assert (Hv : (IZR (Zpos mx') * pow2 ez - IZR (Zpos my') * pow2 ez)%R
                 = (IZR (Zpos mx' - Zpos my') * pow2 ez)%R).
    { rewrite minus_IZR. ring. }
    rewrite Hv in *.
    pose proof (pow2_pos ez) as HP.
    assert (Hd : 0 <= Zpos mx' - Zpos my').
    { apply le_IZR. rewrite minus_IZR.
      assert (IZR (Zpos my') * pow2 ez <= IZR (Zpos mx') * pow2 ez)%R by lra.
      apply Rmult_le_reg_r in H; [lra | exact HP]. }
    destruct (Zpos mx' - Zpos my') as [|d|d] eqn:Hdiff; [| |lia];
      cbn [binary_normalize] in Hs.
    + rewrite (B2R_zero _ _ Hs), Rmult_0_l.
      split; [exact (finite_nonneg_zero _ _ Hs) | exact (nearest_exact _ representable_0)].
    + apply (binary_round_double _ _ _ Hs).
      assert (IZR (Zpos d) * pow2 ez <= IZR (Zpos mx') * pow2 ez)%R.
      { apply Rmult_le_compat_r; [lra|]. apply IZR_le. lia. }
      lra.
Qed.

Lemma sq_lt (a b : R) : (0 <= a)%R -> (0 <= b)%R -> (a * a < b * b)%R -> (a < b)%R.
Proof.
  intros Ha Hb H. destruct (Rlt_dec a b) as [Hlt|Hge]; [exact Hlt|].
  apply Rnot_lt_le in Hge. assert (b * b <= a * a)%R by (apply Rmult_le_compat; lra). lra.
Qed.

(** The integer square root with its remainder locates the square root. *)
Lemma sqrt_core_spec (mx : positive) (ex : Z) :
  exists (q : positive) (e' : Z) (l : location),
    SFsqrt_core_binary prec emax (Zpos mx) ex = (Zpos q, e', l) /\
    inbetween (R_sqrt.sqrt (IZR (Zpos mx) * pow2 ex)) (Zpos q) e' l /\
    e' <= fexp prec emax (Zpos (digits2_pos q) + e').
Proof.
  unfold SFsqrt_core_binary. cbn [Zdigits2].
  set (d := Zpos (digits2_pos mx)).
  set (e' := Z.min (fexp prec emax (Z.div2 (d + ex + 1))) (Z.div2 ex)).
  set (s := ex - 2 * e').
  assert (Hs : 0 <= s).
  { unfold s, e'. pose proof (Z.div2_div ex) as H2. 
    assert (2 * Z.div2 ex <= ex) by (rewrite H2; Z.div_mod_to_equations; lia). lia. }
  set (m' := match s with
             | 0 => Zpos mx
             | Zpos _ => Z.shiftl (Zpos mx) s
             | Zneg _ => 0
             end).
  assert (Hm' : m' = Zpos mx * 2 ^ s).
  { unfold m'. destruct s as [|p|p] eqn:Hsp; [lia| |lia].
    apply Z.shiftl_mul_pow2. lia. }
  assert (Hpow : 0 < 2 ^ s) by (apply Z.pow_pos_nonneg; lia).
  assert (Hm'pos : 0 < m') by nia.
  pose proof (Z.sqrtrem_spec m' ltac:(lia)) as Hsq.
  destruct (Z.sqrtrem m') as [q r]. destruct Hsq as [Hqr Hr].
  assert (Hq : 0 < q) by nia.
  destruct q as [|q|q]; [lia| |lia].
  exists q, e'. eexists. split; [reflexivity|].
  (* the real square root, scaled *)
  pose proof (pow2_pos e') as HP.
  assert (Hx : (IZR (Zpos mx) * pow2 ex)%R = (IZR m' * (pow2 e' * pow2 e'))%R).
  { rewrite Hm', mult_IZR, <- (pow2_IZR s), <- pow2_add by lia.
    rewrite Rmult_assoc, <- pow2_add. do 2 f_equal. unfold s. lia. }
  assert (Hm'R : (0 < IZR m')%R) by (apply IZR_lt; lia).
  assert (Hy : (R_sqrt.sqrt (IZR (Zpos mx) * pow2 ex) / pow2 e')%R = R_sqrt.sqrt (IZR m')).
  { rewrite Hx, sqrt_mult, sqrt_square by nra. field. lra. }
  set (y := R_sqrt.sqrt (IZR m')) in *.
  assert (Hy0 : (0 <= y)%R) by apply sqrt_pos.
  assert (Hyy : (y * y)%R = (IZR (Zpos q) * IZR (Zpos q) + IZR r)%R).
  { unfold y. rewrite sqrt_sqrt by lra. rewrite Hqr, plus_IZR, mult_IZR. reflexivity. }
  assert (HqR : (1 <= IZR (Zpos q))%R) by (apply IZR_le; lia).
  split.
  - unfold inbetween. cbv zeta. rewrite Hy.
    destruct (Z.eqb_spec r 0) as [Hr0|Hr0].
    + subst r. unfold y. rewrite Hqr, Z.add_0_r, mult_IZR. apply sqrt_square. lra.
    + assert (Hr1 : (1 <= IZR r)%R) by (apply IZR_le; lia).
      assert (Hr2 : (IZR r <= 2 * IZR (Zpos q))%R)
        by (rewrite <- mult_IZR; apply IZR_le; lia).
      split.
      * split; apply sq_lt; nra.
      * destruct (Z.leb_spec r (Zpos q)) as [Hle|Hgt].
        -- apply IZR_le in Hle. apply sq_lt; nra.
        -- assert (Hgt' : (IZR (Zpos q) + 1 <= IZR r)%R)
             by (rewrite <- plus_IZR; apply IZR_le; lia).
           apply sq_lt; nra.
  - rewrite fexp_eq.
    destruct (Z_le_gt_dec e' (-1074)) as [Hlow|Hhigh]; [lia|].
    assert (He' : 2 * e' <= d + ex - 105).
    { unfold e' in *. rewrite fexp_eq in *.
      pose proof (Z.div2_div (d + ex + 1)) as H2.
      assert (2 * Z.div2 (d + ex + 1) <= d + ex + 1)
        by (rewrite H2; Z.div_mod_to_equations; lia).
      lia. }
    pose proof (digits2_bounds mx) as [Hdlo _]. fold d in Hdlo.
    assert (H104 : 2 ^ 104 <= m').
    { rewrite Hm'. apply Z.le_trans with (2 ^ (d - 1) * 2 ^ s).
      - rewrite <- Z.pow_add_r by lia. apply Z.pow_le_mono_r; unfold s; lia.
      - apply Z.mul_le_mono_nonneg_r; lia. }
    assert (Hq52 : 2 ^ 52 <= Zpos q).
    { destruct (Z_le_gt_dec (2 ^ 52) (Zpos q)) as [Hok|Hbad]; [exact Hok|].
      assert (Zpos q + 1 <= 2 ^ 52) by lia.
      assert ((Zpos q + 1) * (Zpos q + 1) <= 2 ^ 52 * 2 ^ 52) by (apply Z.mul_le_mono_nonneg; lia).
      change (2 ^ 52 * 2 ^ 52) with (2 ^ 104) in *. nia. }
    pose proof (digits2_bounds q) as [_ Hdq].
    assert (H53 : 2 ^ 52 < 2 ^ Zpos (digits2_pos q)) by lia.
    apply Z.pow_lt_mono_r_iff in H53; lia.
Qed.

Lemma sqrt_nearest (x : float) :
  finite_nonneg x -> (B2R x <= pow2 1022)%R ->
  finite_nonneg (PrimFloat.sqrt x) /\
  nearest (R_sqrt.sqrt (B2R x)) (B2R (PrimFloat.sqrt x)).
Proof.
  intros Hx Hb.
  pose proof (FloatAxioms.sqrt_spec x) as Hs. unfold SF64sqrt in Hs.
  destruct Hx as [[sx Hx]|(mx & ex & Hx)]; rewrite Hx in Hs; cbn [SFsqrt] in Hs.
  - rewrite (B2R_zero _ _ Hx), (B2R_zero _ _ Hs), sqrt_0.
    split; [exact (finite_nonneg_zero _ _ Hs) | exact (nearest_exact _ representable_0)].
  - rewrite (B2R_finite _ _ _ Hx) in *.
    destruct (sqrt_core_spec mx ex) as (q & e' & l & Hcore & Hin & Hle).
    rewrite Hcore in Hs.
    apply (round_aux_double _ _ _ _ _ Hs Hin Hle).
    apply Rle_trans with (R_sqrt.sqrt (pow2 1022)); [apply sqrt_le_1_alt; exact Hb|].
    replace (pow2 1022) with (pow2 511 * pow2 511)%R by (rewrite <- pow2_add; reflexivity).
    pose proof (pow2_pos 511). rewrite sqrt_square by lra.
    rewrite <- pow2_add. apply pow2_le. lia.
Qed.

(** *** Consequences of rounding to a nearest number *)

Lemma nearest_ge (x v f : R) :
  nearest x v -> representable f -> (f <= x)%R -> (f <= v)%R.
Proof.
  intros [_ H] Hf Hle. specialize (H f Hf).
  destruct (Rle_dec f v) as [Hok|Hbad]; [exact Hok|]. split_Rabs; lra.
Qed.

Lemma nearest_le (x v f : R) :
  nearest x v -> representable f -> (x <= f)%R -> (v <= f)%R.
Proof.
  intros [_ H] Hf Hle. specialize (H f Hf).
  destruct (Rle_dec v f) as [Hok|Hbad]; [exact Hok|]. split_Rabs; lra.
Qed.

Lemma nearest_mono (x1 v1 x2 v2 : R) :
  nearest x1 v1 -> nearest x2 v2 -> (x1 < x2)%R -> (v1 <= v2)%R.
Proof.
  intros [Hr1 H1] [Hr2 H2] Hlt.
  specialize (H1 v2 Hr2). specialize (H2 v1 Hr1).
  destruct (Rle_dec v1 v2) as [Hok|Hbad]; [exact Hok|]. split_Rabs; lra.
Qed.

Lemma nearest_of_representable (x v : R) : nearest x v -> representable x -> v = x.
Proof.
  intros [_ H] Hx. specialize (H x Hx).
  replace (x - x)%R with 0%R in H by ring. rewrite Rabs_R0 in H.
  split_Rabs; lra.
Qed.

Lemma representable_scaled (m e : Z) :
  0 <= m <= 2 ^ 53 -> -1074 <= e <= 970 -> representable (IZR m * pow2 e).
Proof.
  intros Hm He. destruct (Z.eq_dec m (2 ^ 53)) as [->|Hne].
  - exists (2 ^ 52), (e + 1). split; [lia|]. split; [lia|].
    rewrite pow2_succ.
    assert (H2 : IZR (2 ^ 53) = (2 * IZR (2 ^ 52))%R) by (rewrite <- mult_IZR; reflexivity).
    rewrite H2. ring.
  - exists m, e. split; [lia|]. split; [lia | reflexivity].
Qed.

(** A number of the format is a multiple of [2^e] or lies below
    [2^(52 + e)]. *)
Lemma representable_grid (f : R) (e : Z) :
  representable f ->
  (exists K : Z, 0 <= K /\ f = (IZR K * pow2 e)%R) \/ (f < pow2 (52 + e))%R.
Proof.
  intros (mf & ef & Hmf & Hef & ->).
  destruct (Z_le_gt_dec e ef) as [Hge|Hlt].
  - left. exists (mf * 2 ^ (ef - e)). split.
    + apply Z.mul_nonneg_nonneg; [lia|]. apply Z.pow_nonneg. lia.
    + rewrite mult_IZR, <- pow2_IZR by lia. rewrite (pow2_split ef e). ring.
  - right. apply Rlt_le_trans with (pow2 (53 + ef)); [|apply pow2_le; lia].
    rewrite pow2_add, (pow2_IZR 53) by lia.
    pose proof (pow2_pos ef).
    assert (IZR mf < IZR (2 ^ 53))%R by (apply IZR_lt; lia). nra.
Qed.

(** There is no number of the format between [(m - 1) * 2^e] and
    [m * 2^e], nor between [m * 2^e] and [(m + 1) * 2^e], for a mantissa
    [m] of 53 bits. *)
Lemma representable_below (f : R) (m e : Z) :
  representable f -> 2 ^ 52 < m ->
  (f < IZR m * pow2 e)%R -> (f <= (IZR m - 1) * pow2 e)%R.
Proof.
  intros Hf Hm Hlt. pose proof (pow2_pos e) as HP.
  destruct (representable_grid f e Hf) as [(K & HK & ->)|Hsmall].
  - assert (HKm : K < m).
    { apply lt_IZR. apply Rmult_lt_reg_r with (pow2 e); assumption. }
    assert (HK1 : (IZR K <= IZR m - 1)%R)
      by (rewrite <- minus_IZR; apply IZR_le; lia).
    apply Rmult_le_compat_r; lra.
  - rewrite pow2_add, (pow2_IZR 52) in Hsmall by lia.
    assert (HM : (IZR (2 ^ 52) <= IZR m - 1)%R)
      by (rewrite <- minus_IZR; apply IZR_le; lia).
    nra.
Qed.

Lemma representable_above (f : R) (m e : Z) :
  representable f -> 2 ^ 52 <= m ->
  (IZR m * pow2 e < f)%R -> ((IZR m + 1) * pow2 e <= f)%R.
Proof.
  intros Hf Hm Hlt. pose proof (pow2_pos e) as HP.
  destruct (representable_grid f e Hf) as [(K & HK & ->)|Hsmall].
  - assert (HKm : m < K).
    { apply lt_IZR. apply Rmult_lt_reg_r with (pow2 e); assumption. }
    assert (HK1 : (IZR m + 1 <= IZR K)%R)
      by (rewrite <- plus_IZR; apply IZR_le; lia).
    apply Rmult_le_compat_r; lra.
  - rewrite pow2_add, (pow2_IZR 52) in Hsmall by lia.
    assert (HM : (IZR (2 ^ 52) <= IZR m)%R) by (apply IZR_le; lia).
    nra.
Qed.

(** A double of at least [2^(-1021)] has a mantissa of 53 bits. *)
Lemma normal_form (x : float) :
  finite_nonneg x -> (pow2 (-1021) <= B2R x)%R ->
  exists m e : Z,
    B2R x = (IZR m * pow2 e)%R /\ 2 ^ 52 <= m < 2 ^ 53 /\ -1073 <= e <= 971.
Proof.
  intros Hx Hb. pose proof (pow2_pos (-1021)) as H0.
  destruct (finite_nonneg_cases x Hx) as [Hz|(m & e & Hs & Hv & _)]; [lra|].
  apply valid_finite_bounds in Hs. destruct Hs as (He & Hm & Hn).
  exists (Zpos m), e. split; [exact Hv|].
  assert (He' : -1074 < e).
  { destruct (Z.eq_dec e (-1074)) as [->|Hne]; [|lia].
    rewrite Hv in Hb. assert (H53 : (IZR (Zpos m) < IZR (2 ^ 53))%R) by (apply IZR_lt; lia).
    rewrite <- (pow2_IZR 53) in H53 by lia.
    pose proof (pow2_pos (-1074)) as HP.
    assert (Hlt : (IZR (Zpos m) * pow2 (-1074) < pow2 53 * pow2 (-1074))%R) by nra.
    rewrite <- pow2_add in Hlt. change (53 + -1074) with (-1021) in Hlt. lra. }
  specialize (Hn He'). lia.
Qed.

(** A double below 1 is at most [1 - 2^(-53)]. *)
Lemma below_one (u : float) :
  finite_nonneg u -> (B2R u < 1)%R -> (B2R u <= 1 - pow2 (-53))%R.
Proof.
  intros Hu Hlt. pose proof (pow2_pos (-53)) as H53.
  assert (Hhalf : (pow2 (-53) <= / 2)%R).
  { apply Rle_trans with (pow2 (-1)); [apply pow2_le; lia|].
    pose proof (pow2_add (-1) 1) as Hm1. rewrite pow2_1 in Hm1.
    change (-1 + 1) with 0 in Hm1. rewrite pow2_0 in Hm1. lra. }
  destruct (finite_nonneg_cases u Hu) as [Hz|(m & e & Hs & Hv & _)]; [lra|].
  apply valid_finite_bounds in Hs. destruct Hs as (He & Hm & _).
  rewrite Hv in *. pose proof (pow2_pos e) as HP.
  assert (H1 : pow2 0 = (pow2 53 * pow2 (-53))%R) by (rewrite <- pow2_add; reflexivity).
  rewrite pow2_0 in H1.
  destruct (Z_le_gt_dec (-53) e) as [Hge|Hsmall].
  - (* a multiple of 2^(-53) *)
    rewrite (pow2_split e (-53)), (pow2_IZR (e - -53)) in * by lia.
    rewrite <- Rmult_assoc, <- mult_IZR in *.
    set (N := Zpos m * 2 ^ (e - -53)) in *.
    assert (HN : N < 2 ^ 53).
    { apply lt_IZR. rewrite <- (pow2_IZR 53) by lia. nra. }
    assert (HN' : (IZR N <= IZR (2 ^ 53) - 1)%R)
      by (rewrite <- minus_IZR; apply IZR_le; lia).
    rewrite <- (pow2_IZR 53) in HN' by lia. nra.
  - assert (Hm' : (IZR (Zpos m) < pow2 53)%R)
      by (rewrite pow2_IZR by lia; apply IZR_lt; lia).
    assert (He' : (pow2 e <= pow2 (-54))%R) by (apply pow2_le; lia).
    assert (H54 : (pow2 53 * pow2 (-54))%R = (/ 2)%R).
    { rewrite <- pow2_add. change (53 + -54) with (-1).
      pose proof (pow2_add (-1) 1) as Hm1. rewrite pow2_1 in Hm1.
      change (-1 + 1) with 0 in Hm1. rewrite pow2_0 in Hm1. lra. }
    assert (IZR (Zpos m) * pow2 e <= pow2 53 * pow2 (-54))%R.
    { apply Rmult_le_compat; try lra. apply IZR_le. lia. }
    lra.
Qed.

(** A difference of two numbers of the format that is below [2^(-1021)]
    is a number of the format. *)
Lemma representable_small_difference (p q : R) :
  representable p -> representable q -> (p <= q)%R -> (q - p < pow2 (-1021))%R ->
  representable (q - p).
Proof.
  intros (mp & ep & Hmp & Hep & ->) (mq & eq & Hmq & Heq & ->) Hle Hsmall.
  rewrite (pow2_split ep (-1074)), (pow2_split eq (-1074)) in *.
  rewrite (pow2_IZR (ep - -1074)), (pow2_IZR (eq - -1074)) in * by lia.
  rewrite <- !Rmult_assoc, <- !mult_IZR in *.
  set (Kp := mp * 2 ^ (ep - -1074)) in *. set (Kq := mq * 2 ^ (eq - -1074)) in *.
  pose proof (pow2_pos (-1074)) as HP.
  replace (IZR Kq * pow2 (-1074) - IZR Kp * pow2 (-1074))%R
    with (IZR (Kq - Kp) * pow2 (-1074))%R in * by (rewrite minus_IZR; ring).
  exists (Kq - Kp), (-1074). split; [|split; [lia | reflexivity]].
  split.
  - apply le_IZR. rewrite minus_IZR.
    apply Rmult_le_reg_r with (pow2 (-1074)); [exact HP|]. lra.
  - apply lt_IZR. rewrite <- (pow2_IZR 53) by lia.
    apply Rmult_lt_reg_r with (pow2 (-1074)); [exact HP|].
    rewrite <- (pow2_add 53). exact Hsmall.
Qed.

(** *** The square and its square root *)

Lemma pow2_double (e : Z) : pow2 (2 * e) = (pow2 e * pow2 e)%R.
Proof. rewrite <- pow2_add. f_equal. lia. Qed.

(** The rounded square of a double with a 53-bit mantissa [m] and exponent
    [e] is within [2^(52 + 2e)] of the square, and is the square itself
    when the double is a power of two. *)
Lemma square_error (a : R) (m e : Z) (P : R) :
  a = (IZR m * pow2 e)%R -> 2 ^ 52 <= m < 2 ^ 53 -> -563 <= e ->
  (a <= pow2 511)%R ->
  nearest (a * a) P ->
  (Rabs (P - a * a) <= IZR (2 ^ 52) * (pow2 e * pow2 e))%R /\
  (m = 2 ^ 52 -> P = (a * a)%R).
Proof.
  intros Ha Hm He Hbig Hn.
  pose proof (pow2_pos e) as HE.
  assert (HEE : (0 < pow2 e * pow2 e)%R) by nra.
  assert (He459 : e <= 459).
  { destruct (Z_le_gt_dec e 459) as [Hok|Hbad]; [exact Hok|].
    assert (H1 : (pow2 460 <= pow2 e)%R) by (apply pow2_le; lia).
    assert (H2 : (IZR (2 ^ 52) <= IZR m)%R) by (apply IZR_le; lia).
    rewrite <- (pow2_IZR 52) in H2 by lia.
    pose proof (pow2_pos 460). pose proof (pow2_pos 52).
    assert (H3 : (pow2 52 * pow2 460 <= IZR m * pow2 e)%R) by (apply Rmult_le_compat; lra).
    rewrite <- pow2_add in H3.
    assert (H4 : (pow2 511 < pow2 (52 + 460))%R) by (apply pow2_lt; lia). lra. }
  assert (Hexact : m = 2 ^ 52 -> P = (a * a)%R).
  { intros ->. apply (nearest_of_representable _ _ Hn).
    exists (2 ^ 52), (52 + 2 * e). split; [lia|]. split; [lia|].
    rewrite Ha, pow2_add, pow2_double, (pow2_IZR 52) by lia. ring. }
  split; [|exact Hexact].
  destruct (Z.eq_dec m (2 ^ 52)) as [Heq|Hne].
  { rewrite (Hexact Heq). replace (a * a - a * a)%R with 0%R by ring.
    rewrite Rabs_R0. apply Rmult_le_pos; [apply IZR_le; lia | lra]. }
  assert (He458 : e <= 458).
  { destruct (Z_le_gt_dec e 458) as [Hok|Hbad]; [exact Hok|].
    assert (e = 459) by lia. subst e.
    assert (H2 : (IZR (2 ^ 52) + 1 <= IZR m)%R)
      by (rewrite <- plus_IZR; apply IZR_le; lia).
    rewrite <- (pow2_IZR 52) in H2 by lia.
    pose proof (pow2_add 52 459) as H3. change (52 + 459) with 511 in H3.
    pose proof (pow2_pos 459). nra. }
  set (k := m * m / 2 ^ 53). set (r := m * m mod 2 ^ 53).
  assert (Hkr : m * m = k * 2 ^ 53 + r)
    by (rewrite (Z.mul_comm k); unfold k, r; apply Z.div_mod; lia).
  assert (Hr : 0 <= r < 2 ^ 53) by (apply Z.mod_pos_bound; lia).
  assert (Hmm : m * m < 2 ^ 53 * 2 ^ 53) by (apply Z.mul_lt_mono_nonneg; lia).
  assert (Hk : 0 <= k < 2 ^ 53).
  { split; [apply Z.div_pos; nia|]. apply Z.div_lt_upper_bound; lia. }
  assert (Hx : (a * a)%R = (IZR k * pow2 (53 + 2 * e) + IZR r * (pow2 e * pow2 e))%R).
  { rewrite Ha, pow2_add, pow2_double, (pow2_IZR 53) by lia.
    replace (IZR m * pow2 e * (IZR m * pow2 e))%R
      with (IZR (m * m) * (pow2 e * pow2 e))%R by (rewrite mult_IZR; ring).
    rewrite Hkr, plus_IZR, mult_IZR. ring. }
  assert (H53 : pow2 (53 + 2 * e) = (IZR (2 ^ 53) * (pow2 e * pow2 e))%R)
    by (rewrite pow2_add, pow2_double, (pow2_IZR 53) by lia; reflexivity).
  assert (Htwo : IZR (2 ^ 53) = (2 * IZR (2 ^ 52))%R) by (rewrite <- mult_IZR; reflexivity).
  assert (H52 : (0 < IZR (2 ^ 52))%R) by (apply IZR_lt; lia).
  destruct Hn as [_ Hn].
  destruct (Z_le_gt_dec r (2 ^ 52)) as [Hlow|Hhigh].
  - assert (Hf : representable (IZR k * pow2 (53 + 2 * e)))
      by (exists k, (53 + 2 * e); split; [lia|]; split; [lia | reflexivity]).
    specialize (Hn _ Hf). apply Rle_trans with (1 := Hn).
    rewrite Hx.
    replace (IZR k * pow2 (53 + 2 * e) -
             (IZR k * pow2 (53 + 2 * e) + IZR r * (pow2 e * pow2 e)))%R
      with (- (IZR r * (pow2 e * pow2 e)))%R by ring.
    rewrite Rabs_Ropp, Rabs_pos_eq.
    + apply Rmult_le_compat_r; [lra | apply IZR_le; lia].
    + apply Rmult_le_pos; [apply IZR_le; lia | lra].
  - assert (Hf : representable (IZR (k + 1) * pow2 (53 + 2 * e)))
      by (apply representable_scaled; lia).
    specialize (Hn _ Hf). apply Rle_trans with (1 := Hn).
    rewrite Hx, plus_IZR, H53.
    replace ((IZR k + 1) * (IZR (2 ^ 53) * (pow2 e * pow2 e)) -
             (IZR k * (IZR (2 ^ 53) * (pow2 e * pow2 e)) + IZR r * (pow2 e * pow2 e)))%R
      with ((IZR (2 ^ 53) - IZR r) * (pow2 e * pow2 e))%R by ring.
    assert (Hr' : (IZR (2 ^ 52) + 1 <= IZR r)%R)
      by (rewrite <- plus_IZR; apply IZR_le; lia).
    assert (Hr'' : (IZR r < IZR (2 ^ 53))%R) by (apply IZR_lt; lia).
    rewrite Rabs_pos_eq by (apply Rmult_le_pos; lra).
    apply Rmult_le_compat_r; lra.
Qed.

(** The rounded square root of a number that is at least the rounded
    square of [a] is at least [a]. *)
Lemma sqrt_of_square_lower (a : R) (m e : Z) (P S b : R) :
  a = (IZR m * pow2 e)%R -> 2 ^ 52 <= m < 2 ^ 53 -> -563 <= e ->
  (a <= pow2 511)%R ->
  nearest (a * a) P -> (P <= S)%R -> (0 <= S)%R ->
  nearest (R_sqrt.sqrt S) b ->
  (a <= b)%R.
Proof.
  intros Ha Hm He Hbig HP HPS HS0 Hb.
  pose proof (pow2_pos e) as HE.
  assert (H52 : (0 < IZR (2 ^ 52))%R) by (apply IZR_lt; lia).
  assert (Hmu : (IZR (2 ^ 52) <= IZR m)%R) by (apply IZR_le; lia).
  assert (Ha0 : (0 < a)%R) by (rewrite Ha; apply Rmult_lt_0_compat; lra).
  assert (He459 : e <= 459).
  { destruct (Z_le_gt_dec e 459) as [Hok|Hbad]; [exact Hok|].
    assert (H1 : (pow2 460 <= pow2 e)%R) by (apply pow2_le; lia).
    rewrite <- (pow2_IZR 52) in Hmu by lia.
    pose proof (pow2_pos 460). pose proof (pow2_pos 52).
    assert (H3 : (pow2 52 * pow2 460 <= IZR m * pow2 e)%R) by (apply Rmult_le_compat; lra).
    rewrite <- pow2_add in H3.
    assert (H4 : (pow2 511 < pow2 (52 + 460))%R) by (apply pow2_lt; lia). lra. }
  assert (Hra : representable a).
  { rewrite Ha. exists m, e. split; [lia|]. split; [lia | reflexivity]. }
  destruct (square_error a m e P Ha Hm He Hbig HP) as [Herr Hexact].
  set (Y := R_sqrt.sqrt S) in *.
  assert (HY0 : (0 <= Y)%R) by apply sqrt_pos.
  assert (HYY : (Y * Y)%R = S) by (apply sqrt_sqrt; exact HS0).
  destruct (Z.eq_dec m (2 ^ 52)) as [Heq|Hne].
  - specialize (Hexact Heq). subst P.
    apply (nearest_ge _ _ _ Hb Hra).
    apply Rle_trans with (R_sqrt.sqrt (a * a)); [rewrite sqrt_square; lra|].
    apply sqrt_le_1_alt. exact HPS.
  - destruct (Rle_dec a b) as [Hok|Hbad]; [exact Hok|]. exfalso.
    apply Rnot_le_lt in Hbad.
    assert (Hbelow : (b <= (IZR m - 1) * pow2 e)%R).
    { apply representable_below; [apply Hb | lia | rewrite <- Ha; exact Hbad]. }
    assert (Hmu1 : (IZR (2 ^ 52) + 1 <= IZR m)%R)
      by (rewrite <- plus_IZR; apply IZR_le; lia).
    destruct Hb as [_ Hb]. specialize (Hb a Hra).
    assert (HYt : (Y <= a - pow2 e / 2)%R).
    { rewrite Ha in *. split_Rabs; lra. }
    assert (Ht0 : (0 <= a - pow2 e / 2)%R) by (rewrite Ha; nra).
    assert (HS' : (S <= (a - pow2 e / 2) * (a - pow2 e / 2))%R).
    { rewrite <- HYY. apply Rmult_le_compat; lra. }
    assert (HPlow : (a * a - IZR (2 ^ 52) * (pow2 e * pow2 e) <= P)%R)
      by (split_Rabs; lra).
    set (E2 := (pow2 e * pow2 e)%R) in *.
    assert (HE2 : (0 < E2)%R) by (unfold E2; nra).
    assert (HaE : (a * pow2 e)%R = (IZR m * E2)%R) by (rewrite Ha; unfold E2; ring).
    assert (Hprod : ((IZR (2 ^ 52) + 1) * E2 <= IZR m * E2)%R)
      by (apply Rmult_le_compat_r; lra).
    replace ((a - pow2 e / 2) * (a - pow2 e / 2))%R
      with (a * a - a * pow2 e + E2 / 4)%R in HS' by (unfold E2; field).
    lra.
Qed.

(** The rounded square root of a number that is at most the rounded
    square of [c] is at most [c]. *)
Lemma sqrt_of_square_upper (c : R) (m e : Z) (Q S b : R) :
  c = (IZR m * pow2 e)%R -> 2 ^ 52 <= m < 2 ^ 53 -> -563 <= e ->
  (c <= pow2 511)%R ->
  nearest (c * c) Q -> (S <= Q)%R -> (0 <= S)%R ->
  nearest (R_sqrt.sqrt S) b ->
  (b <= c)%R.
Proof.
  intros Hc Hm He Hbig HQ HSQ HS0 Hb.
  pose proof (pow2_pos e) as HE.
  assert (H52 : (0 < IZR (2 ^ 52))%R) by (apply IZR_lt; lia).
  assert (Hmu : (IZR (2 ^ 52) <= IZR m)%R) by (apply IZR_le; lia).
  assert (Hc0 : (0 < c)%R) by (rewrite Hc; apply Rmult_lt_0_compat; lra).
  assert (He459 : e <= 459).
  { destruct (Z_le_gt_dec e 459) as [Hok|Hbad]; [exact Hok|].
    assert (H1 : (pow2 460 <= pow2 e)%R) by (apply pow2_le; lia).
    rewrite <- (pow2_IZR 52) in Hmu by lia.
    pose proof (pow2_pos 460). pose proof (pow2_pos 52).
    assert (H3 : (pow2 52 * pow2 460 <= IZR m * pow2 e)%R) by (apply Rmult_le_compat; lra).
    rewrite <- pow2_add in H3.
    assert (H4 : (pow2 511 < pow2 (52 + 460))%R) by (apply pow2_lt; lia). lra. }
  assert (Hrc : representable c).
  { rewrite Hc. exists m, e. split; [lia|]. split; [lia | reflexivity]. }
  destruct (square_error c m e Q Hc Hm He Hbig HQ) as [Herr _].
  set (Y := R_sqrt.sqrt S) in *.
  assert (HY0 : (0 <= Y)%R) by apply sqrt_pos.
  assert (HYY : (Y * Y)%R = S) by (apply sqrt_sqrt; exact HS0).
  destruct (Rle_dec b c) as [Hok|Hbad]; [exact Hok|]. exfalso.
  apply Rnot_le_lt in Hbad.
  assert (Habove : ((IZR m + 1) * pow2 e <= b)%R).
  { apply representable_above; [apply Hb | lia | rewrite <- Hc; exact Hbad]. }
  destruct Hb as [_ Hb]. specialize (Hb c Hrc).
  assert (HYt : (c + pow2 e / 2 <= Y)%R).
  { rewrite Hc in *. split_Rabs; lra. }
  assert (HS' : ((c + pow2 e / 2) * (c + pow2 e / 2) <= S)%R).
  { rewrite <- HYY. apply Rmult_le_compat; lra. }
  assert (HQup : (Q <= c * c + IZR (2 ^ 52) * (pow2 e * pow2 e))%R)
    by (split_Rabs; lra).
  set (E2 := (pow2 e * pow2 e)%R) in *.
  assert (HE2 : (0 < E2)%R) by (unfold E2; nra).
  assert (HcE : (c * pow2 e)%R = (IZR m * E2)%R) by (rewrite Hc; unfold E2; ring).
  assert (Hprod : (IZR (2 ^ 52) * E2 <= IZR m * E2)%R)
    by (apply Rmult_le_compat_r; lra).
  replace ((c + pow2 e / 2) * (c + pow2 e / 2))%R
    with (c * c + c * pow2 e + E2 / 4)%R in HS' by (unfold E2; field).
  lra.
Qed.

(** *** The sum under the square root *)

(** With [d] the rounded difference [q - p] and [mm] the rounded product
    of [d] and a factor below 1, the sum [p + mm] does not exceed [q]. *)
Lemma sum_below (p q d w mm : R) :
  representable p -> representable q -> (p <= q)%R ->
  nearest (q - p) d ->
  ((pow2 (-1021) <= d)%R ->
   exists m e : Z, d = (IZR m * pow2 e)%R /\ 2 ^ 52 <= m < 2 ^ 53 /\ -1073 <= e <= 971) ->
  (0 <= w <= 1 - pow2 (-53))%R ->
  nearest (d * w) mm ->
  (p + mm <= q)%R.
Proof.
  intros Hp Hq Hpq Hd Hnorm Hw Hmm.
  pose proof (pow2_pos (-53)) as H53.
  assert (Hd0 : (0 <= d)%R) by (apply (nearest_ge _ _ _ Hd representable_0); lra).
  assert (Hmd : (mm <= d)%R) by (apply (nearest_le _ _ _ Hmm (proj1 Hd)); nra).
  destruct (Rle_dec d (q - p)) as [Hle|Hgt]; [lra|].
  apply Rnot_le_lt in Hgt.
  (* the difference was rounded up: it is not small *)
  assert (Hbig : (pow2 (-1021) <= q - p)%R).
  { destruct (Rle_dec (pow2 (-1021)) (q - p)) as [Hok|Hbad]; [exact Hok|].
    apply Rnot_le_lt in Hbad.
    pose proof (nearest_of_representable _ _ Hd
                  (representable_small_difference p q Hp Hq Hpq Hbad)). lra. }
  destruct Hnorm as (m & e & Hde & Hm & He); [lra|].
  pose proof (pow2_pos e) as HE.
  assert (H52 : (0 < IZR (2 ^ 52))%R) by (apply IZR_lt; lia).
  assert (Hmu : (IZR (2 ^ 52) <= IZR m)%R) by (apply IZR_le; lia).
  assert (Hhalf : (IZR (2 ^ 52) * pow2 (-53))%R = (/ 2)%R).
  { rewrite <- (pow2_IZR 52), <- pow2_add by lia. change (52 + -53) with (-1).
    pose proof (pow2_add (-1) 1) as Hm1. rewrite pow2_1 in Hm1.
    change (-1 + 1) with 0 in Hm1. rewrite pow2_0 in Hm1. lra. }
  (* the product is strictly below [d] *)
  assert (Hstrict : (mm < d)%R).
  { destruct (Rlt_dec mm d) as [Hok|Hbad]; [exact Hok|]. exfalso.
    assert (Heq : mm = d) by lra. subst mm.
    assert (Hgap : (d * pow2 (-53) <= d - d * w)%R) by nra.
    assert (Hdk : (d * pow2 (-53))%R = (IZR m * pow2 (-53) * pow2 e)%R)
      by (rewrite Hde; ring).
    destruct Hmm as [_ Hmm].
    destruct (Z.eq_dec m (2 ^ 52)) as [Heqm|Hnem].
    - (* the number just below a power of two *)
      assert (Hf : representable (IZR (2 ^ 53 - 1) * pow2 (e - 1)))
        by (exists (2 ^ 53 - 1), (e - 1); split; [lia|]; split; [lia | reflexivity]).
      specialize (Hmm _ Hf).
      assert (He1 : pow2 e = (2 * pow2 (e - 1))%R)
        by (rewrite <- pow2_succ; f_equal; lia).
      assert (Hfv : (IZR (2 ^ 53 - 1) * pow2 (e - 1))%R = (d - pow2 e / 2)%R).
      { rewrite Hde, Heqm, minus_IZR.
        assert (Htwo : IZR (2 ^ 53) = (2 * IZR (2 ^ 52))%R)
          by (rewrite <- mult_IZR; reflexivity).
        rewrite Htwo, He1. field. }
      rewrite Hfv in Hmm. rewrite Heqm in Hdk.
      assert (Hg : (pow2 e / 2 <= d - d * w)%R).
      { rewrite Hhalf in Hdk. lra. }
      split_Rabs; lra.
    - assert (Hf : representable (IZR (m - 1) * pow2 e))
        by (exists (m - 1), e; split; [lia|]; split; [lia | reflexivity]).
      specialize (Hmm _ Hf).
      assert (Hfv : (IZR (m - 1) * pow2 e)%R = (d - pow2 e)%R)
        by (rewrite Hde, minus_IZR; ring).
      rewrite Hfv in Hmm.
      assert (Hmu1 : (IZR (2 ^ 52) + 1 <= IZR m)%R)
        by (rewrite <- plus_IZR; apply IZR_le; lia).
      assert (Hg : (pow2 e / 2 < d - d * w)%R).
      { assert (/ 2 < IZR m * pow2 (-53))%R by nra.
        assert (/ 2 * pow2 e < IZR m * pow2 (-53) * pow2 e)%R
          by (apply Rmult_lt_compat_r; lra).
        lra. }
      split_Rabs; lra. }
  (* and a number of the format below [d] is at most [q - p] *)
  destruct (Rle_dec mm (q - p)) as [Hok|Hbad]; [lra|]. exfalso.
  apply Rnot_le_lt in Hbad.
  destruct Hd as [_ Hd]. specialize (Hd mm (proj1 Hmm)).
  split_Rabs; lra.
Qed.

(** *** The impact parameter in binary64 *)

Lemma Prim2SF_zero : Prim2SF 0 = S754_zero false.
Proof. reflexivity. Qed.

Lemma Prim2SF_one : Prim2SF 1 = S754_finite false 4503599627370496 (-52).
Proof. reflexivity. Qed.

Lemma Prim2SF_low : Prim2SF 0x1p-511 = S754_finite false 4503599627370496 (-563).
Proof. reflexivity. Qed.

Lemma Prim2SF_high : Prim2SF 0x1p511 = S754_finite false 4503599627370496 459.
Proof. reflexivity. Qed.

Lemma B2R_one : B2R 1 = 1%R.
Proof.
  unfold B2R. rewrite Prim2SF_one. cbn [SF2R].
  change (Zpos 4503599627370496) with (2 ^ 52).
  rewrite <- (pow2_IZR 52), <- pow2_add by lia. reflexivity.
Qed.

Lemma B2R_low : B2R 0x1p-511 = pow2 (-511).
Proof.
  unfold B2R. rewrite Prim2SF_low. cbn [SF2R].
  change (Zpos 4503599627370496) with (2 ^ 52).
  rewrite <- (pow2_IZR 52), <- pow2_add by lia. reflexivity.
Qed.

Lemma B2R_high : B2R 0x1p511 = pow2 511.
Proof.
  unfold B2R. rewrite Prim2SF_high. cbn [SF2R].
  change (Zpos 4503599627370496) with (2 ^ 52).
  rewrite <- (pow2_IZR 52), <- pow2_add by lia. reflexivity.
Qed.

Lemma square_safe_cases (x : float) :
  square_safe x = true ->
  finite_nonneg x /\ (B2R x = 0%R \/ (pow2 (-511) <= B2R x <= pow2 511)%R).
Proof.
  unfold square_safe. intros H. apply orb_prop in H. destruct H as [H|H].
  - rewrite FloatAxioms.eqb_spec, Prim2SF_zero in H. unfold SFeqb in H.
    unfold B2R, finite_nonneg.
    destruct (Prim2SF x) as [s|s| |s m e]; cbn [SFcompare] in H;
      try discriminate H.
    + split; [left; eauto | left; reflexivity].
    + destruct s; discriminate H.
    + destruct s; discriminate H.
  - apply andb_prop in H. destruct H as [Hlo Hhi].
    assert (Hfin : finite_nonneg x).
    { rewrite FloatAxioms.leb_spec, Prim2SF_low in Hlo.
      rewrite FloatAxioms.leb_spec, Prim2SF_high in Hhi.
      unfold SFleb in Hlo, Hhi. unfold finite_nonneg.
      destruct (Prim2SF x) as [s|s| |s m e]; cbn [SFcompare] in Hlo, Hhi;
        try discriminate Hlo.
      - destruct s; [discriminate Hlo | discriminate Hhi].
      - destruct s; [discriminate Hlo|]. right. eauto. }
    split; [exact Hfin|]. right.
    assert (Hl : finite_nonneg 0x1p-511) by (right; rewrite Prim2SF_low; eauto).
    assert (Hh : finite_nonneg 0x1p511) by (right; rewrite Prim2SF_high; eauto).
    apply (leb_B2R _ _ Hl Hfin) in Hlo. apply (leb_B2R _ _ Hfin Hh) in Hhi.
    rewrite B2R_low in Hlo. rewrite B2R_high in Hhi. lra.
Qed.

Lemma unit_draw (u : float) :
  (0 <=? u)%float = true -> (u <? 1)%float = true ->
  finite_nonneg u /\ (0 <= B2R u <= 1 - pow2 (-53))%R.
Proof.
  intros H0 H1.
  assert (Hfin : finite_nonneg u).
  { rewrite FloatAxioms.leb_spec, Prim2SF_zero in H0.
    rewrite FloatAxioms.ltb_spec, Prim2SF_one in H1.
    unfold SFleb in H0. unfold SFltb in H1. unfold finite_nonneg.
    destruct (Prim2SF u) as [s|s| |s m e]; cbn [SFcompare] in H0, H1;
      try discriminate H0.
    - left. eauto.
    - destruct s; [discriminate H0 | discriminate H1].
    - destruct s; [discriminate H0|]. right. eauto. }
  split; [exact Hfin|].
  assert (Hone : finite_nonneg 1) by (right; rewrite Prim2SF_one; eauto).
  apply (ltb_B2R _ _ Hfin Hone) in H1. rewrite B2R_one in H1.
  split; [apply B2R_nonneg; exact Hfin | apply below_one; assumption].
Qed.

(** A double between [2^(-511)] and [2^511] in normal form. *)
Lemma magnitude_normal (x : float) :
  finite_nonneg x -> (pow2 (-511) <= B2R x)%R ->
  exists m e : Z, B2R x = (IZR m * pow2 e)%R /\ 2 ^ 52 <= m < 2 ^ 53 /\ -563 <= e.
Proof.
  intros Hx Hlo.
  destruct (normal_form x Hx) as (m & e & Hv & Hm & He).
  { apply Rle_trans with (2 := Hlo). apply pow2_le. lia. }
  exists m, e. split; [exact Hv|]. split; [exact Hm|].
  destruct (Z_le_gt_dec (-563) e) as [Hok|Hbad]; [exact Hok|].
  rewrite Hv in Hlo. pose proof (pow2_pos e) as HE.
  assert (H1 : (IZR m < pow2 53)%R) by (rewrite pow2_IZR by lia; apply IZR_lt; lia).
  assert (H2 : (pow2 e <= pow2 (-564))%R) by (apply pow2_le; lia).
  pose proof (pow2_pos 53) as H53. pose proof (pow2_pos (-564)) as H564.
  assert (H3 : (IZR m * pow2 e < pow2 53 * pow2 (-564))%R).
  { apply Rle_lt_trans with (IZR m * pow2 (-564))%R.
    - apply Rmult_le_compat_l; [|exact H2]. apply IZR_le. lia.
    - apply Rmult_lt_compat_r; lra. }
  rewrite <- pow2_add in H3. change (53 + -564) with (-511) in H3. lra.
Qed.

(** Doubles that stand for the same number have the same square. *)
Lemma same_square (x y : float) :
  finite_nonneg x -> finite_nonneg y -> B2R x = B2R y ->
  B2R (x * x) = B2R (y * y).
Proof.
  intros Hx Hy Heq.
  pose proof (SFcompare_B2R x y Hx Hy) as Hcmp.
  pose proof (FloatAxioms.mul_spec x x) as Hxx.
  pose proof (FloatAxioms.mul_spec y y) as Hyy. unfold SF64mul in *.
  unfold B2R at 1 2. rewrite Hxx, Hyy.
  destruct (finite_nonneg_cases x Hx) as [Hx0|(m1 & e1 & Hx1 & Hvx & Hpx)];
  destruct (finite_nonneg_cases y Hy) as [Hy0|(m2 & e2 & Hy2 & Hvy & Hpy)];
    try lra.
  - assert (Hxz : exists s, Prim2SF x = S754_zero s).
    { destruct Hx as [Hx|(m & e & Hx)]; [exact Hx|].
      rewrite (B2R_finite _ _ _ Hx) in Hx0. pose proof (pow2_pos e).
      assert (0 < IZR (Zpos m))%R by (apply IZR_lt; lia). nra. }
    assert (Hyz : exists s, Prim2SF y = S754_zero s).
    { destruct Hy as [Hy|(m & e & Hy)]; [exact Hy|].
      rewrite (B2R_finite _ _ _ Hy) in Hy0. pose proof (pow2_pos e).
      assert (0 < IZR (Zpos m))%R by (apply IZR_lt; lia). nra. }
    destruct Hxz as [s1 ->]. destruct Hyz as [s2 ->]. reflexivity.
  - rewrite Hx1, Hy2 in Hcmp. cbn [SFcompare] in Hcmp.
    destruct (Z.compare_spec e1 e2) as [He|He|He]; try lra.
    subst e2. change (Pos.compare_cont Eq m1 m2) with (Pos.compare m1 m2) in Hcmp.
    destruct (Pos.compare_spec m1 m2) as [Hm|Hm|Hm]; try lra.
    subst m2. rewrite Hx1, Hy2. reflexivity.
Qed.

(** With both bounds [square_safe], [bmin <= bmax] and a draw in the unit
    interval, the formula of [sample_collision] evaluated in binary64
    returns a value between the bounds. *)
Lemma impact_parameter_in_range (bmin bmax u : float) :
  square_safe bmin = true -> square_safe bmax = true ->
  (bmin <=? bmax)%float = true ->
  (0 <=? u)%float = true -> (u <? 1)%float = true ->
  (bmin <=? impact_parameter bmin bmax u)%float = true /\
  (impact_parameter bmin bmax u <=? bmax)%float = true.
Proof.
  intros Hsa Hsc Hle Hu0 Hu1.
  unfold impact_parameter. cbn [dsqrt dadd dsub dmul binary64].
  destruct (square_safe_cases _ Hsa) as [Hfa Hma].
  destruct (square_safe_cases _ Hsc) as [Hfc Hmc].
  destruct (unit_draw u Hu0 Hu1) as [Hfu Hw].
  apply (leb_B2R _ _ Hfa Hfc) in Hle.
  pose proof (B2R_nonneg _ Hfa) as Ha0.
  set (a := B2R bmin) in *. set (c := B2R bmax) in *. set (w := B2R u) in *.
  pose proof (pow2_pos 511) as H511.
  pose proof (pow2_pos (-53)) as H53.
  assert (Hc511 : (c <= pow2 511)%R) by (destruct Hmc; lra).
  assert (H1022 : pow2 1022 = (pow2 511 * pow2 511)%R)
    by (rewrite <- pow2_add; reflexivity).
  assert (Hr1022 : representable (pow2 1022)).
  { exists (2 ^ 52), 970. split; [lia|]. split; [lia|].
    rewrite <- (pow2_IZR 52), <- pow2_add by lia. reflexivity. }
  assert (Haa : (a * a <= pow2 1022)%R) by (rewrite H1022; apply Rmult_le_compat; lra).
  assert (Hcc : (c * c <= pow2 1022)%R) by (rewrite H1022; apply Rmult_le_compat; lra).
  (* the two squares *)
  destruct (mul_nearest bmin bmin Hfa Hfa Haa) as [HfP HP].
  destruct (mul_nearest bmax bmax Hfc Hfc Hcc) as [HfQ HQ].
  fold a in HP. fold c in HQ.
  set (fP := (bmin * bmin)%float) in *. set (fQ := (bmax * bmax)%float) in *.
  set (P := B2R fP) in *. set (Q := B2R fQ) in *.
  pose proof (B2R_nonneg _ HfP) as HP0. fold P in HP0.
  assert (HPQ : (P <= Q)%R).
  { destruct (Rlt_dec a c) as [Hlt|Hge].
    - apply (nearest_mono _ _ _ _ HP HQ). nra.
    - assert (Heq : B2R bmin = B2R bmax) by (fold a c; lra).
      pose proof (same_square _ _ Hfa Hfc Heq) as Hsq. fold fP fQ P Q in Hsq. lra. }
  assert (HQ1022 : (Q <= pow2 1022)%R) by (apply (nearest_le _ _ _ HQ Hr1022 Hcc)).
  (* their difference *)
  destruct (sub_nearest fQ fP HfQ HfP HPQ HQ1022) as [HfD HD]. fold P Q in HD.
  set (fD := (fQ - fP)%float) in *. set (D := B2R fD) in *.
  pose proof (B2R_nonneg _ HfD) as HD0. fold D in HD0.
  assert (HDQ : (D <= Q)%R) by (apply (nearest_le _ _ _ HD (proj1 HQ)); lra).
  (* the product with the draw *)
  assert (HDw : (D * w <= pow2 1022)%R) by nra.
  destruct (mul_nearest fD u HfD Hfu HDw) as [HfM HM]. fold D w in HM.
  set (fM := (fD * u)%float) in *. set (M := B2R fM) in *.
  pose proof (B2R_nonneg _ HfM) as HM0. fold M in HM0.
  assert (HPM : (P + M <= Q)%R).
  { apply (sum_below P Q D w M (proj1 HP) (proj1 HQ) HPQ HD); [|exact Hw|exact HM].
    intros HDbig. apply normal_form; assumption. }
  (* the sum *)
  destruct (add_nearest fP fM HfP HfM ltac:(fold P M; lra)) as [HfS HS]. fold P M in HS.
  set (fS := (fP + fM)%float) in *. set (S := B2R fS) in *.
  assert (HPS : (P <= S)%R) by (apply (nearest_ge _ _ _ HS (proj1 HP)); lra).
  assert (HSQ : (S <= Q)%R) by (apply (nearest_le _ _ _ HS (proj1 HQ)); lra).
  (* the square root *)
  destruct (sqrt_nearest fS HfS ltac:(fold S; lra)) as [Hfb Hb]. fold S in Hb.
  set (fb := PrimFloat.sqrt fS) in *. set (b := B2R fb) in *.
  pose proof (B2R_nonneg _ Hfb) as Hb0. fold b in Hb0.
  split.
  - apply (leb_B2R _ _ Hfa Hfb). fold a b.
    destruct Hma as [Hz|Hmag]; [fold a in Hz; lra|]. fold a in Hmag.
    destruct (magnitude_normal bmin Hfa (proj1 Hmag)) as (m & e & Hv & Hm & He).
    fold a in Hv.
    exact (sqrt_of_square_lower a m e P S b Hv Hm He (proj2 Hmag) HP HPS
             ltac:(lra) Hb).
  - apply (leb_B2R _ _ Hfb Hfc). fold b c.
    destruct Hmc as [Hz|Hmag].
    + assert (HQ0 : Q = 0%R).
      { rewrite Hz in HQ. replace (0 * 0)%R with 0%R in HQ by ring.
        exact (nearest_of_representable _ _ HQ representable_0). }
      assert (HS0 : S = 0%R) by lra.
      rewrite HS0, sqrt_0 in Hb.
      pose proof (nearest_of_representable _ _ Hb representable_0). lra.
    + destruct (magnitude_normal bmax Hfc (proj1 Hmag)) as (m & e & Hv & Hm & He).
      fold c in Hv.
      exact (sqrt_of_square_upper c m e Q S b Hv Hm He (proj2 Hmag) HQ HSQ
               ltac:(lra) Hb).
Qed.

Section WithinBounds.

Context {X : Collaborators float}.

(** C2, as amended.  In double arithmetic, with [bmin_ <= bmax_], each of
    the two either zero or between [2^(-511)] and [2^511], so that its
    square neither underflows nor overflows, and every draw [u] of the
    engine satisfying [0 <= u < 1], the impact parameter [b] of every pass
    satisfies [bmin_ <= b <= bmax_]: the one computed by a pass from any
    engine state, each one in the record of a returning [sample_collision],
    rejected passes as well as the accepted one, and the one returned. *)
Theorem impact_parameter_within_bounds_binary64 (c : Collider) :
  square_safe (bmin_ c) = true -> square_safe (bmax_ c) = true ->
  (bmin_ c <=? bmax_ c)%float = true ->
  (forall e : Engine,
     (0 <=? fst (canonical e))%float = true /\
     (fst (canonical e) <? 1)%float = true) ->
  (forall e : Engine,
     (bmin_ c <=? fst (fst (fst (place_nuclei c e))))%float = true /\
     (fst (fst (fst (place_nuclei c e))) <=? bmax_ c)%float = true) /\
  (forall fuel e b n t log c' e',
     sample_collision_log fuel c e = Done ((b, n, t), log, c', e') ->
     Forall (fun tr => (bmin_ c <=? trial_b tr)%float = true /\
                       (trial_b tr <=? bmax_ c)%float = true) log /\
     (bmin_ c <=? b)%float = true /\ (b <=? bmax_ c)%float = true).
Proof.
  intros Hmin Hmax Hle Hu.
  assert (Hrange : forall e : Engine,
            (bmin_ c <=? impact_parameter (bmin_ c) (bmax_ c) (fst (canonical e)))%float
              = true /\
            (impact_parameter (bmin_ c) (bmax_ c) (fst (canonical e)) <=? bmax_ c)%float
              = true).
  { intros e. destruct (Hu e) as [Hu0 Hu1].
    exact (impact_parameter_in_range _ _ _ Hmin Hmax Hle Hu0 Hu1). }
  split.
  - intros e. rewrite place_nuclei_b. apply Hrange.
  - intros fuel e b n t log c' e' H.
    unfold sample_collision_log in H.
    apply do_while_Done in H; [|reflexivity].
    destruct H as (rejected & accepted & Hlog & Hall & _ & _ & Hr & _).
    cbn [app] in Hlog. subst log.
    assert (Hlogb : Forall (fun tr => (bmin_ c <=? trial_b tr)%float = true /\
                                      (trial_b tr <=? bmax_ c)%float = true)
                      (rejected ++ [accepted])).
    { eapply Forall_impl; [|exact Hall].
      intros tr (_ & _ & e0 & Ht). rewrite Ht. apply Hrange. }
    split; [exact Hlogb|].
    injection Hr as -> _ _.
    apply Forall_app in Hlogb. destruct Hlogb as [_ Hlast].
    inversion Hlast as [|x l Hacc _]; subst. exact Hacc.
Qed.

End WithinBounds.

(** The draws of the toy engine lie in the unit interval. *)
Lemma unit_float_range (e : Z) :
  (0 <=? Toy.unit_float e)%float = true /\ (Toy.unit_float e <? 1)%float = true.
Proof.
  unfold Toy.unit_float. set (k := (e / 65536) mod 1024).
  assert (Hk : 0 <= k < 1024) by (apply Z.mod_pos_bound; lia).
  assert (Hall : forallb (fun k => (0 <=? Toy.float_of_Z k / 1024)%float
                                   && (Toy.float_of_Z k / 1024 <? 1)%float)
                   (map Z.of_nat (seq 0 1024)) = true) by (vm_compute; reflexivity).
  rewrite forallb_forall in Hall. specialize (Hall k).
  apply andb_true_iff. apply Hall. apply in_map_iff.
  exists (Z.to_nat k). split; [lia|]. apply in_seq. lia.
Qed.

Lemma impact_parameter_within_bounds_binary64_witness :
  (forall e : Z,
     (1 <=? fst (fst (fst (place_nuclei (Toy.collider 1 3 1 true true) e))))%float
       = true /\
     (fst (fst (fst (place_nuclei (Toy.collider 1 3 1 true true) e))) <=? 3)%float
       = true) /\
  (forall fuel e b n t log c' e',
     sample_collision_log fuel (Toy.collider 1 3 1 true true) e
       = Done ((b, n, t), log, c', e') ->
     Forall (fun tr => (1 <=? trial_b tr)%float = true /\
                       (trial_b tr <=? 3)%float = true) log /\
     (1 <=? b)%float = true /\ (b <=? 3)%float = true).
Proof.
  apply (impact_parameter_within_bounds_binary64 (X := Toy.collaborators)
           (Toy.collider 1 3 1 true true)).
  - reflexivity.
  - reflexivity.
  - reflexivity.
  - intros e. exact (unit_float_range (Toy.lcg e)).
Defined.

(** In binary64 the bound of C2 fails: with [bmin = bmax = 1e-200] both
    squares underflow to zero, so the formula yields 0 for every draw, and
    [sample_collision] returns an impact parameter below [bmin]. *)
Lemma impact_parameter_leaves_bounds_binary64 :
  ~ (forall bmin bmax u : float,
       (0 <=? bmin)%float = true -> (bmin <=? bmax)%float = true ->
       (0 <=? u)%float = true -> (u <? 1)%float = true ->
       (bmin <=? impact_parameter bmin bmax u)%float = true /\
       (impact_parameter bmin bmax u <=? bmax)%float = true) /\
  Toy.sampled_b 1 (Toy.collider 1e-200 1e-200 1 true true) 42%Z = Some 0%float /\
  (1e-200 <=? 0)%float = false.
Proof.
  split; [|split].
  - intros H.
    destruct (H 1e-200%float 1e-200%float 0.5%float eq_refl eq_refl eq_refl eq_refl)
      as [Hlow _].
    vm_compute in Hlow. discriminate Hlow.
  - vm_compute. reflexivity.
  - vm_compute. reflexivity.
Qed.

(* ================================================================= *)
(** ** The constructor *)

Section Constructor.

Context {T : Type} {D : Double T} {X : Collaborators T}.

(** With a positive seed the engine left by the constructor is the seeded
    one, whatever it was before; the two nuclei were created earlier, from
    draws on the engine as it was on entry. *)
Lemma Collider_new_Done (var_map : VarMap T) (e : Engine) c e' :
  Collider_new var_map e = Done (c, e') ->
  exists eA eB,
    create_nucleus var_map 0 e = Done (nucleusA_ c, eA) /\
    create_nucleus var_map 1 eA = Done (nucleusB_ c, eB) /\
    e' = (if 0 <? random_seed var_map
          then engine_seed (random_seed var_map) else eB).
Proof.
  unfold Collider_new. intros H.
  bind_inv H x Hx. destruct x as [A eA].
  bind_inv H y Hy. destruct y as [B eB].
  bind_inv H nc Hnc. bind_inv H ev Hev. bind_inv H out Hout.
  injection H as <- <-. cbn [nucleusA_ nucleusB_].
  exists eA, eB. repeat split; assumption.
Qed.

(** C7, as amended.  The constructor checks none of [b-min], [b-max] and
    [number-events]: whenever both nuclei and the [NucleonCommon], [Event]
    and [Output] members are constructed without an exception, the
    construction succeeds, stores [b-min] and [number-events] as given and
    [b-max] as derived by [determine_bmax], whatever their signs and
    order. *)
Theorem Collider_new_stores_unchecked
    (var_map : VarMap T) (e : Engine) (A B : Nucleus) (eA eB : Engine)
    (nc : NucleonCommon) (ev : Event) (out : Output) :
  create_nucleus var_map 0 e = Done (A, eA) ->
  create_nucleus var_map 1 eA = Done (B, eB) ->
  NucleonCommon_new var_map = Some nc ->
  Event_new var_map = Some ev ->
  Output_new var_map = Some out ->
  exists c e',
    Collider_new var_map e = Done (c, e') /\
    bmin_ c = b_min var_map /\
    bmax_ c = determine_bmax var_map A B nc /\
    nevents_ c = number_events var_map.
Proof.
  intros HA HB Hnc Hev Hout.
  unfold Collider_new. rewrite HA. cbn [obind]. rewrite HB. cbn [obind].
  rewrite Hnc, Hev, Hout. cbn [or_throw obind].
  eexists _, _. split; [reflexivity|]. cbn [bmin_ bmax_ nevents_].
  repeat split.
Qed.

End Constructor.

Lemma Collider_new_stores_unchecked_witness :
  exists c e',
    Collider_new (X := Toy.collaborators) (Toy.config (-1) (-1) (-3) 42) 7%Z
      = Done (c, e') /\
    bmin_ c = (-1)%float /\
    bmax_ c = determine_bmax (X := Toy.collaborators) (Toy.config (-1) (-1) (-3) 42)
                (Toy.ball 1) (Toy.ball 1) 1%float /\
    nevents_ c = -3.
Proof.
  apply (Collider_new_stores_unchecked (X := Toy.collaborators)
           (Toy.config (-1) (-1) (-3) 42) 7%Z (Toy.ball 1) (Toy.ball 1)
           (Toy.lcg (Toy.lcg 7)) (Toy.lcg (Toy.lcg (Toy.lcg (Toy.lcg 7))))
           1%float O []); reflexivity.
Defined.

(** The claim C7 fails on the constructor: a negative [b-min], a [b-max]
    below [b-min] and a negative event count are each accepted and stored.
    With the negative [b-min] the two events are then run, and with the
    negative event count [run_events] returns without running any. *)
Lemma Collider_new_accepts_invalid :
  Toy.constructed (Toy.config (-1) 3 2 42) 7 = Some ((-1)%float, 3%float, 2) /\
  Toy.constructed (Toy.config 5 2 2 42) 7 = Some (5%float, 2%float, 2) /\
  Toy.constructed (Toy.config 0 3 (-3) 42) 7 = Some (0%float, 3%float, -3) /\
  option_map (@length _) (Toy.events (Toy.config (-1) 3 2 42) 7 20) = Some 2%nat /\
  option_map (@length _) (Toy.events (Toy.config 0 3 (-3) 42) 7 20) = Some 0%nat.
Proof.
  repeat split; vm_compute; reflexivity.
Qed.

(** C8.  Two runs with the same configuration and the same positive seed
    differ when the engine is in different states at start-up: the
    deformation parameters of the nuclei are drawn in [create_nucleus],
    before the constructor body applies the seed. *)
Theorem seeded_runs_differ :
  0 < random_seed (Toy.deformed_config 0 (-1) 3 42) /\
  exists run1 run2,
    Toy.run (Toy.deformed_config 0 (-1) 3 42) 1 20 = Done run1 /\
    Toy.run (Toy.deformed_config 0 (-1) 3 42) 2 20 = Done run2 /\
    map (fun r => snd (fst r)) run1 = [2; 3; 2] /\
    map (fun r => snd (fst r)) run2 = [1; 1; 1] /\
    run1 <> run2.
Proof.
  split; [reflexivity|].
  destruct (returns_Done (Toy.run (Toy.deformed_config 0 (-1) 3 42) 1 20))
    as [run1 H1]; [vm_compute; reflexivity|].
  destruct (returns_Done (Toy.run (Toy.deformed_config 0 (-1) 3 42) 2 20))
    as [run2 H2]; [vm_compute; reflexivity|].
  exists run1, run2.
  assert (Hn1 : map (fun r => snd (fst r)) run1 = [2; 3; 2]).
  { assert (E : match Toy.run (Toy.deformed_config 0 (-1) 3 42) 1 20 with
                | Done l => map (fun r => snd (fst r)) l
                | _ => []
                end = [2; 3; 2]) by (vm_compute; reflexivity).
    rewrite H1 in E. exact E. }
  assert (Hn2 : map (fun r => snd (fst r)) run2 = [1; 1; 1]).
  { assert (E : match Toy.run (Toy.deformed_config 0 (-1) 3 42) 2 20 with
                | Done l => map (fun r => snd (fst r)) l
                | _ => []
                end = [1; 1; 1]) by (vm_compute; reflexivity).
    rewrite H2 in E. exact E. }
  repeat split; try assumption.
  intros Heq. rewrite Heq, Hn2 in Hn1. discriminate Hn1.
Qed.

(* ================================================================= *)
(** * Further properties of the collider *)

(** ** What [sample_collision] returns and leaves behind *)

Section AcceptedPass.

Context {T : Type} {D : Double T} {X : Collaborators T}.

Lemma no_hit_hits (l : list (nat * nat * bool)) :
  any_hit l = false -> hits l = 0.
Proof.
  induction l as [|[[i j] r] l IH]; [reflexivity|].
  unfold any_hit in *. cbn [existsb snd]. rewrite hits_cons.
  destruct r; cbn [orb]; intros Hany; [discriminate | rewrite (IH Hany); lia].
Qed.

(** The nuclei that one pass stores: the two it sampled, with the
    nucleons as the pair loops left them, as many as were sampled. *)
Lemma trial_nuclei (c : Collider) (e : Engine) (l : Locals) t l1 c1 e1 :
  trial c e l = Done (t, l1, c1, e1) ->
  exists As Bs,
    c1 = set_nuclei (with_nucleons As (snd (fst (fst (place_nuclei c e)))))
                    (with_nucleons Bs (snd (fst (place_nuclei c e)))) c /\
    length As = length (nucleons (snd (fst (fst (place_nuclei c e))))) /\
    length Bs = length (nucleons (snd (fst (place_nuclei c e)))).
Proof.
  unfold trial. destruct (place_nuclei c e) as [[[b A] B] e3]. cbn [fst snd].
  intros H. bind_inv H x Hx. destruct x as [[As Bs] s].
  bind_inv H n Hn. injection H as _ _ <- _.
  apply for_each_A_Done in Hx. destruct Hx as (new & _ & _ & _ & _ & HA & HB).
  exists As, Bs. repeat split; assumption.
Qed.

(** The offsets at which a pass samples the two nuclei. *)
Lemma place_nuclei_offsets (c : Collider) (e : Engine) :
  exists eA eB,
    snd (fst (fst (place_nuclei c e))) =
      fst (sample_nucleons
             (asymmetry_ c * fst (fst (fst (place_nuclei c e))))%D
             (nucleusA_ c) eA) /\
    snd (fst (place_nuclei c e)) =
      fst (sample_nucleons
             ((asymmetry_ c - d_one) * fst (fst (fst (place_nuclei c e))))%D
             (nucleusB_ c) eB).
Proof.
  unfold place_nuclei.
  destruct (canonical e) as [u e1].
  destruct (sample_nucleons _ (nucleusA_ c) e1) as [A e2] eqn:HA.
  destruct (sample_nucleons _ (nucleusB_ c) e2) as [B e3] eqn:HB.
  cbn [fst snd]. exists e1, e2. rewrite HA, HB. split; reflexivity.
Qed.

(** The pass that ended a returning loop. *)
Lemma do_while_last (fuel : nat) :
  forall (c : Collider) (e : Engine) (l : Locals) (log : list Trial) r log' c' e',
  do_while fuel c e l log = Done (r, log', c', e') ->
  exists c0 e0 l0 t l1,
    same_settings c c0 /\
    trial c0 e0 l0 = Done (t, l1, c', e') /\
    l_collision l1 = true /\
    r = (trial_b t, l_ncoll l1, l_nToCollide l1).
Proof.
  induction fuel as [|fuel IH]; cbn [do_while]; intros c e l log r log' c' e' H;
    [discriminate|].
  bind_inv H x Hx. destruct x as [[[t l1] c1] e1].
  destruct (l_collision l1) eqn:Hacc; cbn [negb] in H.
  - injection H as <- _ <- <-.
    exists c, e, l, t, l1. split; [|split; [exact Hx|split; [exact Hacc|reflexivity]]].
    unfold same_settings. repeat split.
  - apply IH in H. destruct H as (c0 & e0 & l0 & t0 & l2 & Hs & Ht & Hc & Hr).
    exists c0, e0, l0, t0, l2. split; [|split; [exact Ht|split; [exact Hc|exact Hr]]].
    apply trial_Done in Hx. destruct Hx as (_ & _ & _ & _ & _ & _ & _ & _ & Hs1).
    exact (same_settings_trans _ _ _ Hs1 Hs).
Qed.

(** X1. [sample_collision] writes the two nuclei and nothing else of the
    collider: the interaction model, the event count, both tracking flags,
    [bmin_], [bmax_], the asymmetry, the event and the output are the same
    after a returning call. *)
Theorem sample_collision_keeps_settings
    (fuel : nat) (c : Collider) (e : Engine) r c' e' :
  sample_collision fuel c e = Done (r, c', e') ->
  same_settings c c'.
Proof.
  intros H. apply sample_collision_log_of in H. destruct H as (log & H).
  destruct r as [[b n] t]. unfold sample_collision_log in H.
  apply do_while_Done in H; [|reflexivity].
  destruct H as (_ & _ & _ & _ & _ & _ & _ & Hs). exact Hs.
Qed.

(** X2. The nuclei that a returning [sample_collision] leaves in the
    collider are the ones sampled for the returned impact parameter [b]:
    nucleus A at offset [asymmetry_ * b], nucleus B at offset
    [(asymmetry_ - 1) * b], each holding as many nucleons as were sampled;
    and [b] was computed by the sampling formula from a draw of the
    engine. *)
Theorem sample_collision_nuclei_match_b
    (fuel : nat) (c : Collider) (e : Engine) (b : T) (n t : Z) c' e' :
  sample_collision fuel c e = Done ((b, n, t), c', e') ->
  (exists e0 : Engine,
     b = impact_parameter (bmin_ c) (bmax_ c) (fst (canonical e0))) /\
  (exists NA eA As,
     nucleusA_ c' =
       with_nucleons As (fst (sample_nucleons (asymmetry_ c * b)%D NA eA)) /\
     length As =
       length (nucleons (fst (sample_nucleons (asymmetry_ c * b)%D NA eA)))) /\
  (exists NB eB Bs,
     nucleusB_ c' =
       with_nucleons Bs (fst (sample_nucleons ((asymmetry_ c - d_one) * b)%D NB eB)) /\
     length Bs =
       length (nucleons (fst (sample_nucleons ((asymmetry_ c - d_one) * b)%D NB eB)))).
Proof.
  intros H. apply sample_collision_log_of in H. destruct H as (log & H).
  unfold sample_collision_log in H.
  apply do_while_last in H.
  destruct H as (c0 & e0 & l0 & tr & l1 & Hs & Htrial & _ & Hr).
  injection Hr as Hb _ _.
  pose proof (trial_Done _ _ _ _ _ _ _ Htrial) as (Htb & _).
  pose proof (trial_nuclei _ _ _ _ _ _ _ Htrial) as (As & Bs & Hc' & HlenA & HlenB).
  pose proof (place_nuclei_b c0 e0) as Hformula.
  pose proof (place_nuclei_offsets c0 e0) as (eA & eB & HA & HB).
  rewrite <- Htb, <- Hb in Hformula, HA, HB.
  destruct Hs as (_ & _ & _ & _ & Hmin & Hmax & Hasym & _).
  rewrite Hmin, Hmax in Hformula. rewrite Hasym in HA, HB.
  rewrite HA in HlenA. rewrite HB in HlenB.
  split; [exists e0; exact Hformula|]. split.
  - exists (nucleusA_ c0), eA, As. split; [|exact HlenA].
    rewrite Hc'. cbn [set_nuclei nucleusA_]. rewrite HA. reflexivity.
  - exists (nucleusB_ c0), eB, Bs. split; [|exact HlenB].
    rewrite Hc'. cbn [set_nuclei nucleusB_]. rewrite HB. reflexivity.
Qed.

End AcceptedPass.

(** ** The counters of [sample_collision] *)

Section Counters.

Context {T : Type} {D : Double T} {X : Collaborators T}.

(** X3. In a returning [sample_collision] no pair participated on any
    rejected pass, so a tracked [ncoll] is the number of participating
    pairs of the accepted pass alone: at least 1 and at most the product
    of the sizes of the two nuclei of that pass.  A tracked trial count is
    the number of rejected passes plus one. *)
Theorem sample_collision_counts_accepted_pass
    (fuel : nat) (c : Collider) (e : Engine) (b : T) (n t : Z) c' e' :
  sample_collision fuel c e = Done ((b, n, t), c', e') ->
  exists rejected accepted,
    sample_collision_log fuel c e
      = Done ((b, n, t), rejected ++ [accepted], c', e') /\
    Forall (fun tr => hits (trial_checks tr) = 0) rejected /\
    1 <= hits (trial_checks accepted)
      <= Z.of_nat (trial_sizeA accepted * trial_sizeB accepted) /\
    (calc_ncoll_ c = true -> n = hits (trial_checks accepted)) /\
    (calc_toColl_ c = true -> t = Z.of_nat (length rejected) + 1).
Proof.
  intros H. apply sample_collision_log_of in H. destruct H as (log & H).
  pose proof H as Hlog. unfold sample_collision_log in H.
  apply do_while_Done in H; [|reflexivity].
  destruct H as (rejected & accepted & -> & Hall & Hrej & Hacc & Hr & _).
  cbn [app l_ncoll l_nToCollide] in Hr, Hlog.
  apply Forall_app in Hall. destruct Hall as [HallR HallA].
  inversion HallA as [|x l0 (Hpairs & Hflag & _) _]; subst.
  assert (Hzero : Forall (fun tr => hits (trial_checks tr) = 0) rejected).
  { clear - HallR Hrej. induction rejected as [|tr rejected IH]; [constructor|].
    inversion HallR as [|? ? (_ & Hf & _) HR]; subst.
    inversion Hrej as [|? ? Hc HJ]; subst.
    constructor; [|exact (IH HR HJ)].
    apply no_hit_hits. rewrite <- Hf. exact Hc. }
  assert (Htot : total_hits (rejected ++ [accepted]) = hits (trial_checks accepted)).
  { rewrite total_hits_app. unfold total_hits at 2. cbn [fold_right].
    clear - Hzero. induction Hzero as [|tr rejected Htr _ IH]; [cbn; lia|].
    unfold total_hits in *. cbn [fold_right]. lia. }
  exists rejected, accepted. split; [exact Hlog|]. split; [exact Hzero|].
  split; [|split].
  - split.
    + apply any_hit_hits. rewrite <- Hflag. exact Hacc.
    + pose proof (hits_le_length (trial_checks accepted)) as Hle.
      apply checks_length in Hpairs. unfold all_pairs in Hpairs.
      rewrite length_prod, !length_seq in Hpairs. rewrite Hpairs in Hle. exact Hle.
  - intros Hf. rewrite Hf in Hr. injection Hr as _ -> _. lia.
  - intros Hf. rewrite Hf in Hr. injection Hr as _ _ ->.
    rewrite length_app. cbn [length]. lia.
Qed.

(** X4. A pass on which either nucleus has no nucleons checks no pair and
    is never the accepted one: after a returning [sample_collision] both
    nuclei of the accepted pass hold at least one nucleon. *)
Theorem sample_collision_accepted_pass_nonempty
    (fuel : nat) (c : Collider) (e : Engine) r log c' e' :
  sample_collision_log fuel c e = Done (r, log, c', e') ->
  exists rejected accepted,
    log = rejected ++ [accepted] /\
    (1 <= trial_sizeA accepted)%nat /\ (1 <= trial_sizeB accepted)%nat /\
    Forall (fun tr =>
              (trial_sizeA tr = 0%nat \/ trial_sizeB tr = 0%nat) ->
              trial_checks tr = [] /\ trial_collision tr = false) log.
Proof.
  intros H. unfold sample_collision_log in H.
  apply do_while_Done in H; [|reflexivity].
  destruct H as (rejected & accepted & -> & Hall & _ & Hacc & _ & _).
  cbn [app]. exists rejected, accepted. split; [reflexivity|].
  assert (Hempty : forall tr, full_sweep c tr ->
            (trial_sizeA tr = 0%nat \/ trial_sizeB tr = 0%nat) ->
            trial_checks tr = [] /\ trial_collision tr = false).
  { intros tr (Hpairs & Hflag & _) Hz.
    assert (Hnil : trial_checks tr = []).
    { apply checks_length in Hpairs. unfold all_pairs in Hpairs.
      rewrite length_prod, !length_seq in Hpairs.
      apply length_zero_iff_nil. destruct Hz as [Hz|Hz]; rewrite Hz in Hpairs; lia. }
    split; [exact Hnil|]. rewrite Hflag, Hnil. reflexivity. }
  pose proof Hall as Hall'.
  apply Forall_app in Hall'. destruct Hall' as [_ HallA].
  inversion HallA as [|x l0 Hfull _]; subst.
  assert (Hne : ~ (trial_sizeA accepted = 0%nat \/ trial_sizeB accepted = 0%nat)).
  { intros Hz. destruct (Hempty accepted Hfull Hz) as [_ Hc]. congruence. }
  split; [lia|]. split; [lia|].
  eapply Forall_impl; [|exact Hall]. intros tr Hfull'. exact (Hempty tr Hfull').
Qed.

End Counters.

(** ** When [sample_collision] does not return *)

Section NoReturn.

Context {T : Type} {D : Double T} {X : Collaborators T}.

Variable nc : NucleonCommon.
Hypothesis never : forall (a b : Nucleon) (e : Engine),
  new_collision (participate nc a b e) = false.

Lemma for_each_B_no_hit f i Bs :
  forall j A s A' Bs' s',
  for_each_B nc f i j A Bs s = Done (A', Bs', s') ->
  ps_collision s' = ps_collision s.
Proof.
  induction Bs as [|B Bs IH]; cbn [for_each_B]; intros j A s A' Bs' s' H.
  - injection H as _ _ <-. reflexivity.
  - bind_inv H x Hx. destruct x as [[A1 B1] s1].
    bind_inv H y Hy. destruct y as [[A2 Bs2] s2].
    injection H as _ _ <-.
    apply check_pair_Done in Hx. destruct Hx as (p & -> & _ & _ & _ & Hcol & _).
    rewrite never in Hcol. cbn [orb] in Hcol.
    rewrite (IH _ _ _ _ _ _ Hy). exact Hcol.
Qed.

Lemma for_each_A_no_hit f As :
  forall i Bs s As' Bs' s',
  for_each_A nc f i As Bs s = Done (As', Bs', s') ->
  ps_collision s' = ps_collision s.
Proof.
  induction As as [|A As IH]; cbn [for_each_A]; intros i Bs s As' Bs' s' H.
  - injection H as _ _ <-. reflexivity.
  - bind_inv H x Hx. destruct x as [[A1 Bs1] s1].
    bind_inv H y Hy. destruct y as [[As2 Bs2] s2].
    injection H as _ _ <-.
    rewrite (IH _ _ _ _ _ _ Hy). exact (for_each_B_no_hit _ _ _ _ _ _ _ _ _ Hx).
Qed.

Lemma do_while_no_hit (fuel : nat) :
  forall (c : Collider) (e : Engine) (l : Locals) (log : list Trial) r,
  nucleon_common_ c = nc ->
  l_collision l = false ->
  do_while fuel c e l log <> Done r.
Proof.
  induction fuel as [|fuel IH]; cbn [do_while]; intros c e l log r Hnc Hl H;
    [discriminate|].
  bind_inv H x Hx. destruct x as [[[t l1] c1] e1].
  assert (Hl1 : l_collision l1 = false /\ nucleon_common_ c1 = nc).
  { unfold trial in Hx. destruct (place_nuclei c e) as [[[b A] B] e3].
    bind_inv Hx y Hy. destruct y as [[As Bs] s].
    bind_inv Hx n Hn. injection Hx as _ <- <- _.
    cbn [l_collision set_nuclei nucleon_common_]. split; [|exact Hnc].
    rewrite Hnc in Hy. apply for_each_A_no_hit in Hy. rewrite Hy. exact Hl. }
  destruct Hl1 as [Hl1 Hnc1]. rewrite Hl1 in H. cbn [negb] in H.
  exact (IH _ _ _ _ _ Hnc1 Hl1 H).
Qed.

End NoReturn.

Section Retry.

Context {T : Type} {D : Double T} {X : Collaborators T}.

(** X5. The rejection loop has no ceiling on its retries: with an
    interaction model for which no pair ever participates,
    [sample_collision] does not return, whatever bound on the number of
    passes is allowed. *)
Theorem sample_collision_needs_participant (c : Collider) :
  (forall (a b : Nucleon) (e : Engine),
     new_collision (participate (nucleon_common_ c) a b e) = false) ->
  forall (fuel : nat) (e : Engine),
    returns (sample_collision fuel c e) = false.
Proof.
  intros Hnever fuel e.
  destruct (sample_collision fuel c e) as [[[r c'] e']| | |] eqn:H; try reflexivity.
  exfalso.
  apply sample_collision_log_of in H. destruct H as (log & H).
  unfold sample_collision_log in H.
  eapply (do_while_no_hit (nucleon_common_ c) Hnever fuel c e); [| |exact H];
    reflexivity.
Qed.

(** A pass completes when the counters have room. *)
Lemma trial_total (K : nat) (c : Collider) (e : Engine) (l : Locals) :
  (forall o N e0, (length (nucleons (fst (sample_nucleons o N e0))) <= K)%nat) ->
  (calc_ncoll_ c = true -> l_ncoll l + Z.of_nat (K * K) <= INT_MAX) ->
  (calc_toColl_ c = true -> l_nToCollide l < INT_MAX) ->
  exists res, trial c e l = Done res.
Proof.
  intros HK Hn Ht.
  pose proof (place_nuclei_offsets c e) as (eA & eB & HA & HB).
  unfold trial. destruct (place_nuclei c e) as [[[b A] B] e3]. cbn [fst snd] in HA, HB.
  set (s0 := {| ps_ncoll := l_ncoll l; ps_collision := l_collision l;
                ps_engine := e3; ps_checks := [] |}).
  destruct (for_each_A_total (nucleon_common_ c) (calc_ncoll_ c)
              (nucleons A) 0%nat (nucleons B) s0) as (As & Bs & s & Hsweep).
  { intros Hf. specialize (Hn Hf). cbn [ps_ncoll s0].
    assert (HlA : (length (nucleons A) <= K)%nat) by (rewrite HA; apply HK).
    assert (HlB : (length (nucleons B) <= K)%nat) by (rewrite HB; apply HK).
    pose proof (Nat.mul_le_mono _ _ _ _ HlA HlB). lia. }
  rewrite Hsweep. cbn [obind].
  destruct (calc_toColl_ c).
  - rewrite (int_incr_below _ (Ht eq_refl)). cbn [obind]. eauto.
  - cbn [obind]. eauto.
Qed.

Lemma do_while_no_overflow (K : nat) (fuel : nat) :
  forall (c : Collider) (e : Engine) (l : Locals) (log : list Trial),
  (forall o N e0, (length (nucleons (fst (sample_nucleons o N e0))) <= K)%nat) ->
  Z.of_nat (K * K) <= INT_MAX ->
  l_collision l = false ->
  l_ncoll l = 0 ->
  (calc_toColl_ c = true -> l_nToCollide l + Z.of_nat fuel <= INT_MAX) ->
  do_while fuel c e l log = OutOfFuel \/ exists r, do_while fuel c e l log = Done r.
Proof.
  induction fuel as [|fuel IH]; cbn [do_while]; intros c e l log HK HKK Hl Hn Ht;
    [left; reflexivity|].
  destruct (trial_total K c e l HK) as ([[[t l1] c1] e1] & Htrial).
  { intros _. rewrite Hn. lia. }
  { intros Hf. specialize (Ht Hf). lia. }
  rewrite Htrial. cbn [obind].
  destruct (l_collision l1) eqn:Hacc; cbn [negb]; [right; eauto|].
  apply trial_Done in Htrial.
  destruct Htrial as (_ & _ & _ & _ & Hcol & Hl1 & Hn1 & Ht1 & Hs).
  destruct Hs as (_ & _ & _ & Hflag & _).
  apply IH; try assumption.
  - rewrite Hn1, Hn. rewrite Hl, orb_false_r, <- Hl1, Hacc in Hcol.
    symmetry in Hcol. rewrite (no_hit_hits _ Hcol). destruct (calc_ncoll_ c); lia.
  - rewrite Hflag. intros Hf. specialize (Ht Hf). rewrite Ht1, Hf. lia.
Qed.

(** X6. The counters of [sample_collision] do not overflow as long as each
    nucleus is sampled with at most [K] nucleons, [K * K] fits an [int],
    and, when trials are tracked, no more than [INT_MAX] passes are made:
    the call then returns or is still retrying, and never reaches an
    increment of [INT_MAX]. *)
Theorem sample_collision_no_overflow
    (K fuel : nat) (c : Collider) (e : Engine) :
  (forall o N e0, (length (nucleons (fst (sample_nucleons o N e0))) <= K)%nat) ->
  Z.of_nat (K * K) <= INT_MAX ->
  (calc_toColl_ c = true -> Z.of_nat fuel <= INT_MAX) ->
  sample_collision fuel c e = OutOfFuel \/
  exists r, sample_collision fuel c e = Done r.
Proof.
  intros HK HKK Ht. unfold sample_collision, sample_collision_log.
  destruct (do_while_no_overflow K fuel c e
              {| l_ncoll := 0; l_collision := false; l_nToCollide := 0 |} []
              HK HKK eq_refl eq_refl)
    as [H | ([[[r log] c'] e'] & H)].
  - cbn [l_nToCollide]. intros Hf. specialize (Ht Hf). lia.
  - left. rewrite H. reflexivity.
  - right. rewrite H. cbn [obind]. eauto.
Qed.

End Retry.

Lemma sample_collision_needs_participant_witness :
  returns (sample_collision 1000 Silent.collider 0%nat) = false.
Proof.
  apply (sample_collision_needs_participant Silent.collider).
  intros a b e. reflexivity.
Defined.

Lemma sample_collision_no_overflow_witness :
  sample_collision 10 Silent.collider 0%nat = OutOfFuel \/
  exists r, sample_collision 10 Silent.collider 0%nat = Done r.
Proof.
  apply (sample_collision_no_overflow 3 10 Silent.collider 0%nat).
  - intros o N e0. cbn. lia.
  - cbn. discriminate.
  - intros _. cbn. discriminate.
Defined.

(** ** The event loop *)

Section EventLoop.

Context {T : Type} {D : Double T} {X : Collaborators T}.

Lemma sample_collision_counters
    (fuel : nat) (c : Collider) (e : Engine) (b : T) (n t : Z) c' e' :
  sample_collision fuel c e = Done ((b, n, t), c', e') ->
  (if calc_ncoll_ c then 1 <= n else n = 0) /\
  (if calc_toColl_ c then 1 <= t else t = 0).
Proof.
  intros H. apply sample_collision_log_of in H. destruct H as (log & H).
  unfold sample_collision_log in H.
  apply do_while_Done in H; [|reflexivity].
  destruct H as (rejected & accepted & _ & Hall & _ & Hacc & Hr & _).
  cbn [l_ncoll l_nToCollide] in Hr. injection Hr as _ -> ->.
  apply Forall_app in Hall. destruct Hall as [_ Hlast].
  inversion Hlast as [|x l (_ & Hflag & _) _]; subst.
  rewrite Hacc in Hflag. symmetry in Hflag. apply any_hit_hits in Hflag.
  pose proof (total_hits_nonneg rejected) as Hrej.
  split.
  - destruct (calc_ncoll_ c); [|reflexivity].
    rewrite total_hits_app. unfold total_hits at 2. cbn [fold_right]. lia.
  - destruct (calc_toColl_ c); [|reflexivity].
    rewrite length_app. cbn [length]. lia.
Qed.

Lemma numbered_from (n : Z) (m : nat) :
  map (fun k => n + Z.of_nat k) (seq 0 (S m)) =
  n :: map (fun k => n + 1 + Z.of_nat k) (seq 0 m).
Proof.
  cbn [seq map]. f_equal; [lia|].
  rewrite <- seq_shift, map_map. apply map_ext. intros k. lia.
Qed.

Lemma last_default {A : Type} (x : A) (l : list A) (d d' : A) :
  last (x :: l) d = last (x :: l) d'.
Proof.
  revert x. induction l as [|y l IH]; intros x; [reflexivity|].
  change (last (y :: l) d = last (y :: l) d'). apply IH.
Qed.

(** The events of a returning loop, from event number [n] on. *)
Lemma event_loop_Done (fuel trials : nat) :
  forall (n : Z) (c : Collider) (e : Engine) acc sampled c' e',
  event_loop fuel trials n c e acc = Done (sampled, c', e') ->
  exists new evs,
    sampled = acc ++ new /\
    length new = Z.to_nat (nevents_ c - n) /\
    length evs = length new /\
    Forall (fun r => (if calc_ncoll_ c then 1 <= snd (fst r) else snd (fst r) = 0) /\
                     (if calc_toColl_ c then 1 <= snd r else snd r = 0)) new /\
    same_parameters c c' /\
    output_ c' =
      emit (output_ c)
        (combine (combine (map (fun k => n + Z.of_nat k) (seq 0 (length new))) new)
                 evs) /\
    event_ c' = last evs (event_ c) /\
    events_from trials n c e
      (combine (combine (map (fun k => n + Z.of_nat k) (seq 0 (length new))) new) evs)
      c' e'.
Proof.
  induction fuel as [|fuel IH]; intros n c e acc sampled c' e' H;
    cbn [event_loop] in H; destruct (n <? nevents_ c) eqn:Hn.
  - discriminate.
  - injection H as <- <- <-. apply Z.ltb_ge in Hn.
    exists [], []. rewrite app_nil_r.
    replace (Z.to_nat (nevents_ c - n)) with 0%nat by lia.
    repeat split; constructor.
  - apply Z.ltb_lt in Hn.
    bind_inv H x Hx. destruct x as [[[[b nco] t] c1] e1].
    bind_inv H n1 Hn1. apply int_incr_Done in Hn1. destruct Hn1 as [-> _].
    pose proof (sample_collision_counters _ _ _ _ _ _ _ _ Hx) as Hcount.
    pose proof Hx as Hsample.
    apply sample_collision_log_of in Hx. destruct Hx as (log & Hx).
    unfold sample_collision_log in Hx. apply do_while_Done in Hx; [|reflexivity].
    destruct Hx as (_ & _ & _ & _ & _ & _ & _ & Hs).
    destruct Hs as (S1 & S2 & S3 & S4 & S5 & S6 & S7 & S8 & S9).
    apply IH in H.
    destruct H as (new & evs & Hsam & Hlen & Hevs & Hall & Hpar & Hout & Hev & Hrel).
    cbn [nevents_ calc_ncoll_ calc_toColl_ output_ event_] in Hlen, Hall, Hout, Hev.
    set (ev := Event_compute (nucleusA_ c1) (nucleusB_ c1) (nucleon_common_ c1)
                 (event_ c1)) in *.
    exists ((b, nco, t) :: new), (ev :: evs).
    split; [rewrite Hsam, <- app_assoc; reflexivity|].
    split; [cbn [length]; rewrite Hlen, S2; lia|].
    split; [cbn [length]; rewrite Hevs; reflexivity|].
    split; [|split; [|split; [|split]]].
    + constructor; [exact Hcount|]. rewrite S3, S4 in Hall. exact Hall.
    + unfold same_parameters in *.
      cbn [nucleon_common_ nevents_ calc_ncoll_ calc_toColl_ bmin_ bmax_ asymmetry_]
        in Hpar.
      destruct Hpar as (P1 & P2 & P3 & P4 & P5 & P6 & P7).
      repeat split; congruence.
    + rewrite Hout. cbn [length]. rewrite numbered_from.
      cbn [combine]. unfold emit. cbn [fold_left]. rewrite S9. reflexivity.
    + rewrite Hev. destruct evs as [|ev0 evs]; [reflexivity|].
      change (last (ev :: ev0 :: evs) (event_ c)) with (last (ev0 :: evs) (event_ c)).
      apply last_default.
    + cbn [length]. rewrite numbered_from. cbn [combine].
      exact (events_next trials n c e b nco t c1 e1 _ c' e' Hsample Hrel).
  - injection H as <- <- <-. apply Z.ltb_ge in Hn.
    exists [], []. rewrite app_nil_r.
    replace (Z.to_nat (nevents_ c - n)) with 0%nat by lia.
    repeat split; constructor.
Qed.

(** X7. A returning [run_events] sampled exactly [nevents_] collisions
    (none when the count is negative); in each sampled tuple a tracked
    counter is at least 1 and an untracked one is 0; and the run
    parameters of the collider are those it started with. *)
Theorem run_events_samples_every_event
    (fuel trials : nat) (c : Collider) (e : Engine) sampled c' e' :
  run_events fuel trials c e = Done (sampled, c', e') ->
  length sampled = Z.to_nat (nevents_ c) /\
  Forall (fun r => (if calc_ncoll_ c then 1 <= snd (fst r) else snd (fst r) = 0) /\
                   (if calc_toColl_ c then 1 <= snd r else snd r = 0)) sampled /\
  same_parameters c c'.
Proof.
  unfold run_events. intros H. apply event_loop_Done in H.
  destruct H as (new & evs & -> & Hlen & _ & Hall & Hpar & _).
  cbn [app]. rewrite Z.sub_0_r in Hlen. repeat split; try assumption; apply Hpar.
Qed.

(** X8. A returning [run_events] called the output exactly once per
    event, in order, with the event numbers 0, 1, 2, ..., the tuple that
    [sample_collision] returned for that event, and the event that
    [Event::compute] made of the nuclei and the event which that
    [sample_collision] left; each [sample_collision] started from the
    collider and the engine that the event before it left; the collider's
    event is the one computed last. *)
Theorem run_events_emits_in_order
    (fuel trials : nat) (c : Collider) (e : Engine) sampled c' e' :
  run_events fuel trials c e = Done (sampled, c', e') ->
  exists evs,
    length evs = length sampled /\
    events_from trials 0 c e
      (combine (combine (map Z.of_nat (seq 0 (length sampled))) sampled) evs)
      c' e' /\
    output_ c' =
      emit (output_ c)
        (combine (combine (map Z.of_nat (seq 0 (length sampled))) sampled) evs) /\
    event_ c' = last evs (event_ c).
Proof.
  unfold run_events. intros H. apply event_loop_Done in H.
  destruct H as (new & evs & -> & _ & Hevs & _ & _ & Hout & Hev & Hrel).
  cbn [app]. exists evs. split; [exact Hevs|]. split; [exact Hrel|].
  split; [|exact Hev].
  rewrite Hout. do 3 f_equal.
Qed.

End EventLoop.

(** ** Construction *)

Section Construction.

Context {T : Type} {D : Double T} {X : Collaborators T}.

(** X9. The constructor needs two projectiles: with fewer than two
    entries in [projectile] the lookup of the first or of the second one
    throws, and no collider is constructed. *)
Theorem Collider_new_needs_two_projectiles (var_map : VarMap T) (e : Engine) :
  (length (projectile var_map) < 2)%nat ->
  Collider_new var_map e = Throw.
Proof.
  intros Hlen. unfold Collider_new, create_nucleus.
  destruct (projectile var_map) as [|s0 [|s1 rest]]; cbn [length] in Hlen; try lia.
  - reflexivity.
  - cbn [nth_error or_throw obind].
    destruct (normal_distribution (y_mean var_map) (y_std var_map) e) as [gamma e1].
    destruct (normal_distribution (beta2_mean var_map) (beta2_std var_map) e1)
      as [beta2 e2].
    destruct (Nucleus_create s0 (nucleon_min_dist var_map) (a0 var_map) beta2
                (beta3 var_map) (beta4 var_map) gamma); reflexivity.
Qed.

(** X11. A seed that is zero or negative leaves the engine unseeded: after
    construction it is the engine it was on entry, advanced by the four
    draws of the two [create_nucleus] calls (gamma then beta2, for the
    first nucleus then for the second). *)
Theorem Collider_new_unseeded
    (var_map : VarMap T) (e : Engine) c e' :
  random_seed var_map <= 0 ->
  Collider_new var_map e = Done (c, e') ->
  e' = snd (normal_distribution (beta2_mean var_map) (beta2_std var_map)
        (snd (normal_distribution (y_mean var_map) (y_std var_map)
          (snd (normal_distribution (beta2_mean var_map) (beta2_std var_map)
            (snd (normal_distribution (y_mean var_map) (y_std var_map) e))))))).
Proof.
  intros Hseed H. apply Z.ltb_ge in Hseed.
  unfold Collider_new in H. rewrite Hseed in H.
  bind_inv H x Hx. destruct x as [A eA].
  bind_inv H y Hy. destruct y as [B eB].
  bind_inv H nc Hnc. bind_inv H ev Hev. bind_inv H out Hout.
  injection H as _ <-.
  unfold create_nucleus in Hx, Hy.
  bind_inv Hx s0 Hs0.
  destruct (normal_distribution (y_mean var_map) (y_std var_map) e)
    as [g0 e1] eqn:E1.
  destruct (normal_distribution (beta2_mean var_map) (beta2_std var_map) e1)
    as [b0 e2] eqn:E2.
  bind_inv Hx nuc0 Hnuc0. injection Hx as _ <-.
  bind_inv Hy s1 Hs1.
  destruct (normal_distribution (y_mean var_map) (y_std var_map) e2)
    as [g1 e3] eqn:E3.
  destruct (normal_distribution (beta2_mean var_map) (beta2_std var_map) e3)
    as [b1 e4] eqn:E4.
  bind_inv Hy nuc1 Hnuc1. injection Hy as _ <-.
  cbn [snd]. rewrite E2. cbn [snd]. rewrite E3. cbn [snd]. rewrite E4. reflexivity.
Qed.

End Construction.

Lemma Collider_new_needs_two_projectiles_witness :
  Collider_new (X := Toy.collaborators) (Toy.config_of ["Pb"%string]) 7%Z = Throw /\
  Collider_new (X := Toy.collaborators) (Toy.config_of []) 7%Z = Throw.
Proof.
  split.
  - apply (Collider_new_needs_two_projectiles (X := Toy.collaborators)
             (Toy.config_of ["Pb"%string]) 7%Z). cbn. lia.
  - apply (Collider_new_needs_two_projectiles (X := Toy.collaborators)
             (Toy.config_of []) 7%Z). cbn. lia.
Defined.

Lemma Collider_new_unseeded_witness :
  Toy.lcg (Toy.lcg (Toy.lcg (Toy.lcg 7))) =
  snd (normal_distribution (Collaborators := Toy.collaborators) 0%float 0%float
    (snd (normal_distribution (Collaborators := Toy.collaborators) 0%float 0%float
      (snd (normal_distribution (Collaborators := Toy.collaborators) 0%float 0%float
        (snd (normal_distribution (Collaborators := Toy.collaborators)
                0%float 0%float 7%Z))))))).
Proof.
  apply (Collider_new_unseeded (X := Toy.collaborators) (Toy.config 0 3 3 0) 7%Z
           (Toy.collider 0 3 3 true true)).
  - cbn. lia.
  - reflexivity.
Defined.

(** ** The sampling formula in binary64 *)

Lemma Prim2SF_inj (x y : float) : Prim2SF x = Prim2SF y -> x = y.
Proof.
  intros H. rewrite <- (SF2Prim_Prim2SF x), <- (SF2Prim_Prim2SF y), H. reflexivity.
Qed.

Lemma mul_abs_self (x : float) : (abs x * abs x)%float = (x * x)%float.
Proof.
  apply Prim2SF_inj. rewrite !FloatAxioms.mul_spec, FloatAxioms.abs_spec.
  unfold SF64mul, SFmul, SFabs.
  destruct (Prim2SF x) as [s|s| |s m e]; try reflexivity; destruct s; reflexivity.
Qed.

(** A square is NaN, [+0], [+infinity] or a positive finite number. *)
Lemma SFmul_self_cases (s : spec_float) :
  SF64mul s s = S754_nan \/ SF64mul s s = S754_zero false \/
  SF64mul s s = S754_infinity false \/
  exists m e, SF64mul s s = S754_finite false m e.
Proof.
  unfold SF64mul, SFmul.
  destruct s as [z|i| |sx m e].
  - right; left. destruct z; reflexivity.
  - right; right; left. destruct i; reflexivity.
  - left. reflexivity.
  - replace (xorb sx sx) with false by (destruct sx; reflexivity).
    unfold binary_round_aux.
    destruct (shr_fexp prec emax (Z.pos (m * m)) (e + e) loc_Exact) as [mrs e'].
    destruct (shr_fexp prec emax
                (round_nearest_even (shr_m mrs) (loc_of_shr_record mrs)) e' loc_Exact)
      as [mrs' e''].
    destruct (shr_m mrs') as [|q|q].
    + right; left. reflexivity.
    + destruct (e'' <=? emax - prec)%Z.
      * right; right; right. eauto.
      * right; right; left. reflexivity.
    + left. reflexivity.
Qed.

(** A draw [u] with [0 <= u < 1] is a zero or a positive finite number. *)
Lemma unit_draw_cases (u : float) :
  (0 <=? u)%float = true -> (u <? 1)%float = true ->
  (exists s, Prim2SF u = S754_zero s) \/ exists m e, Prim2SF u = S754_finite false m e.
Proof.
  rewrite FloatAxioms.leb_spec, FloatAxioms.ltb_spec.
  change (Prim2SF 0) with (S754_zero false).
  change (Prim2SF 1) with (S754_finite false 4503599627370496 (-52)).
  unfold SFleb, SFltb.
  destruct (Prim2SF u) as [s|s| |s m e]; cbn [SFcompare].
  - intros _ _. left. eauto.
  - destruct s; discriminate.
  - discriminate.
  - destruct s; [discriminate|]. intros _ _. right. eauto.
Qed.

(** With [bmin = bmax] the draw drops out of the formula. *)
Lemma impact_parameter_degenerate (x u : float) :
  (x * x <? infinity)%float = true ->
  (0 <=? u)%float = true -> (u <? 1)%float = true ->
  impact_parameter x x u = PrimFloat.sqrt (x * x).
Proof.
  intros Hfin Hu0 Hu1. unfold impact_parameter. cbn [dsqrt dadd dsub dmul binary64].
  f_equal. apply Prim2SF_inj.
  rewrite FloatAxioms.add_spec, (FloatAxioms.mul_spec (x * x - x * x) u),
    FloatAxioms.sub_spec.
  rewrite FloatAxioms.ltb_spec in Hfin.
  change (Prim2SF infinity) with (S754_infinity false) in Hfin.
  rewrite FloatAxioms.mul_spec in *.
  destruct (unit_draw_cases u Hu0 Hu1) as [[s Hu] | (m & e & Hu)]; rewrite Hu;
    destruct (SFmul_self_cases (Prim2SF x)) as [Hsq | [Hsq | [Hsq | (mq & eq & Hsq)]]];
    rewrite Hsq in *; try discriminate Hfin; clear Hfin.
  - destruct s; reflexivity.
  - unfold SF64sub, SFsub. rewrite Z.sub_diag. destruct s; reflexivity.
  - reflexivity.
  - unfold SF64sub, SFsub. rewrite Z.sub_diag. reflexivity.
Qed.

Section Binary64.

Context {X : Collaborators float}.

(** X12. The sampling formula uses [bmin_] and [bmax_] only through their
    squares: in double arithmetic a negative [bmin_] or [bmax_] gives
    exactly the impact parameter of its absolute value, for every draw. *)
Theorem impact_parameter_ignores_signs (bmin bmax u : float) :
  impact_parameter (abs bmin) (abs bmax) u = impact_parameter bmin bmax u.
Proof.
  unfold impact_parameter. cbn [dsqrt dadd dsub dmul binary64].
  rewrite !mul_abs_self. reflexivity.
Qed.

(** X13. With [bmax_ = bmin_], a finite square [bmin_ * bmin_] and draws
    in the unit interval, the draw has no influence in double arithmetic:
    every returning [sample_collision] returns [b = PrimFloat.sqrt (bmin_ * bmin_)],
    which for [bmin_ = bmax_ = 0] is exactly 0. *)
Theorem sample_collision_degenerate_range
    (fuel : nat) (c : Collider) (e : Engine) (b : float) (n t : Z) c' e' :
  bmax_ c = bmin_ c ->
  (bmin_ c * bmin_ c <? infinity)%float = true ->
  (forall e0 : Engine,
     (0 <=? fst (canonical e0))%float = true /\
     (fst (canonical e0) <? 1)%float = true) ->
  sample_collision fuel c e = Done ((b, n, t), c', e') ->
  b = PrimFloat.sqrt (bmin_ c * bmin_ c) /\
  (bmin_ c = 0%float -> b = 0%float).
Proof.
  intros Heq Hfin Hu H.
  apply sample_collision_log_of in H. destruct H as (log & H).
  unfold sample_collision_log in H. apply do_while_Done in H; [|reflexivity].
  destruct H as (rejected & accepted & _ & Hall & _ & _ & Hr & _).
  injection Hr as -> _ _.
  apply Forall_app in Hall. destruct Hall as [_ Hlast].
  inversion Hlast as [|x l (_ & _ & e0 & Hb) _]; subst.
  rewrite Heq in Hb. destruct (Hu e0) as [Hu0 Hu1].
  rewrite (impact_parameter_degenerate _ _ Hfin Hu0 Hu1) in Hb.
  split; [exact Hb|]. intros Hz. rewrite Hb, Hz. reflexivity.
Qed.

End Binary64.

Lemma sample_collision_degenerate_range_witness :
  exists b n t c' e',
    sample_collision 5 (Toy.collider 0 0 1 true true) 42%Z = Done ((b, n, t), c', e') /\
    b = PrimFloat.sqrt (0 * 0)%float /\ (0%float = 0%float -> b = 0%float).
Proof.
  destruct (returns_Done (sample_collision 5 (Toy.collider 0 0 1 true true) 42%Z))
    as [[[[[b n] t] c'] e'] Hrun]; [vm_compute; reflexivity|].
  exists b, n, t, c', e'. split; [exact Hrun|].
  apply (sample_collision_degenerate_range (X := Toy.collaborators)
           5 (Toy.collider 0 0 1 true true) 42%Z b n t c' e').
  - reflexivity.
  - reflexivity.
  - intros e0. exact (unit_float_range (Toy.lcg e0)).
  - exact Hrun.
Defined.

(** ** Runs of the model *)

Lemma sample_collision_keeps_settings_witness :
  exists r c' e',
    sample_collision 5 (Toy.collider 0 3 1 true true) 42%Z = Done (r, c', e') /\
    same_settings (Toy.collider 0 3 1 true true) c'.
Proof.
  destruct (returns_Done (sample_collision 5 (Toy.collider 0 3 1 true true) 42%Z))
    as [[[r c'] e'] Hrun]; [vm_compute; reflexivity|].
  exists r, c', e'. split; [exact Hrun|].
  exact (sample_collision_keeps_settings 5 (Toy.collider 0 3 1 true true) 42%Z
           r c' e' Hrun).
Defined.

Lemma sample_collision_nuclei_match_b_witness :
  exists b n t c' e',
    sample_collision 5 (Toy.collider 0 3 1 true true) 42%Z = Done ((b, n, t), c', e') /\
    (exists e0 : Z, b = impact_parameter 0%float 3%float (Toy.unit_float (Toy.lcg e0))) /\
    (exists NA eA As,
       nucleusA_ c' = with_nucleons (Collaborators := Toy.collaborators) As
                        (fst (sample_nucleons (0.5 * b)%float NA eA)) /\
       length As = length (nucleons (fst (sample_nucleons (0.5 * b)%float NA eA)))) /\
    (exists NB eB Bs,
       nucleusB_ c' = with_nucleons (Collaborators := Toy.collaborators) Bs
                        (fst (sample_nucleons ((0.5 - 1) * b)%float NB eB)) /\
       length Bs = length (nucleons (fst (sample_nucleons ((0.5 - 1) * b)%float NB eB)))).
Proof.
  destruct (returns_Done (sample_collision 5 (Toy.collider 0 3 1 true true) 42%Z))
    as [[[[[b n] t] c'] e'] Hrun]; [vm_compute; reflexivity|].
  exists b, n, t, c', e'. split; [exact Hrun|].
  exact (sample_collision_nuclei_match_b 5 (Toy.collider 0 3 1 true true) 42%Z
           b n t c' e' Hrun).
Defined.

Lemma sample_collision_counts_accepted_pass_witness :
  exists b n t c' e' rejected accepted,
    sample_collision_log 5 (Toy.collider 0 3 1 true true) 42%Z
      = Done ((b, n, t), rejected ++ [accepted], c', e') /\
    Forall (fun tr => hits (trial_checks tr) = 0) rejected /\
    1 <= hits (trial_checks accepted)
      <= Z.of_nat (trial_sizeA accepted * trial_sizeB accepted) /\
    (true = true -> n = hits (trial_checks accepted)) /\
    (true = true -> t = Z.of_nat (length rejected) + 1).
Proof.
  destruct (returns_Done (sample_collision 5 (Toy.collider 0 3 1 true true) 42%Z))
    as [[[[[b n] t] c'] e'] Hrun]; [vm_compute; reflexivity|].
  exists b, n, t, c', e'.
  exact (sample_collision_counts_accepted_pass 5 (Toy.collider 0 3 1 true true) 42%Z
           b n t c' e' Hrun).
Defined.

Lemma sample_collision_accepted_pass_nonempty_witness :
  exists r log c' e' rejected accepted,
    sample_collision_log 5 (Toy.collider 0 3 1 true true) 42%Z = Done (r, log, c', e') /\
    log = rejected ++ [accepted] /\
    (1 <= trial_sizeA accepted)%nat /\ (1 <= trial_sizeB accepted)%nat /\
    Forall (fun tr =>
              (trial_sizeA tr = 0%nat \/ trial_sizeB tr = 0%nat) ->
              trial_checks tr = [] /\ trial_collision tr = false) log.
Proof.
  destruct (returns_Done (sample_collision_log 5 (Toy.collider 0 3 1 true true) 42%Z))
    as [[[[r log] c'] e'] Hrun]; [vm_compute; reflexivity|].
  exists r, log, c', e'.
  destruct (sample_collision_accepted_pass_nonempty 5
              (Toy.collider 0 3 1 true true) 42%Z r log c' e' Hrun)
    as (rejected & accepted & H).
  exists rejected, accepted. split; [exact Hrun | exact H].
Defined.

Lemma run_events_samples_every_event_witness :
  exists sampled c' e',
    run_events 20 20 (Toy.collider 0 3 3 true true) 42%Z = Done (sampled, c', e') /\
    length sampled = 3%nat /\
    Forall (fun r => 1 <= snd (fst r) /\ 1 <= snd r) sampled /\
    same_parameters (Toy.collider 0 3 3 true true) c'.
Proof.
  destruct (returns_Done (run_events 20 20 (Toy.collider 0 3 3 true true) 42%Z))
    as [[[sampled c'] e'] Hrun]; [vm_compute; reflexivity|].
  exists sampled, c', e'. split; [exact Hrun|].
  exact (run_events_samples_every_event 20 20 (Toy.collider 0 3 3 true true) 42%Z
           sampled c' e' Hrun).
Defined.

Lemma run_events_emits_in_order_witness :
  exists sampled c' e' evs,
    run_events 20 20 (Toy.collider 0 3 3 true true) 42%Z = Done (sampled, c', e') /\
    length evs = length sampled /\
    events_from 20 0 (Toy.collider 0 3 3 true true) 42%Z
      (combine (combine (map Z.of_nat (seq 0 (length sampled))) sampled) evs)
      c' e' /\
    output_ c' =
      emit (X := Toy.collaborators) []
        (combine (combine (map Z.of_nat (seq 0 (length sampled))) sampled) evs) /\
    event_ c' = last evs O.
Proof.
  destruct (returns_Done (run_events 20 20 (Toy.collider 0 3 3 true true) 42%Z))
    as [[[sampled c'] e'] Hrun]; [vm_compute; reflexivity|].
  exists sampled, c', e'.
  destruct (run_events_emits_in_order 20 20 (Toy.collider 0 3 3 true true) 42%Z
              sampled c' e' Hrun) as (evs & H).
  exists evs. split; [exact Hrun | exact H].
Defined.

(** ** Signs in binary64 *)

Lemma not_negative_spec (x : float) :
  (x <? 0)%float = false <-> SFnot_negative (Prim2SF x).
Proof.
  rewrite FloatAxioms.ltb_spec. change (Prim2SF 0) with (S754_zero false).
  unfold SFltb, SFnot_negative.
  destruct (Prim2SF x) as [z|i| |s m e]; cbn [SFcompare].
  - split; [intros _; right; left; eauto | reflexivity].
  - destruct i; split; try discriminate; try reflexivity.
    + intros [H|[[z H]|[H|(m & e & H)]]]; discriminate.
    + intros _. right; right; left. reflexivity.
  - split; [intros _; left; reflexivity | reflexivity].
  - destruct s; split; try discriminate; try reflexivity.
    + intros [H|[[z H]|[H|(m' & e' & H)]]]; discriminate.
    + intros _. right; right; right. eauto.
Qed.

Lemma binary_round_aux_not_negative (m e : Z) (l : location) :
  SFnot_negative (binary_round_aux prec emax false m e l).
Proof.
  unfold binary_round_aux, SFnot_negative.
  destruct (shr_fexp prec emax m e l) as [mrs e'].
  destruct (shr_fexp prec emax
              (round_nearest_even (shr_m mrs) (loc_of_shr_record mrs)) e' loc_Exact)
    as [mrs' e''].
  destruct (shr_m mrs') as [|q|q].
  - right; left. eauto.
  - destruct (e'' <=? emax - prec)%Z.
    + right; right; right. eauto.
    + right; right; left. reflexivity.
  - left. reflexivity.
Qed.

Lemma SFadd_not_negative (x y : spec_float) :
  SFnot_negative x -> SFnot_negative y -> SFnot_negative (SF64add x y).
Proof.
  unfold SF64add, SFadd.
  intros [->|[[zx ->]|[->|(mx & ex & ->)]]] [->|[[zy ->]|[->|(my & ey & ->)]]];
    try (left; reflexivity);
    try (right; right; left; reflexivity);
    try (right; right; right; eauto; fail).
  - right; left. destruct zx, zy; eexists; reflexivity.
  - cbn [cond_Zopp Z.add]. unfold binary_normalize, binary_round.
    destruct (shl_align _ _ _) as [mz ez].
    apply binary_round_aux_not_negative.
Qed.

Lemma sqrt_not_negative (x : float) : (PrimFloat.sqrt x <? 0)%float = false.
Proof.
  apply not_negative_spec. rewrite FloatAxioms.sqrt_spec.
  unfold SF64sqrt, SFsqrt.
  destruct (Prim2SF x) as [z|i| |s m e].
  - right; left. eauto.
  - destruct i; [left; reflexivity | right; right; left; reflexivity].
  - left. reflexivity.
  - destruct s; [left; reflexivity|].
    destruct (SFsqrt_core_binary prec emax (Z.pos m) e) as [[mz ez] lz].
    apply binary_round_aux_not_negative.
Qed.

Section Signs.

Context {X : Collaborators float}.

(** X16. In double arithmetic [determine_bmax] never yields a negative
    maximum when neither radius nor the maximum interaction distance is
    negative: a negative configured value is replaced, and the derived sum
    is not below zero. *)
Theorem determine_bmax_not_negative
    (var_map : VarMap float) (A B : Nucleus) (nc : NucleonCommon) :
  (radius A <? 0)%float = false ->
  (radius B <? 0)%float = false ->
  (max_impact nc <? 0)%float = false ->
  (determine_bmax var_map A B nc <? 0)%float = false.
Proof.
  intros HA HB Hnc. unfold determine_bmax. cbn [dltb dadd d_zero binary64].
  destruct (b_max var_map <? 0)%float eqn:Hcfg; [|exact Hcfg].
  apply not_negative_spec. rewrite !FloatAxioms.add_spec.
  apply SFadd_not_negative; [apply SFadd_not_negative|];
    apply not_negative_spec; assumption.
Qed.

(** X17. In double arithmetic the impact parameter that [sample_collision]
    returns is never below zero, whatever [bmin_], [bmax_] and the draws
    are. *)
Theorem sample_collision_b_not_negative
    (fuel : nat) (c : Collider) (e : Engine) (b : float) (n t : Z) c' e' :
  sample_collision fuel c e = Done ((b, n, t), c', e') ->
  (b <? 0)%float = false.
Proof.
  intros H. apply sample_collision_log_of in H. destruct H as (log & H).
  unfold sample_collision_log in H. apply do_while_Done in H; [|reflexivity].
  destruct H as (rejected & accepted & _ & Hall & _ & _ & Hr & _).
  injection Hr as -> _ _.
  apply Forall_app in Hall. destruct Hall as [_ Hlast].
  inversion Hlast as [|x l (_ & _ & e0 & Hb) _]; subst.
  rewrite Hb. unfold impact_parameter. cbn [dsqrt binary64].
  apply sqrt_not_negative.
Qed.

End Signs.

Lemma determine_bmax_not_negative_witness :
  (determine_bmax (X := Toy.collaborators) (Toy.config 0 (-1) 1 42)
     (Toy.ball 1.2) (Toy.ball 1.2) 0.6%float <? 0)%float = false.
Proof.
  apply (determine_bmax_not_negative (X := Toy.collaborators)
           (Toy.config 0 (-1) 1 42) (Toy.ball 1.2) (Toy.ball 1.2) 0.6%float);
    reflexivity.
Defined.

Lemma sample_collision_b_not_negative_witness :
  exists b n t c' e',
    sample_collision 5 (Toy.collider (-1) 3 1 true true) 42%Z
      = Done ((b, n, t), c', e') /\
    (b <? 0)%float = false.
Proof.
  destruct (returns_Done (sample_collision 5 (Toy.collider (-1) 3 1 true true) 42%Z))
    as [[[[[b n] t] c'] e'] Hrun]; [vm_compute; reflexivity|].
  exists b, n, t, c', e'. split; [exact Hrun|].
  exact (sample_collision_b_not_negative (X := Toy.collaborators) 5
           (Toy.collider (-1) 3 1 true true) 42%Z b n t c' e' Hrun).
Defined.
